(** * Live API web console: relay, reconnection hook and audio pipeline

    A shallow embedding of the parts of the repository that carry the
    protocol and timing logic:

    - [server.js], minimal variant: [safeClose], the queueing relay;
    - [server.js], verbose variant: close-code translation, the session
      store and its hourly sweep;
    - [use-live-api]: the [onClose] reconnection policy of the React hook;
    - [live-api-client.js]: sample conversion and chunking of the
      recorder, and the playback scheduler of [AudioStreamer].

    Around these, the other handlers of the same files are embedded too:
    the remaining events of the hook ([onGoAway], [onSessionUpdate],
    [onError], [disconnect]), [AudioRecorder.stop], the [EventEmitter],
    and the connection, sending and message dispatch of
    [MultimodalLiveClient].

    JavaScript numbers that the code only uses as integers (close codes,
    millisecond timestamps, indices) are [Z] or [nat]; the numbers that are
    genuinely fractional (audio samples, the audio clock in seconds, the
    jittered delay) are rationals [Q].  For the samples this loses
    nothing: a float32 sample is a dyadic rational, and scaling it by
    32768, comparing and clamping are exact in double arithmetic.  For the
    audio clock and the delays the sums and quotients are the exact ones;
    the rounding of a double addition is not modelled. *)

From Stdlib Require Import ZArith QArith Qminmax Qabs Qround Lqa Lia Bool.
From stdpp Require Import base list strings pretty gmap.

Set Default Proof Using "Type".

(** ** JavaScript values that reach the close paths *)

Module Js.

(** The values a close [code] or [reason] can be: nothing, a number, a
    string, or a [Buffer] (given by the bytes it holds; a Rocq [string]
    is a sequence of bytes, so [toString('utf8')] is the identity). *)
Inductive value :=
| Undefined
| Num (n : Z)
| Str (s : string)
| Buf (bytes : string).

(** [if (v)]: objects are truthy, the empty string and 0 are not. *)
Definition truthy (v : value) : bool :=
  match v with
  | Undefined => false
  | Num n => negb (n =? 0)%Z
  | Str s => negb (String.eqb s EmptyString)
  | Buf _ => true
  end.

(** [String(v)] / [v.toString()] on the values above. *)
Definition toString (v : value) : string :=
  match v with
  | Undefined => "undefined"
  | Num n => pretty n
  | Str s => s
  | Buf b => b
  end.

End Js.

(** ** The [ws] sockets as the relay sees them *)

Module Ws.

Inductive readyState := CONNECTING | OPEN | CLOSING | CLOSED.

Definition readyState_eqb (a b : readyState) : bool :=
  match a, b with
  | CONNECTING, CONNECTING | OPEN, OPEN | CLOSING, CLOSING | CLOSED, CLOSED => true
  | _, _ => false
  end.

(** What the relay asks of a socket.  A frame is the value the [message]
    event delivered: a string or a [Buffer]. *)
Inductive call :=
| Send (msg : Js.value)
| Close (code : Z) (reason : string)
| CloseNoArgs
| Ping.

(** A socket is its [readyState] and the calls made on it, oldest first. *)
Record socket := {
  state : readyState;
  calls : list call
}.

Definition connecting : socket := {| state := CONNECTING; calls := [] |}.
Definition accepted : socket := {| state := OPEN; calls := [] |}.

Definition is_open (s : socket) : bool := readyState_eqb (state s) OPEN.

Definition record (c : call) (s : socket) : socket :=
  {| state := state s; calls := calls s ++ [c] |}.

(** The library moves a connecting or open socket to CLOSING when a close
    is requested, and the [open] and [close] events find it OPEN and
    CLOSED. *)
Definition closing (s : socket) : socket :=
  {| state := match state s with
              | CONNECTING | OPEN => CLOSING
              | st => st
              end;
     calls := calls s |}.

Definition with_state (st : readyState) (s : socket) : socket :=
  {| state := st; calls := calls s |}.

Definition send (msg : Js.value) (s : socket) : socket := record (Send msg) s.

(** The frames handed to [send], oldest first. *)
Definition sent (s : socket) : list Js.value :=
  omap (fun c => match c with Send m => Some m | _ => None end) (calls s).

(** The close requests made of the socket, oldest first. *)
Definition closes (s : socket) : list call :=
  omap (fun c => match c with Close _ _ | CloseNoArgs => Some c | _ => None end)
       (calls s).

End Ws.

(** ** What the platform decides

    [JSON.parse] and the argument check of [ws.close] belong to Node and
    to the [ws] package.  The relay only looks at a few fields of a parsed
    frame, so the platform is given by those observations. *)

Class Platform := {
  (** [JSON.parse(text).type === 'disconnect'] holds (no exception). *)
  parsesAsDisconnect : string -> bool;
  (** the truthy [setup.sessionResumption.handle] of a parsed frame *)
  resumptionHandle : string -> option string;
  (** [sessionResumptionUpdate.newHandle] when the update is [resumable]
      and the handle truthy *)
  resumableNewHandle : string -> option string;
  (** [ws.close(code, reason)] throws *)
  closeThrows : Z -> string -> bool
}.

(** ** What a close call does to an open socket

    [ws.close(code, reason)] checks its arguments before anything else:
    when it refuses them it throws and the socket is as it was.
    Otherwise an open socket sends a close frame with that status and
    moves to CLOSING.  [ws.close()] sends a close frame without a
    status; the other side then reports the code 1005. *)

Module Closing.

Inductive status :=
| Status (code : Z) (reason : string)
| NoStatus.

Section WithPlatform.
Context `{Platform}.

(** The status of the close frame that [calls], made on an open socket,
    send: the first close call that is not refused decides. *)
Fixpoint closeFrame (calls : list Ws.call) : option status :=
  match calls with
  | [] => None
  | Ws.Close code reason :: rest =>
      if closeThrows code reason then closeFrame rest
      else Some (Status code reason)
  | Ws.CloseNoArgs :: _ => Some NoStatus
  | _ :: rest => closeFrame rest
  end.

(** The calls made on a socket between [before] and [after]. *)
Definition newCalls (before after : Ws.socket) : list Ws.call :=
  drop (length (Ws.calls before)) (Ws.calls after).

(** How the socket, open at [before], has been closed at [after]. *)
Definition closedWith (before after : Ws.socket) : option status :=
  closeFrame (newCalls before after).

End WithPlatform.
End Closing.

(** ** server.js, minimal variant *)

Module Relay.
Section WithPlatform.
Context `{Platform}.

Definition invalidCodes : list Z := [1005; 1006; 1015]%Z.

(** [validCode] of [safeClose]: the code when it is a number between 1000
    and 4999 that is not one of [invalidCodes], 1000 otherwise. *)
Definition validCode (code : Js.value) : Z :=
  match code with
  | Js.Num c =>
      if (1000 <=? c)%Z && (c <=? 4999)%Z && negb (existsb (Z.eqb c) invalidCodes)
      then c else 1000%Z
  | _ => 1000%Z
  end.

(** [validReason] of [safeClose]. *)
Definition validReason (reason : Js.value) : string :=
  match reason with
  | Js.Str s => s
  | Js.Buf b => b
  | r => if Js.truthy r then Js.toString r else EmptyString
  end.

(** [safeClose(ws, code, reason)]: [ws.close(validCode, validReason)], and
    [ws.close()] when that throws. *)
Definition safeClose (ws : Ws.socket) (code reason : Js.value) : Ws.socket :=
  let ws1 := Ws.record (Ws.Close (validCode code) (validReason reason)) ws in
  if closeThrows (validCode code) (validReason reason)
  then Ws.closing (Ws.record Ws.CloseNoArgs ws1)
  else Ws.closing ws1.

(** The state of one [wss.on('connection')] closure. *)
Record relay := {
  clientWs : Ws.socket;
  googleWs : Ws.socket;
  messageQueue : list Js.value;
  googleWsReady : bool;
  isIntentionalDisconnect : bool
}.

(** A client was accepted: its socket is open, the upstream one was just
    created. *)
Definition connection : relay := {|
  clientWs := Ws.accepted;
  googleWs := Ws.connecting;
  messageQueue := [];
  googleWsReady := false;
  isIntentionalDisconnect := false
|}.

Inductive event :=
| GoogleOpen
| GoogleMessage (data : Js.value)
| GoogleClose (code : Z) (reason : Js.value)
| GoogleError
| ClientMessage (msg : Js.value)
| ClientClose (code : Z) (reason : Js.value)
| ClientError.

(** The [while (messageQueue.length > 0)] loop of the [open] handler. *)
Fixpoint flush (queue : list Js.value) (ws : Ws.socket) : Ws.socket :=
  match queue with
  | [] => ws
  | msg :: rest => flush rest (Ws.send msg ws)
  end.

Definition onGoogleOpen (r : relay) : relay :=
  {| clientWs := clientWs r;
     googleWs := flush (messageQueue r) (googleWs r);
     messageQueue := [];
     googleWsReady := true;
     isIntentionalDisconnect := isIntentionalDisconnect r |}.

Definition onGoogleMessage (data : Js.value) (r : relay) : relay :=
  if Ws.is_open (clientWs r) && negb (isIntentionalDisconnect r)
  then {| clientWs := Ws.send data (clientWs r);
          googleWs := googleWs r;
          messageQueue := messageQueue r;
          googleWsReady := googleWsReady r;
          isIntentionalDisconnect := isIntentionalDisconnect r |}
  else r.

Definition onGoogleClose (code : Z) (reason : Js.value) (r : relay) : relay :=
  if Ws.is_open (clientWs r)
  then {| clientWs := safeClose (clientWs r) (Js.Num code) reason;
          googleWs := googleWs r;
          messageQueue := messageQueue r;
          googleWsReady := googleWsReady r;
          isIntentionalDisconnect := isIntentionalDisconnect r |}
  else r.

Definition onGoogleError (r : relay) : relay :=
  if Ws.is_open (clientWs r)
  then {| clientWs := safeClose (clientWs r) (Js.Num 1011) (Js.Str "Google WS error");
          googleWs := googleWs r;
          messageQueue := messageQueue r;
          googleWsReady := googleWsReady r;
          isIntentionalDisconnect := isIntentionalDisconnect r |}
  else r.

Definition onClientMessage (msg : Js.value) (r : relay) : relay :=
  if parsesAsDisconnect (Js.toString msg)
  then {| clientWs := clientWs r;
          googleWs := safeClose (googleWs r) (Js.Num 1000)
                                (Js.Str "Client requested disconnect");
          messageQueue := [];
          googleWsReady := googleWsReady r;
          isIntentionalDisconnect := true |}
  else if googleWsReady r && Ws.is_open (googleWs r)
          && negb (isIntentionalDisconnect r)
  then {| clientWs := clientWs r;
          googleWs := Ws.send msg (googleWs r);
          messageQueue := messageQueue r;
          googleWsReady := googleWsReady r;
          isIntentionalDisconnect := isIntentionalDisconnect r |}
  else if negb (isIntentionalDisconnect r)
  then {| clientWs := clientWs r;
          googleWs := googleWs r;
          messageQueue := messageQueue r ++ [msg];
          googleWsReady := googleWsReady r;
          isIntentionalDisconnect := isIntentionalDisconnect r |}
  else r.

Definition onClientClose (code : Z) (reason : Js.value) (r : relay) : relay :=
  let intentional := (code =? 1000)%Z || isIntentionalDisconnect r in
  {| clientWs := clientWs r;
     googleWs :=
       if Ws.is_open (googleWs r)
       then safeClose (googleWs r)
              (if intentional then Js.Num 1000 else Js.Num code)
              (if intentional then Js.Str "Client disconnected normally" else reason)
       else googleWs r;
     messageQueue := [];
     googleWsReady := googleWsReady r;
     isIntentionalDisconnect := intentional |}.

Definition onClientError (r : relay) : relay :=
  if Ws.is_open (googleWs r)
  then {| clientWs := clientWs r;
          googleWs := safeClose (googleWs r) (Js.Num 1011) (Js.Str "Client WS error");
          messageQueue := messageQueue r;
          googleWsReady := googleWsReady r;
          isIntentionalDisconnect := isIntentionalDisconnect r |}
  else r.

(** What the library has done to the sockets when an event is delivered. *)
Definition arrive (e : event) (r : relay) : relay :=
  match e with
  | GoogleOpen =>
      {| clientWs := clientWs r; googleWs := Ws.with_state Ws.OPEN (googleWs r);
         messageQueue := messageQueue r; googleWsReady := googleWsReady r;
         isIntentionalDisconnect := isIntentionalDisconnect r |}
  | GoogleClose _ _ =>
      {| clientWs := clientWs r; googleWs := Ws.with_state Ws.CLOSED (googleWs r);
         messageQueue := messageQueue r; googleWsReady := googleWsReady r;
         isIntentionalDisconnect := isIntentionalDisconnect r |}
  | ClientClose _ _ =>
      {| clientWs := Ws.with_state Ws.CLOSED (clientWs r); googleWs := googleWs r;
         messageQueue := messageQueue r; googleWsReady := googleWsReady r;
         isIntentionalDisconnect := isIntentionalDisconnect r |}
  | _ => r
  end.

(** One event: the library updates the socket, then the handler runs. *)
Definition step (r : relay) (e : event) : relay :=
  let r := arrive e r in
  match e with
  | GoogleOpen => onGoogleOpen r
  | GoogleMessage data => onGoogleMessage data r
  | GoogleClose code reason => onGoogleClose code reason r
  | GoogleError => onGoogleError r
  | ClientMessage msg => onClientMessage msg r
  | ClientClose code reason => onClientClose code reason r
  | ClientError => onClientError r
  end.

Definition run (r : relay) (es : list event) : relay := fold_left step es r.

(** The disconnect flag is set and nothing is queued. *)
Definition silenced (r : relay) : Prop :=
  isIntentionalDisconnect r = true /\ messageQueue r = [].

End WithPlatform.
End Relay.

(** ** server.js, verbose variant *)

Module Proxy.
Section WithPlatform.
Context `{Platform}.

(** [WS_CLOSE_CODES] *)
Definition NORMAL_CLOSURE : Z := 1000.
Definition GOING_AWAY : Z := 1001.
Definition PROTOCOL_ERROR : Z := 1002.
Definition UNSUPPORTED_DATA : Z := 1003.
Definition POLICY_VIOLATION : Z := 1008.
Definition MESSAGE_TOO_BIG : Z := 1009.
Definition INTERNAL_ERROR : Z := 1011.
Definition SERVICE_RESTART : Z := 1012.
Definition TRY_AGAIN_LATER : Z := 1013.

(** [CLIENT_STATES] *)
Inductive clientStates := ST_CONNECTING | ST_CONNECTED | ST_DISCONNECTING | ST_DISCONNECTED.

(** One connection closure together with the module-level [sessions] map,
    which holds the [timestamp] (milliseconds) of each handle. *)
Record proxy := {
  sessions : gmap string Z;
  clientWs : Ws.socket;
  googleWs : Ws.socket;
  clientState : clientStates;
  sessionHandle : option string;
  pingInterval : bool
}.

Definition connection (store : gmap string Z) : proxy := {|
  sessions := store;
  clientWs := Ws.accepted;
  googleWs := Ws.connecting;
  clientState := ST_CONNECTING;
  sessionHandle := None;
  pingInterval := true
|}.

(** [parseMessage]: only a string is parsed, so only a string frame can
    carry a resumption handle. *)
Definition checkForSessionResumption (message : Js.value) (p : proxy) : proxy :=
  match message with
  | Js.Str text =>
      match resumptionHandle text with
      | Some h =>
          {| sessions := sessions p; clientWs := clientWs p; googleWs := googleWs p;
             clientState := clientState p; sessionHandle := Some h;
             pingInterval := pingInterval p |}
      | None => p
      end
  | _ => p
  end.

(** [checkSessionUpdate(message.toString())] at time [now]. *)
Definition checkSessionUpdate (now : Z) (text : string) (p : proxy) : proxy :=
  match resumableNewHandle text with
  | Some h =>
      {| sessions := <[h := now]> (sessions p);
         clientWs := clientWs p; googleWs := googleWs p;
         clientState := clientState p; sessionHandle := Some h;
         pingInterval := pingInterval p |}
  | None => p
  end.

(** [clientWs.on('message')]: forwarded when the upstream socket is open;
    otherwise the frame is not kept and the client is closed with
    SERVICE_RESTART. *)
Definition onClientMessage (message : Js.value) (p : proxy) : proxy :=
  if Ws.is_open (googleWs p)
  then let p := checkForSessionResumption message p in
       {| sessions := sessions p; clientWs := clientWs p;
          googleWs := Ws.send message (googleWs p);
          clientState := clientState p; sessionHandle := sessionHandle p;
          pingInterval := pingInterval p |}
  else {| sessions := sessions p;
          clientWs := Ws.closing
            (Ws.record (Ws.Close SERVICE_RESTART
                          "Backend connection unavailable, please reconnect")
                       (clientWs p));
          googleWs := googleWs p;
          clientState := clientState p; sessionHandle := sessionHandle p;
          pingInterval := pingInterval p |}.

(** The close request of the second branch. *)
Definition unavailable : Ws.call :=
  Ws.Close SERVICE_RESTART "Backend connection unavailable, please reconnect".

Definition onGoogleOpen (p : proxy) : proxy :=
  {| sessions := sessions p; clientWs := clientWs p; googleWs := googleWs p;
     clientState := ST_CONNECTED; sessionHandle := sessionHandle p;
     pingInterval := pingInterval p |}.

Definition onGoogleMessage (now : Z) (message : Js.value) (p : proxy) : proxy :=
  if Ws.is_open (clientWs p)
  then let p := checkSessionUpdate now (Js.toString message) p in
       {| sessions := sessions p;
          clientWs := Ws.send message (clientWs p);
          googleWs := googleWs p;
          clientState := clientState p; sessionHandle := sessionHandle p;
          pingInterval := pingInterval p |}
  else p.

(** The code and reason [googleWs.on('close')] passes to
    [clientWs.close]. *)
Definition reasonStr (reason : Js.value) : string :=
  if Js.truthy reason then Js.toString reason else "No reason".

Definition clientCode (code : Z) : Z :=
  if (code =? GOING_AWAY)%Z then SERVICE_RESTART else code.

Definition clientReason (code : Z) (reason : Js.value) : string :=
  if (code =? GOING_AWAY)%Z
  then "Backend service restarting, please reconnect"
  else reasonStr reason.

(** [googleWs.on('close')] at time [now].  The record is stored for a
    truthy handle.  [clientWs.close] is called with the code as it is:
    when [ws] refuses the call it throws, the client socket stays as it
    was, and the handler ends there with the ping timer left running. *)
Definition onGoogleClose (now : Z) (code : Z) (reason : Js.value) (p : proxy) : proxy :=
  let store := match sessionHandle p with
               | Some h =>
                   if String.eqb h EmptyString then sessions p
                   else <[h := now]> (sessions p)
               | None => sessions p
               end in
  if Ws.is_open (clientWs p)
  then if closeThrows (clientCode code) (clientReason code reason)
       then {| sessions := store;
               clientWs :=
                 Ws.record (Ws.Close (clientCode code) (clientReason code reason))
                           (clientWs p);
               googleWs := googleWs p;
               clientState := clientState p; sessionHandle := sessionHandle p;
               pingInterval := pingInterval p |}
       else {| sessions := store;
               clientWs := Ws.closing
                 (Ws.record (Ws.Close (clientCode code) (clientReason code reason))
                            (clientWs p));
               googleWs := googleWs p;
               clientState := clientState p; sessionHandle := sessionHandle p;
               pingInterval := false |}
  else {| sessions := store; clientWs := clientWs p; googleWs := googleWs p;
          clientState := clientState p; sessionHandle := sessionHandle p;
          pingInterval := false |}.

Inductive event :=
| ClientMessage (message : Js.value)
| GoogleOpen
| GoogleMessage (now : Z) (message : Js.value)
| GoogleClose (now : Z) (code : Z) (reason : Js.value).

Definition arrive (e : event) (p : proxy) : proxy :=
  match e with
  | GoogleOpen =>
      {| sessions := sessions p; clientWs := clientWs p;
         googleWs := Ws.with_state Ws.OPEN (googleWs p);
         clientState := clientState p; sessionHandle := sessionHandle p;
         pingInterval := pingInterval p |}
  | GoogleClose _ _ _ =>
      {| sessions := sessions p; clientWs := clientWs p;
         googleWs := Ws.with_state Ws.CLOSED (googleWs p);
         clientState := clientState p; sessionHandle := sessionHandle p;
         pingInterval := pingInterval p |}
  | _ => p
  end.

Definition step (p : proxy) (e : event) : proxy :=
  let p := arrive e p in
  match e with
  | ClientMessage message => onClientMessage message p
  | GoogleOpen => onGoogleOpen p
  | GoogleMessage now message => onGoogleMessage now message p
  | GoogleClose now code reason => onGoogleClose now code reason p
  end.

Definition run (p : proxy) (es : list event) : proxy := fold_left step es p.

End WithPlatform.

(** *** The session store and its sweep *)

Definition expiredTime : Z := 24 * 60 * 60 * 1000.
Definition sweepPeriod : Z := 60 * 60 * 1000.

(** One run of the cleanup callback at time [now]: every handle with
    [now - timestamp > expiredTime] is deleted. *)
Definition sweep (now : Z) (store : gmap string Z) : gmap string Z :=
  filter (fun kv => ~ (now - kv.2 > expiredTime)%Z) store.

(** [sessions.has(handle)] *)
Definition has (handle : string) (store : gmap string Z) : bool :=
  bool_decide (is_Some (store !! handle)).

(** The times at which a [setInterval] of [sweepPeriod] installed at
    [start] has fired, later than [from] and no later than [to]. *)
Definition firings (start from to : Z) : list Z :=
  filter (fun t => (from < t)%Z)
    ((fun k => (start + k * sweepPeriod)%Z) <$> seqZ 1 ((to - start) / sweepPeriod)).

Definition sweeps (times : list Z) (store : gmap string Z) : gmap string Z :=
  fold_left (fun s now => sweep now s) times store.

(** The store at time [t] when a handle was set at [T], the sweep timer
    was installed at [start], and nothing else touched the store. *)
Definition storeAt (start T : Z) (handle : string) (store : gmap string Z) (t : Z)
  : gmap string Z :=
  sweeps (firings start T t) (<[handle := T]> store).

End Proxy.

(** ** use-live-api: the reconnection policy of the hook *)

Module Hook.

Definition RECONNECT_INITIAL_DELAY : Z := 1000.
Definition RECONNECT_MAX_DELAY : Z := 30000.
Definition RECONNECT_MAX_ATTEMPTS : nat := 5.

(** A pending [window.setTimeout]: which callback, and after how many
    milliseconds. *)
Inductive timer :=
| ReconnectIn (delay : Q)
| ResumeIn (delay : Q).

(** The React state and refs the close path reads and writes. *)
Record hook := {
  connected : bool;
  connectionState : string;
  error : option string;
  reconnectAttempts : nat;
  reconnectTimeout : option timer;
  isReconnecting : bool;
  sessionHandle : option string
}.

Definition initial : hook := {|
  connected := false;
  connectionState := "disconnected";
  error := None;
  reconnectAttempts := 0;
  reconnectTimeout := None;
  isReconnecting := false;
  sessionHandle := None
|}.

(** [getReconnectDelay] when [Math.random()] returns [random]. *)
Definition getReconnectDelay (attempt : nat) (random : Q) : Q :=
  (Qmin (inject_Z (RECONNECT_INITIAL_DELAY * 2 ^ Z.of_nat attempt))
        (inject_Z RECONNECT_MAX_DELAY)
   + random * 1000)%Q.

Definition onOpen (h : hook) : hook :=
  {| connected := connected h;
     connectionState := "connected";
     error := None;
     reconnectAttempts := 0;
     reconnectTimeout := reconnectTimeout h;
     isReconnecting := false;
     sessionHandle := sessionHandle h |}.

(** [onClose(ev)] for a close event with [code] and [reason]; [random] is
    what [Math.random()] returns if it is asked. *)
Definition onClose (code : Z) (reason : string) (random : Q) (h : hook) : hook :=
  if (code =? 1000)%Z then
    {| connected := false;
       connectionState := "disconnected";
       error := error h;
       reconnectAttempts := reconnectAttempts h;
       reconnectTimeout := reconnectTimeout h;
       isReconnecting := isReconnecting h;
       sessionHandle := sessionHandle h |}
  else if (code =? 1012)%Z || (code =? 1013)%Z then
    if reconnectAttempts h <? RECONNECT_MAX_ATTEMPTS then
      {| connected := false;
         connectionState := "reconnecting";
         error := error h;
         reconnectAttempts := reconnectAttempts h;
         reconnectTimeout :=
           Some (ReconnectIn (getReconnectDelay (reconnectAttempts h) random));
         isReconnecting := isReconnecting h;
         sessionHandle := sessionHandle h |}
    else
      {| connected := false;
         connectionState := "error";
         error := Some ("Maximum reconnection attempts ("
                        +:+ pretty RECONNECT_MAX_ATTEMPTS +:+ ") reached");
         reconnectAttempts := reconnectAttempts h;
         reconnectTimeout := reconnectTimeout h;
         isReconnecting := isReconnecting h;
         sessionHandle := sessionHandle h |}
  else
    {| connected := false;
       connectionState := "error";
       error := Some ("Connection closed: "
                      +:+ (if String.eqb reason EmptyString
                           then "Code " +:+ pretty code else reason));
       reconnectAttempts := reconnectAttempts h;
       reconnectTimeout := reconnectTimeout h;
       isReconnecting := isReconnecting h;
       sessionHandle := sessionHandle h |}.

(** The reconnect timer fires: the attempt is counted and [connect]
    starts. *)
Definition onReconnectTimer (h : hook) : hook :=
  {| connected := connected h;
     connectionState := "connecting";
     error := None;
     reconnectAttempts := reconnectAttempts h + 1;
     reconnectTimeout := reconnectTimeout h;
     isReconnecting := true;
     sessionHandle := sessionHandle h |}.

(** The hook is waiting to reconnect: the state says so and the reconnect
    timer is pending. *)
Definition reconnectScheduled (h : hook) : bool :=
  String.eqb (connectionState h) "reconnecting"
  && match reconnectTimeout h with Some (ReconnectIn _) => true | _ => false end.

End Hook.

(** ** live-api-client.js: the recorder *)

Module Capture.

Definition AUDIO_BUFFER_SIZE : nat := 2048.

(** Storing a number in an [Int16Array]: the fraction is dropped (toward
    zero) and the integer wraps to 16 bits. *)
Definition truncate (x : Q) : Z := Z.quot (Qnum x) (Zpos (Qden x)).

Definition toInt16 (x : Q) : Z :=
  let m := (truncate x mod 65536)%Z in
  if (32768 <=? m)%Z then (m - 65536)%Z else m.

(** [Math.max(-32768, Math.min(32767, sample * 32768))] *)
Definition int16Value (sample : Q) : Q :=
  Qmax (-32768) (Qmin 32767 (sample * 32768))%Q.

(** The integer that ends up in the buffer for [sample]. *)
Definition stored (sample : Q) : Z := toInt16 (int16Value sample).

(** [buffer], [bufferWriteIndex], and the chunks posted so far. *)
Record recorder := {
  buffer : list Z;
  bufferWriteIndex : nat;
  chunks : list (list Z)
}.

Definition create : recorder := {|
  buffer := replicate AUDIO_BUFFER_SIZE 0%Z;
  bufferWriteIndex := 0;
  chunks := []
|}.

(** The body of the loop of [processChunk] (and of [onaudioprocess]). *)
Definition processSample (r : recorder) (sample : Q) : recorder :=
  let buf := <[bufferWriteIndex r := stored sample]> (buffer r) in
  let i := S (bufferWriteIndex r) in
  if length buf <=? i
  then {| buffer := buf; bufferWriteIndex := 0; chunks := chunks r ++ [take i buf] |}
  else {| buffer := buf; bufferWriteIndex := i; chunks := chunks r |}.

Definition processChunk (float32Array : list Q) (r : recorder) : recorder :=
  fold_left processSample float32Array r.

(** The ScriptProcessor path runs the same loop on the recorder's own
    buffer and emits each full buffer as a [data] event. *)
Definition onaudioprocess (inputData : list Q) (r : recorder) : recorder :=
  fold_left processSample inputData r.

(** The samples written since the last chunk. *)
Definition retained (r : recorder) : list Z := take (bufferWriteIndex r) (buffer r).

(** [n] is an integer nearest to [x]. *)
Definition nearest (x : Q) (n : Z) : Prop :=
  (Qabs (x - inject_Z n) <= 1 # 2)%Q.

End Capture.

(** ** live-api-client.js: the playback scheduler *)

Module Streamer.

Definition AUDIO_OUTPUT_SAMPLE_RATE : Z := 24000.
Definition SCHEDULE_AHEAD_TIME : Q := 2 # 10.

(** A buffer source handed to [source.start]: which one, at what reading
    of [currentTime] the call was made, the start time asked for, and the
    samples and rate of its buffer. *)
Record source := {
  id : nat;
  calledAt : Q;
  startTime : Q;
  samples : list Q;
  rate : Z
}.

(** [audioBuffer.duration] *)
Definition duration (length : nat) (sampleRate : Z) : Q :=
  (inject_Z (Z.of_nat length) / inject_Z sampleRate)%Q.

Definition endTime (s : source) : Q :=
  (startTime s + duration (length (samples s)) (rate s))%Q.

(** The automation asked of [gainNode.gain]. *)
Inductive gainCall :=
| SetCurrentValueAtTime (time : Q)
| LinearRampToValueAtTime (value : Q) (time : Q).

Record streamer := {
  sampleRate : Z;
  (** [audioContext] is set and its state is ['running'] *)
  running : bool;
  gainNode : bool;
  audioQueue : list (list Q);
  isPlaying : bool;
  scheduledTime : Q;
  bufferSize : nat;
  processingBuffer : list Q;
  checkInterval : bool;
  initialBufferTime : Q;
  endOfQueueAudioSource : option nat;
  vuScriptProcessor : bool;
  (** the source whose [onended] handler is set *)
  onended : option nat;
  (** the calls of [source.start], oldest first *)
  started : list source;
  (** the automation calls, oldest first *)
  gain : list gainCall;
  (** the delays (ms) of the [setTimeout] calls, oldest first *)
  timeouts : list Q;
  (** how many times ["ended"] was emitted *)
  endedEvents : nat;
  nextSource : nat
}.

(** The constructor followed by a successful [init]. *)
Definition create (rate : Z) : streamer := {|
  sampleRate := rate;
  running := true;
  gainNode := true;
  audioQueue := [];
  isPlaying := false;
  scheduledTime := 0;
  bufferSize := Z.to_nat 7680;
  processingBuffer := [];
  checkInterval := false;
  initialBufferTime := 1 # 10;
  endOfQueueAudioSource := None;
  vuScriptProcessor := true;
  onended := None;
  started := [];
  gain := [];
  timeouts := [];
  endedEvents := 0;
  nextSource := 0
|}.

(** [dataView.getInt16(i * 2, true)] *)
Definition getInt16 (lo hi : Byte.byte) : Z :=
  let u := (Z.of_N (Byte.to_N lo) + 256 * Z.of_N (Byte.to_N hi))%Z in
  if (u <? 32768)%Z then u else (u - 65536)%Z.

(** The [Float32Array] filled from the decoded bytes: [int16 / 32768]; a
    trailing odd byte is not read. *)
Fixpoint toFloat32 (chunk : list Byte.byte) : list Q :=
  match chunk with
  | lo :: hi :: rest => (getInt16 lo hi # 32768) :: toFloat32 rest
  | _ => []
  end.

(** The [while (processingBuffer.length >= bufferSize)] loop; it is run
    with as many rounds as the buffer has samples. *)
Fixpoint slice (rounds size : nat) (queue : list (list Q)) (buf : list Q)
  : list (list Q) * list Q :=
  match rounds with
  | O => (queue, buf)
  | S rounds =>
      if size <=? length buf
      then slice rounds size (queue ++ [take size buf]) (drop size buf)
      else (queue, buf)
  end.

(** One round of the loop of [scheduleNextBuffer]: [audioData] was
    shifted off the queue, which leaves [rest]. *)
Definition scheduleOne (now : Q) (audioData : list Q) (rest : list (list Q))
    (s : streamer) : streamer :=
  let last := (match rest with [] => true | _ => false end)
              && (length (processingBuffer s) <? bufferSize s) in
  let cleared := match endOfQueueAudioSource s with
                 | Some e => if bool_decide (onended s = Some e) then None else onended s
                 | None => onended s
                 end in
  let start := Qmax (scheduledTime s) now in
  {| sampleRate := sampleRate s; running := running s; gainNode := gainNode s;
     audioQueue := rest;
     isPlaying := isPlaying s;
     scheduledTime := (start + duration (length audioData) (sampleRate s))%Q;
     bufferSize := bufferSize s;
     processingBuffer := processingBuffer s;
     checkInterval := checkInterval s;
     initialBufferTime := initialBufferTime s;
     endOfQueueAudioSource :=
       if last then Some (nextSource s) else endOfQueueAudioSource s;
     vuScriptProcessor := vuScriptProcessor s;
     onended := if last then Some (nextSource s) else cleared;
     started := started s ++ [{| id := nextSource s; calledAt := now;
                                 startTime := start; samples := audioData;
                                 rate := sampleRate s |}];
     gain := gain s; timeouts := timeouts s; endedEvents := endedEvents s;
     nextSource := S (nextSource s) |}.

(** The loop itself, by recursion on the queue it consumes. *)
Fixpoint scheduleLoop (now : Q) (queue : list (list Q)) (s : streamer) : streamer :=
  match queue with
  | [] => s
  | audioData :: rest =>
      if Qlt_le_dec (scheduledTime s) (now + SCHEDULE_AHEAD_TIME)
      then scheduleLoop now rest (scheduleOne now audioData rest s)
      else s
  end.

(** What follows the loop: the 50 ms check interval, or a timeout for the
    next round. *)
Definition rearm (now : Q) (s : streamer) : streamer :=
  let empty := match audioQueue s with [] => true | _ => false end in
  if isPlaying s && empty && negb (checkInterval s) then
    {| sampleRate := sampleRate s; running := running s; gainNode := gainNode s;
       audioQueue := audioQueue s; isPlaying := isPlaying s;
       scheduledTime := scheduledTime s; bufferSize := bufferSize s;
       processingBuffer := processingBuffer s;
       checkInterval := true;
       initialBufferTime := initialBufferTime s;
       endOfQueueAudioSource := endOfQueueAudioSource s;
       vuScriptProcessor := vuScriptProcessor s; onended := onended s;
       started := started s; gain := gain s; timeouts := timeouts s;
       endedEvents := endedEvents s; nextSource := nextSource s |}
  else if isPlaying s && negb empty then
    {| sampleRate := sampleRate s; running := running s; gainNode := gainNode s;
       audioQueue := audioQueue s; isPlaying := isPlaying s;
       scheduledTime := scheduledTime s; bufferSize := bufferSize s;
       processingBuffer := processingBuffer s;
       checkInterval := false;
       initialBufferTime := initialBufferTime s;
       endOfQueueAudioSource := endOfQueueAudioSource s;
       vuScriptProcessor := vuScriptProcessor s; onended := onended s;
       started := started s; gain := gain s;
       timeouts := timeouts s ++
         [Qmax 50 ((scheduledTime s - now - SCHEDULE_AHEAD_TIME * (5 # 10)) * 1000)%Q];
       endedEvents := endedEvents s; nextSource := nextSource s |}
  else s.

Definition scheduleNextBuffer (now : Q) (s : streamer) : streamer :=
  if negb (running s) || negb (isPlaying s) then s
  else rearm now (scheduleLoop now (audioQueue s) s).

(** [addPCM16Data] on the bytes [atob] gives for the base64 argument. *)
Definition addPCM16Data (now : Q) (chunk : list Byte.byte) (s : streamer) : streamer :=
  if negb (running s) then s else
  let newBuffer := processingBuffer s ++ toFloat32 chunk in
  let '(queue, buf) := slice (length newBuffer) (bufferSize s) (audioQueue s) newBuffer in
  let start := negb (isPlaying s) && match queue with [] => false | _ => true end in
  let s1 :=
    {| sampleRate := sampleRate s; running := running s; gainNode := gainNode s;
       audioQueue := queue;
       isPlaying := if start then true else isPlaying s;
       scheduledTime :=
         if start then (now + initialBufferTime s)%Q else scheduledTime s;
       bufferSize := bufferSize s;
       processingBuffer := buf;
       checkInterval := checkInterval s;
       initialBufferTime := initialBufferTime s;
       endOfQueueAudioSource := endOfQueueAudioSource s;
       vuScriptProcessor := vuScriptProcessor s; onended := onended s;
       started := started s; gain := gain s; timeouts := timeouts s;
       endedEvents := endedEvents s; nextSource := nextSource s |} in
  if start || isPlaying s then scheduleNextBuffer now s1 else s1.

(** [stop] at [currentTime = now]. *)
Definition stop (now : Q) (s : streamer) : streamer :=
  {| sampleRate := sampleRate s; running := running s; gainNode := gainNode s;
     audioQueue := [];
     isPlaying := false;
     scheduledTime := scheduledTime s;
     bufferSize := bufferSize s;
     processingBuffer := [];
     checkInterval := false;
     initialBufferTime := initialBufferTime s;
     endOfQueueAudioSource := endOfQueueAudioSource s;
     vuScriptProcessor := false;
     onended := onended s;
     started := started s;
     gain := if gainNode s && running s
             then gain s ++ [SetCurrentValueAtTime now;
                             LinearRampToValueAtTime 0 (now + (1 # 10))%Q]
             else gain s;
     timeouts := timeouts s; endedEvents := endedEvents s;
     nextSource := nextSource s |}.

(** The [onended] handler of source [i] runs. *)
Definition sourceEnded (i : nat) (s : streamer) : streamer :=
  if bool_decide (onended s = Some i)
     && (match audioQueue s with [] => true | _ => false end)
     && (length (processingBuffer s) <? bufferSize s)
     && bool_decide (endOfQueueAudioSource s = Some i)
  then
    {| sampleRate := sampleRate s; running := running s; gainNode := gainNode s;
       audioQueue := audioQueue s;
       isPlaying := false;
       scheduledTime := scheduledTime s; bufferSize := bufferSize s;
       processingBuffer := processingBuffer s;
       checkInterval := false;
       initialBufferTime := initialBufferTime s;
       endOfQueueAudioSource := None;
       vuScriptProcessor := vuScriptProcessor s; onended := onended s;
       started := started s; gain := gain s; timeouts := timeouts s;
       endedEvents := S (endedEvents s); nextSource := nextSource s |}
  else s.

(** The callback of the 50 ms check interval. *)
Definition intervalTick (now : Q) (s : streamer) : streamer :=
  if negb (checkInterval s) then s
  else if (match audioQueue s with [] => false | _ => true end)
          || (bufferSize s <=? length (processingBuffer s))
  then scheduleNextBuffer now s
  else if negb (isPlaying s)
  then {| sampleRate := sampleRate s; running := running s; gainNode := gainNode s;
          audioQueue := audioQueue s; isPlaying := isPlaying s;
          scheduledTime := scheduledTime s; bufferSize := bufferSize s;
          processingBuffer := processingBuffer s;
          checkInterval := false;
          initialBufferTime := initialBufferTime s;
          endOfQueueAudioSource := endOfQueueAudioSource s;
          vuScriptProcessor := vuScriptProcessor s; onended := onended s;
          started := started s; gain := gain s; timeouts := timeouts s;
          endedEvents := endedEvents s; nextSource := nextSource s |}
  else s.

Inductive event :=
| AddPCM16Data (now : Q) (chunk : list Byte.byte)
| TimeoutFired (now : Q)
| IntervalTick (now : Q)
| SourceEnded (i : nat)
| Stop (now : Q).

Definition step (s : streamer) (e : event) : streamer :=
  match e with
  | AddPCM16Data now chunk => addPCM16Data now chunk s
  | TimeoutFired now => scheduleNextBuffer now s
  | IntervalTick now => intervalTick now s
  | SourceEnded i => sourceEnded i s
  | Stop now => stop now s
  end.

Definition run (s : streamer) (es : list event) : streamer := fold_left step es s.

(** The sources started by [after] that [before] had not started. *)
Definition newly (before after : streamer) : list source :=
  drop (length (started before)) (started after).

(** What of a state decides how audio that arrives next is scheduled. *)
Definition schedulingState (s : streamer)
  : bool * list (list Q) * list Q * bool :=
  (isPlaying s, audioQueue s, processingBuffer s, checkInterval s).

(** Everything the scheduling code reads. *)
Definition schedulerView (s : streamer)
  : Z * bool * nat * Q * list (list Q) * list Q * bool * bool * Q :=
  (sampleRate s, running s, bufferSize s, initialBufferTime s,
   audioQueue s, processingBuffer s, isPlaying s, checkInterval s,
   scheduledTime s).

(** The start time and samples of each started source. *)
Definition playback (l : list source) : list (Q * list Q) :=
  map (fun x => (startTime x, samples x)) l.

(** [chain c l c']: from cursor [c], the sources [l] were started one
    after the other, each at the later of the cursor and the clock reading
    of its call, the cursor moving to the end of each; [c'] is the cursor
    after the last. *)
Inductive chain : Q -> list source -> Q -> Prop :=
| chain_nil c : chain c [] c
| chain_cons c x l c' :
    startTime x = Qmax c (calledAt x) ->
    chain (endTime x) l c' ->
    chain c (x :: l) c'.

(** What a stretch of scheduling leaves behind: the sources [news] were
    appended to the log, each with the rate of the streamer, chained from
    the old cursor to the new one, and the rate is unchanged. *)
Definition extends (s s' : streamer) (news : list source) : Prop :=
  started s' = started s ++ news
  /\ chain (scheduledTime s) news (scheduledTime s')
  /\ Forall (fun x => rate x = sampleRate s) news
  /\ sampleRate s' = sampleRate s.

(** Playback is active before each of the events [es] run from [s]. *)
Fixpoint active (s : streamer) (es : list event) : Prop :=
  match es with
  | [] => True
  | e :: es => isPlaying s = true /\ active (step s e) es
  end.

(** A streamer as the constructor and [init] leave it, with the
    configuration of [s]. *)
Definition fresh (s : streamer) : streamer := {|
  sampleRate := sampleRate s;
  running := running s;
  gainNode := gainNode s;
  audioQueue := [];
  isPlaying := false;
  scheduledTime := 0;
  bufferSize := bufferSize s;
  processingBuffer := [];
  checkInterval := false;
  initialBufferTime := initialBufferTime s;
  endOfQueueAudioSource := None;
  vuScriptProcessor := true;
  onended := None;
  started := [];
  gain := [];
  timeouts := [];
  endedEvents := 0;
  nextSource := 0
|}.

(** The last thing asked of the gain is a ramp to 0: from the end of
    that ramp on the gain is 0. *)
Definition rampedToZero (s : streamer) : Prop :=
  exists time, last (gain s) = Some (LinearRampToValueAtTime 0 time).

End Streamer.

(** ** Concrete inputs for the examples *)

Module Samples.

(** The text of the disconnect notice the client sends. *)
Definition quote : string := String (Ascii.ascii_of_nat 34) EmptyString.
Definition notice : string :=
  "{" +:+ quote +:+ "type" +:+ quote +:+ ":" +:+ quote +:+ "disconnect" +:+ quote +:+ "}".

(** A platform on which the notice above is the only disconnect frame, no
    frame carries a handle, and [ws.close] rejects the codes the protocol
    reserves. *)
Definition platform : Platform := {|
  parsesAsDisconnect := fun text => String.eqb text notice;
  resumptionHandle := fun _ => None;
  resumableNewHandle := fun _ => None;
  closeThrows := fun code _ =>
    negb (((1000 <=? code)%Z && (code <=? 1014)%Z
           && negb (code =? 1004)%Z && negb (code =? 1005)%Z && negb (code =? 1006)%Z)
          || ((3000 <=? code)%Z && (code <=? 4999)%Z))
|}.

(** A running streamer with blocks of two samples, mid-playback. *)
Definition playing : Streamer.streamer := {|
  Streamer.sampleRate := 24000;
  Streamer.running := true;
  Streamer.gainNode := true;
  Streamer.audioQueue := [[1 # 2; 1 # 4]; [0; 0]]%Q;
  Streamer.isPlaying := true;
  Streamer.scheduledTime := 1;
  Streamer.bufferSize := 2;
  Streamer.processingBuffer := [1 # 8]%Q;
  Streamer.checkInterval := false;
  Streamer.initialBufferTime := 1 # 10;
  Streamer.endOfQueueAudioSource := None;
  Streamer.vuScriptProcessor := true;
  Streamer.onended := None;
  Streamer.started := [];
  Streamer.gain := [];
  Streamer.timeouts := [];
  Streamer.endedEvents := 0;
  Streamer.nextSource := 0
|}.

End Samples.

(** ** use-live-api: the other handlers of the hook *)

Module HookEvents.

Import Hook.

(** [onGoAway(timeLeft)]: the state becomes ["reconnecting"]; a timer is
    set only when a session handle is known (a truthy one: not the empty
    string). *)
Definition onGoAway (timeLeft : Z) (h : hook) : hook :=
  {| connected := connected h;
     connectionState := "reconnecting";
     error := error h;
     reconnectAttempts := reconnectAttempts h;
     reconnectTimeout :=
       match sessionHandle h with
       | Some handle =>
           if String.eqb handle EmptyString then reconnectTimeout h
           else Some (ResumeIn (inject_Z (Z.max 0 (timeLeft - 1000))))
       | None => reconnectTimeout h
       end;
     isReconnecting := isReconnecting h;
     sessionHandle := sessionHandle h |}.

Definition onSessionUpdate (handle : string) (h : hook) : hook :=
  {| connected := connected h;
     connectionState := connectionState h;
     error := error h;
     reconnectAttempts := reconnectAttempts h;
     reconnectTimeout := reconnectTimeout h;
     isReconnecting := isReconnecting h;
     sessionHandle := Some handle |}.

Definition onError (h : hook) : hook :=
  {| connected := connected h;
     connectionState := "error";
     error := Some "WebSocket connection error";
     reconnectAttempts := reconnectAttempts h;
     reconnectTimeout := reconnectTimeout h;
     isReconnecting := isReconnecting h;
     sessionHandle := sessionHandle h |}.

(** [disconnect]: the pending timer is cleared before the client is asked
    to disconnect. *)
Definition disconnect (h : hook) : hook :=
  {| connected := false;
     connectionState := "disconnected";
     error := None;
     reconnectAttempts := reconnectAttempts h;
     reconnectTimeout := None;
     isReconnecting := isReconnecting h;
     sessionHandle := sessionHandle h |}.

(** What the hook can see happen. *)
Inductive event :=
| Open
| Close (code : Z) (reason : string) (random : Q)
| ReconnectTimer
| GoAway (timeLeft : Z)
| SessionUpdate (handle : string)
| Error
| Disconnect.

Definition step (h : hook) (e : event) : hook :=
  match e with
  | Open => onOpen h
  | Close code reason random => onClose code reason random h
  | ReconnectTimer => onReconnectTimer h
  | GoAway timeLeft => onGoAway timeLeft h
  | SessionUpdate handle => onSessionUpdate handle h
  | Error => onError h
  | Disconnect => disconnect h
  end.

Definition run (h : hook) (es : list event) : hook := fold_left step es h.

Definition isOpen (e : event) : bool :=
  match e with Open => true | _ => false end.

Definition isReconnectTimer (e : event) : bool :=
  match e with ReconnectTimer => true | _ => false end.

(** How many times the reconnect timer fired among [es]. *)
Definition timerEvents (es : list event) : nat :=
  length (List.filter isReconnectTimer es).

End HookEvents.

(** ** live-api-client.js: stopping the recorder *)

Module Recorder.

Import Capture.

(** [AudioRecorder.stop] on the recording state: the cursor goes back to
    0, the buffer is left as it is. *)
Definition stop (r : recorder) : recorder :=
  {| buffer := buffer r; bufferWriteIndex := 0; chunks := chunks r |}.

(** The chunks [after] has posted that [before] had not. *)
Definition posted (before after : recorder) : list (list Z) :=
  drop (length (chunks before)) (chunks after).

(** A recorder whose cursor is inside its buffer. *)
Definition wf (r : recorder) : Prop :=
  bufferWriteIndex r < length (buffer r).

End Recorder.

(** ** live-api-client.js: the event emitter *)

Module Emitter.

(** The names every object inherits from [Object.prototype].  [_events]
    is a plain object, so [this._events[name]] finds a function (for
    [__proto__], the prototype itself) under each of them although
    nothing was registered there. *)
Definition inherited : list string :=
  ["constructor"; "hasOwnProperty"; "isPrototypeOf"; "propertyIsEnumerable";
   "toLocaleString"; "toString"; "valueOf"; "__proto__";
   "__defineGetter__"; "__defineSetter__"; "__lookupGetter__"; "__lookupSetter__"].

(** What [this._events[name]] evaluates to: nothing, the array of the
    listeners registered under the name, or an inherited member, which
    is truthy and no array. *)
Inductive slot :=
| Absent
| Listeners (listeners : list nat)
| Foreign.

(** A listener is known by its identity; the map holds the own
    properties of [_events]: the listeners registered under a name,
    oldest first. *)
Definition create : gmap string (list nat) := ∅.

Definition get (name : string) (events : gmap string (list nat)) : slot :=
  match events !! name with
  | Some listeners => Listeners listeners
  | None => if bool_decide (name ∈ inherited) then Foreign else Absent
  end.

(** The listeners registered under [name]. *)
Definition registered (name : string) (events : gmap string (list nat)) : list nat :=
  default [] (events !! name).

(** [on]; [None] when the call throws: an inherited member has no
    [push]. *)
Definition on (name : string) (listener : nat) (events : gmap string (list nat))
  : option (gmap string (list nat)) :=
  match get name events with
  | Absent => Some (<[name := [listener]]> events)
  | Listeners listeners => Some (<[name := listeners ++ [listener]]> events)
  | Foreign => None
  end.

(** [off]; [None] when the call throws: an inherited member has no
    [filter]. *)
Definition off (name : string) (listenerToRemove : nat)
    (events : gmap string (list nat)) : option (gmap string (list nat)) :=
  match get name events with
  | Absent => Some events
  | Listeners listeners =>
      Some (<[name := filter (fun listener => listener <> listenerToRemove) listeners]>
              events)
  | Foreign => None
  end.

Inductive op :=
| On (name : string) (listener : nat)
| Off (name : string) (listener : nat).

Definition apply (events : gmap string (list nat)) (o : op)
  : option (gmap string (list nat)) :=
  match o with
  | On name listener => on name listener events
  | Off name listener => off name listener events
  end.

(** Calls of [on] and [off] one after the other, up to the first that
    throws. *)
Fixpoint applyAll (events : gmap string (list nat)) (os : list op)
  : option (gmap string (list nat)) :=
  match os with
  | [] => Some events
  | o :: os =>
      match apply events o with
      | Some events => applyAll events os
      | None => None
      end
  end.

(** What a call of [emit] that returns has done: the value returned, the
    listeners called, in call order, and the emitter it leaves. *)
Record emitted := {
  returned : bool;
  called : list nat;
  after : gmap string (list nat)
}.

Section WithListeners.

(** What a listener does to the emitter when it is called: the calls of
    [on] and [off] it makes (a listener that emits is not modelled). *)
Variable body : nat -> list op.

(** [forEach] over the array [emit] read: it visits the listeners the
    array held when it started, for [on] pushes behind the length
    [forEach] took and [off] stores a new array.  A listener that throws
    ends it. *)
Fixpoint forEach (listeners : list nat) (events : gmap string (list nat))
  : option (gmap string (list nat)) :=
  match listeners with
  | [] => Some events
  | listener :: rest =>
      match applyAll events (body listener) with
      | Some events => forEach rest events
      | None => None
      end
  end.

(** [emit]; [None] when it throws: an inherited member has no
    [forEach], or a listener threw. *)
Definition emit (name : string) (events : gmap string (list nat)) : option emitted :=
  match get name events with
  | Absent => Some {| returned := false; called := []; after := events |}
  | Listeners listeners =>
      match forEach listeners events with
      | Some events' =>
          Some {| returned := true; called := listeners; after := events' |}
      | None => None
      end
  | Foreign => None
  end.

End WithListeners.

End Emitter.

(** ** live-api-client.js: the client *)

Module LiveClient.

Record chunk := { mimeType : string; data : string }.

Record config := { model : string; settings : string }.

(** The objects handed to [_sendDirect]. *)
Inductive request :=
| Setup (c : config)
| RealtimeInput (mediaChunks : list chunk)
| ToolResponse (functionResponses : list string)
| ClientContent (text : string) (turnComplete : bool).

Record part := {
  text : option string;
  (** [inlineData]: its [mimeType], if any, and its [data] *)
  inlineData : option (option string * string)
}.

Record serverContent := {
  interrupted : bool;
  turnComplete : bool;
  modelTurn : option (list part)
}.

(** A parsed message, by the keys the client looks at. *)
Record message := {
  toolCall : option string;
  toolCallCancellation : option string;
  setupComplete : bool;
  goAway : option Z;
  sessionResumptionUpdate : option string;
  content : option serverContent;
  usageMetadata : option string
}.

(** What the client emits, [log] apart. *)
Inductive emission :=
| EvOpen
| EvClose (code : Z)
| EvError
| EvToolCall (toolCall : string)
| EvToolCallCancellation (cancellation : string)
| EvSetupComplete
| EvGoAway (timeLeft : Z)
| EvSessionUpdate (newHandle : string)
| EvInterrupted
| EvTurnComplete
| EvAudio (data : string)
| EvContent (parts : list part)
| EvUsage (usage : string).

Record client := {
  (** [this.ws]: null, or a socket and its [readyState] *)
  ws : option Ws.readyState;
  currentConfig : option config;
  connectionAttempt : nat;
  maxConnectionAttempts : nat;
  isConnecting : bool;
  pendingAudioChunks : list chunk;
  (** the requests handed to [ws.send], oldest first *)
  sent : list request;
  emitted : list emission;
  (** the codes of the [ws.close] calls *)
  closed : list Z;
  (** the delays (ms) of the pending reconnect timers *)
  reconnects : list Z
}.

Definition create : client := {|
  ws := None;
  currentConfig := None;
  connectionAttempt := 0;
  maxConnectionAttempts := 3;
  isConnecting := false;
  pendingAudioChunks := [];
  sent := [];
  emitted := [];
  closed := [];
  reconnects := []
|}.

Definition wsOpen (c : client) : bool :=
  match ws c with Some Ws.OPEN => true | _ => false end.

(** [_sendDirect] *)
Definition sendDirect (r : request) (c : client) : client :=
  if wsOpen c
  then {| ws := ws c; currentConfig := currentConfig c;
          connectionAttempt := connectionAttempt c;
          maxConnectionAttempts := maxConnectionAttempts c;
          isConnecting := isConnecting c;
          pendingAudioChunks := pendingAudioChunks c;
          sent := sent c ++ [r];
          emitted := emitted c; closed := closed c; reconnects := reconnects c |}
  else c.

Definition sendRealtimeInput (mediaChunks : list chunk) (c : client) : client :=
  if negb (wsOpen c) then
    if isConnecting c
    then {| ws := ws c; currentConfig := currentConfig c;
            connectionAttempt := connectionAttempt c;
            maxConnectionAttempts := maxConnectionAttempts c;
            isConnecting := isConnecting c;
            pendingAudioChunks := pendingAudioChunks c ++ mediaChunks;
            sent := sent c;
            emitted := emitted c; closed := closed c; reconnects := reconnects c |}
    else c
  else sendDirect (RealtimeInput mediaChunks) c.

Definition sendToolResponse (functionResponses : list string) (c : client) : client :=
  sendDirect (ToolResponse functionResponses) c.

Definition sendText (text : string) (turnComplete : bool) (c : client) : client :=
  sendDirect (ClientContent text turnComplete) c.

(** How a call of [connect] ends before anything is awaited. *)
Inductive connecting := AlreadyOpen | Waiting | Invalid | Started.

(** [connect(config)] up to the creation of the socket. *)
Definition connect (cfg : option config) (c : client) : connecting * client :=
  if wsOpen c then (AlreadyOpen, c)
  else if isConnecting c then (Waiting, c)
  else match cfg with
       | None => (Invalid, c)
       | Some cf =>
           if String.eqb (model cf) EmptyString then (Invalid, c)
           else (Started,
                 {| ws := Some Ws.CONNECTING; currentConfig := Some cf;
                    connectionAttempt := S (connectionAttempt c);
                    maxConnectionAttempts := maxConnectionAttempts c;
                    isConnecting := true;
                    pendingAudioChunks := pendingAudioChunks c;
                    sent := sent c;
                    emitted := emitted c; closed := closed c;
                    reconnects := reconnects c |})
       end.

(** The [open] listener of [connect]; the socket is open when it runs. *)
Definition onOpen (c : client) : client :=
  let c0 := {| ws := Some Ws.OPEN; currentConfig := currentConfig c;
               connectionAttempt := connectionAttempt c;
               maxConnectionAttempts := maxConnectionAttempts c;
               isConnecting := isConnecting c;
               pendingAudioChunks := pendingAudioChunks c;
               sent := sent c;
               emitted := emitted c; closed := closed c;
               reconnects := reconnects c |} in
  let c1 := match currentConfig c0 with
            | Some cf => sendDirect (Setup cf) c0
            | None => c0
            end in
  let c2 := {| ws := ws c1; currentConfig := currentConfig c1;
               connectionAttempt := 0;
               maxConnectionAttempts := maxConnectionAttempts c1;
               isConnecting := false;
               pendingAudioChunks := pendingAudioChunks c1;
               sent := sent c1;
               emitted := emitted c1 ++ [EvOpen]; closed := closed c1;
               reconnects := reconnects c1 |} in
  match pendingAudioChunks c2 with
  | [] => c2
  | _ :: _ =>
      let c3 := sendRealtimeInput (pendingAudioChunks c2) c2 in
      {| ws := ws c3; currentConfig := currentConfig c3;
         connectionAttempt := connectionAttempt c3;
         maxConnectionAttempts := maxConnectionAttempts c3;
         isConnecting := isConnecting c3;
         pendingAudioChunks := [];
         sent := sent c3;
         emitted := emitted c3; closed := closed c3;
         reconnects := reconnects c3 |}
  end.

(** [handleClose]: the socket is dropped, [close] is emitted, and for the
    codes 1006 and 1001 a reconnection is set up after one second while
    attempts are left. *)
Definition handleClose (code : Z) (c : client) : client :=
  {| ws := None; currentConfig := currentConfig c;
     connectionAttempt := connectionAttempt c;
     maxConnectionAttempts := maxConnectionAttempts c;
     isConnecting := isConnecting c;
     pendingAudioChunks := pendingAudioChunks c;
     sent := sent c;
     emitted := emitted c ++ [EvClose code];
     closed := closed c;
     reconnects :=
       if ((code =? 1006)%Z || (code =? 1001)%Z)
          && (connectionAttempt c <? maxConnectionAttempts c)
       then reconnects c ++ [1000%Z] else reconnects c |}.

(** [disconnect] *)
Definition disconnect (c : client) : client :=
  match ws c with
  | Some st =>
      {| ws := None; currentConfig := currentConfig c;
         connectionAttempt := connectionAttempt c;
         maxConnectionAttempts := maxConnectionAttempts c;
         isConnecting := isConnecting c;
         pendingAudioChunks := pendingAudioChunks c;
         sent := sent c;
         emitted := emitted c;
         closed := match st with
                   | Ws.OPEN | Ws.CONNECTING => closed c ++ [1000%Z]
                   | _ => closed c
                   end;
         reconnects := reconnects c |}
  | None => c
  end.

(** [part.inlineData && part.inlineData.mimeType?.startsWith('audio/')] *)
Definition isAudio (p : part) : bool :=
  match inlineData p with
  | Some (Some mime, _) => String.prefix "audio/" mime
  | _ => false
  end.

Definition audioData (p : part) : option string :=
  if isAudio p
  then match inlineData p with Some (_, d) => Some d | None => None end
  else None.

(** The [modelTurn] branch of [handleMessage]: an [audio] event per audio
    part, then [content] with the other parts when there are some or when
    there was no audio. *)
Definition onModelTurn (parts : list part) : list emission :=
  let nonAudioParts := List.filter (fun p => negb (isAudio p)) parts in
  (EvAudio <$> omap audioData parts)
  ++ (if (0 <? length nonAudioParts) || negb (existsb isAudio parts)
      then [EvContent nonAudioParts] else []).

Definition onServerContent (sc : serverContent) : list emission :=
  (if interrupted sc then [EvInterrupted]
   else if turnComplete sc then [EvTurnComplete] else [])
  ++ match modelTurn sc with
     | Some parts => onModelTurn parts
     | None => []
     end.

(** What [handleMessage] emits for a parsed message: the first key
    present, in this order, decides. *)
Definition handleMessage (m : message) : list emission :=
  match toolCall m with
  | Some tc => [EvToolCall tc]
  | None =>
  match toolCallCancellation m with
  | Some tcc => [EvToolCallCancellation tcc]
  | None =>
  if setupComplete m then [EvSetupComplete] else
  match goAway m with
  | Some timeLeft => [EvGoAway timeLeft]
  | None =>
  match sessionResumptionUpdate m with
  | Some newHandle => [EvSessionUpdate newHandle]
  | None =>
  match content m with
  | Some sc => onServerContent sc
  | None =>
  match usageMetadata m with
  | Some u => [EvUsage u]
  | None => []
  end end end end end end.

(** Several calls of [sendRealtimeInput], one after the other. *)
Definition sendAll (batches : list (list chunk)) (c : client) : client :=
  fold_left (fun c mediaChunks => sendRealtimeInput mediaChunks c) batches c.

(** The parts carried by the [content] events. *)
Definition contentParts (es : list emission) : list part :=
  concat (omap (fun e => match e with EvContent ps => Some ps | _ => None end) es).

(** The data carried by the [audio] events. *)
Definition audioOf (es : list emission) : list string :=
  omap (fun e => match e with EvAudio d => Some d | _ => None end) es.

End LiveClient.

(** ** More concrete inputs *)

Module MoreSamples.

(** A platform on which the text [update] is a resumable session update
    that announces the handle [h1]. *)
Definition tracking : Platform := {|
  parsesAsDisconnect := fun text => String.eqb text Samples.notice;
  resumptionHandle := fun _ => None;
  resumableNewHandle := fun text => if String.eqb text "update" then Some "h1" else None;
  closeThrows := fun _ _ => false
|}.

(** A verbose relay with both sockets open that tracks the handle [h1]. *)
Definition tracked : Proxy.proxy := {|
  Proxy.sessions := {[ "h1" := 1000%Z ]};
  Proxy.clientWs := Ws.accepted;
  Proxy.googleWs := Ws.accepted;
  Proxy.clientState := Proxy.ST_CONNECTED;
  Proxy.sessionHandle := Some "h1";
  Proxy.pingInterval := true
|}.

Definition liveConfig : LiveClient.config :=
  {| LiveClient.model := "models/gemini-2.0-flash-live-001";
     LiveClient.settings := "audio" |}.

(** A client whose [connect] has just created the socket. *)
Definition connectingClient : LiveClient.client :=
  (LiveClient.connect (Some liveConfig) LiveClient.create).2.

Definition pcm (data : string) : LiveClient.chunk :=
  {| LiveClient.mimeType := "audio/pcm"; LiveClient.data := data |}.

(** Listeners that leave the emitter alone. *)
Definition inert : nat -> list Emitter.op := fun _ => [].

(** Listener 7 removes listener 8 from [audio] when it is called; the
    others leave the emitter alone. *)
Definition remover : nat -> list Emitter.op :=
  fun listener => if listener =? 7 then [Emitter.Off "audio" 8] else [].

End MoreSamples.

(** * Properties *)

(** ** Sockets *)

Module WsFacts.

Lemma sent_record_send m s : Ws.sent (Ws.record (Ws.Send m) s) = Ws.sent s ++ [m].
Proof. unfold Ws.sent, Ws.record; simpl. by rewrite omap_app. Qed.

Lemma sent_record_close c r s : Ws.sent (Ws.record (Ws.Close c r) s) = Ws.sent s.
Proof. unfold Ws.sent, Ws.record; simpl. rewrite omap_app; simpl. apply app_nil_r. Qed.

Lemma sent_record_closeNoArgs s : Ws.sent (Ws.record Ws.CloseNoArgs s) = Ws.sent s.
Proof. unfold Ws.sent, Ws.record; simpl. rewrite omap_app; simpl. apply app_nil_r. Qed.

Lemma sent_closing s : Ws.sent (Ws.closing s) = Ws.sent s.
Proof. reflexivity. Qed.

Lemma sent_with_state st s : Ws.sent (Ws.with_state st s) = Ws.sent s.
Proof. reflexivity. Qed.

Lemma sent_send m s : Ws.sent (Ws.send m s) = Ws.sent s ++ [m].
Proof. apply sent_record_send. Qed.

End WsFacts.

(** ** The minimal relay *)

Module RelayFacts.
Section WithPlatform.
Context `{Platform}.

Import Relay.



Lemma calls_safeClose ws code reason :
  Ws.calls (safeClose ws code reason) =
  Ws.calls ws ++ Ws.Close (validCode code) (validReason reason)
    :: (if closeThrows (validCode code) (validReason reason)
        then [Ws.CloseNoArgs] else []).
Proof.
  unfold safeClose. destruct (closeThrows _ _); simpl; [| done].
  by rewrite <- app_assoc.
Qed.

Lemma sent_safeClose ws code reason : Ws.sent (safeClose ws code reason) = Ws.sent ws.
Proof.
  unfold safeClose. destruct (closeThrows _ _);
    rewrite WsFacts.sent_closing, ?WsFacts.sent_record_closeNoArgs;
    apply WsFacts.sent_record_close.
Qed.




(** The minimal relay hands the upstream code 1001 to the client as it
    is: 1001 is a code [safeClose] lets through. *)
Lemma minimal_relay_keeps_going_away r reason :
  Ws.is_open (clientWs r) = true ->
  exists fallback,
    Ws.calls (clientWs (step r (GoogleClose 1001 reason)))
    = Ws.calls (clientWs r) ++ Ws.Close 1001 (validReason reason) :: fallback.
Proof.
  intros Hopen. unfold step, arrive, onGoogleClose; simpl. rewrite Hopen; simpl.
  rewrite calls_safeClose. eexists. reflexivity.
Qed.

(** *** Frames queued before the upstream socket opens *)

Lemma run_cons r e es : run r (e :: es) = run (step r e) es.
Proof. reflexivity. Qed.

Lemma run_app r es1 es2 : run r (es1 ++ es2) = run (run r es1) es2.
Proof. apply fold_left_app. Qed.

Lemma sent_flush queue ws : Ws.sent (flush queue ws) = Ws.sent ws ++ queue.
Proof.
  revert ws. induction queue as [| m queue IH]; intros ws; simpl.
  - by rewrite app_nil_r.
  - rewrite IH, WsFacts.sent_send. by rewrite <- app_assoc.
Qed.

(** While the upstream socket has not opened, a frame that is no
    disconnect notice goes to the back of the queue and nowhere else. *)
Lemma step_queues r m :
  googleWsReady r = false ->
  isIntentionalDisconnect r = false ->
  parsesAsDisconnect (Js.toString m) = false ->
  step r (ClientMessage m) =
  {| clientWs := clientWs r; googleWs := googleWs r;
     messageQueue := messageQueue r ++ [m];
     googleWsReady := false; isIntentionalDisconnect := false |}.
Proof.
  intros Hr Hi Hm. unfold step, arrive, onClientMessage.
  rewrite Hm, Hr, Hi. reflexivity.
Qed.

Lemma run_queues msgs : forall r,
  googleWsReady r = false ->
  isIntentionalDisconnect r = false ->
  Forall (fun m => parsesAsDisconnect (Js.toString m) = false) msgs ->
  run r (ClientMessage <$> msgs) =
  {| clientWs := clientWs r; googleWs := googleWs r;
     messageQueue := messageQueue r ++ msgs;
     googleWsReady := false; isIntentionalDisconnect := false |}.
Proof.
  induction msgs as [| m msgs IH]; intros r Hr Hi Hall.
  - simpl. rewrite app_nil_r. destruct r; simpl in *; congruence.
  - inversion Hall as [| ? ? Hm Hrest]; subst.
    rewrite fmap_cons, run_cons, (step_queues r m Hr Hi Hm).
    rewrite IH by done. simpl. by rewrite <- app_assoc.
Qed.

(** *** After a disconnect notice *)

Lemma step_silenced r e :
  silenced r ->
  silenced (step r e)
  /\ Ws.sent (googleWs (step r e)) = Ws.sent (googleWs r)
  /\ Ws.sent (clientWs (step r e)) = Ws.sent (clientWs r).
Proof.
  intros [Hflag Hq]. unfold silenced, step.
  destruct e; simpl.
  - unfold onGoogleOpen; simpl. rewrite Hq. simpl. done.
  - unfold onGoogleMessage. rewrite Hflag, andb_false_r. done.
  - unfold onGoogleClose; simpl. destruct (Ws.is_open _); simpl;
      rewrite ?sent_safeClose; done.
  - unfold onGoogleError. destruct (Ws.is_open _); simpl;
      rewrite ?sent_safeClose; done.
  - unfold onClientMessage. destruct (parsesAsDisconnect _); simpl.
    + by rewrite sent_safeClose.
    + rewrite Hflag, andb_false_r. simpl. done.
  - unfold onClientClose; simpl. rewrite Hflag, orb_true_r.
    destruct (Ws.is_open _); simpl; rewrite ?sent_safeClose; done.
  - unfold onClientError. destruct (Ws.is_open _); simpl;
      rewrite ?sent_safeClose; done.
Qed.

Lemma run_silenced es : forall r,
  silenced r ->
  silenced (run r es)
  /\ Ws.sent (googleWs (run r es)) = Ws.sent (googleWs r)
  /\ Ws.sent (clientWs (run r es)) = Ws.sent (clientWs r).
Proof.
  induction es as [| e es IH]; intros r Hs; [done |].
  destruct (step_silenced r e Hs) as (Hs' & Hg & Hc).
  destruct (IH _ Hs') as (? & ? & ?).
  rewrite run_cons. split; [done | split; congruence].
Qed.

Lemma disconnect_silences r msg :
  parsesAsDisconnect (Js.toString msg) = true ->
  silenced (step r (ClientMessage msg))
  /\ Ws.sent (googleWs (step r (ClientMessage msg))) = Ws.sent (googleWs r)
  /\ Ws.sent (clientWs (step r (ClientMessage msg))) = Ws.sent (clientWs r).
Proof.
  intros Hm. unfold step, arrive, onClientMessage, silenced. rewrite Hm. simpl.
  by rewrite sent_safeClose.
Qed.

(** C10. Once a client frame parses as the disconnect notice, the flag is
    set and stays set, the queue stays empty, and whatever events follow,
    no further frame is sent on either socket: the notice itself, later
    client frames and later upstream frames are all discarded. *)
Theorem nothing_forwarded_after_disconnect r msg es :
  parsesAsDisconnect (Js.toString msg) = true ->
  let r' := run (step r (ClientMessage msg)) es in
  isIntentionalDisconnect (step r (ClientMessage msg)) = true
  /\ isIntentionalDisconnect r' = true
  /\ messageQueue r' = []
  /\ Ws.sent (googleWs r') = Ws.sent (googleWs r)
  /\ Ws.sent (clientWs r') = Ws.sent (clientWs r).
Proof.
  intros Hm r'.
  destruct (disconnect_silences r msg Hm) as (Hs & Hg & Hc).
  destruct (run_silenced es _ Hs) as ((Hflag & Hq) & Hg' & Hc').
  destruct Hs as [Hflag0 _].
  subst r'. repeat split; congruence.
Qed.

End WithPlatform.



(** C10 on a relay that has one frame queued: the notice arrives, then the
    upstream socket opens, sends a frame, and the client sends another. *)
Lemma nothing_forwarded_after_disconnect_witness :
  @parsesAsDisconnect Samples.platform (Js.toString (Js.Str Samples.notice)) = true /\
  let r := @Relay.run Samples.platform Relay.connection
             [Relay.ClientMessage (Js.Str "setup")] in
  let es := [Relay.GoogleOpen; Relay.GoogleMessage (Js.Str "audio");
             Relay.ClientMessage (Js.Str "more")] in
  let r' := @Relay.run Samples.platform
              (@Relay.step Samples.platform r (Relay.ClientMessage (Js.Str Samples.notice))) es in
  Relay.isIntentionalDisconnect
    (@Relay.step Samples.platform r (Relay.ClientMessage (Js.Str Samples.notice))) = true
  /\ Relay.isIntentionalDisconnect r' = true
  /\ Relay.messageQueue r' = []
  /\ Ws.sent (Relay.googleWs r') = Ws.sent (Relay.googleWs r)
  /\ Ws.sent (Relay.clientWs r') = Ws.sent (Relay.clientWs r).
Proof.
  split; [reflexivity |].
  apply (@nothing_forwarded_after_disconnect Samples.platform). reflexivity.
Defined.

End RelayFacts.

(** ** The verbose relay and the session store *)

Module ProxyFacts.
Section WithPlatform.
Context `{Platform}.

Import Proxy.

Lemma proxy_run_cons p e es : run p (e :: es) = run (step p e) es.
Proof. reflexivity. Qed.

Lemma proxy_run_app p es1 es2 : run p (es1 ++ es2) = run (run p es1) es2.
Proof. apply fold_left_app. Qed.

(** C1, as the code has it. When the upstream socket closes while the
    client socket is open, and [ws] accepts the close call, the client
    socket is closed with the same code and the text of the reason,
    except that the upstream code 1001 becomes 1012 (SERVICE_RESTART)
    with a fixed reason. The call is the only one made on the client
    socket, which is CLOSING afterwards, and the ping timer is cleared.
    The text of a [Buffer] is what it holds, also when that is empty;
    ["No reason"] stands in for a falsy reason only. *)
Theorem upstream_close_translated p now (code : Z) reason :
  Ws.is_open (clientWs p) = true ->
  let code' := if (code =? 1001)%Z then 1012%Z else code in
  let text := if (code =? 1001)%Z
              then "Backend service restarting, please reconnect"
              else if Js.truthy reason then Js.toString reason else "No reason" in
  closeThrows code' text = false ->
  let p' := step p (GoogleClose now code reason) in
  Closing.newCalls (clientWs p) (clientWs p') = [Ws.Close code' text]
  /\ Closing.closedWith (clientWs p) (clientWs p') = Some (Closing.Status code' text)
  /\ Ws.state (clientWs p') = Ws.CLOSING
  /\ pingInterval p' = false
  /\ (forall bytes, reason = Js.Buf bytes -> code <> 1001%Z ->
        code' = code /\ text = bytes).
Proof.
  intros Hopen code' text Haccepted p'.
  assert (clientCode code = code' /\ clientReason code reason = text) as [Hcode Htext].
  { subst code' text. unfold clientCode, clientReason, reasonStr, GOING_AWAY,
      SERVICE_RESTART. by destruct (code =? 1001)%Z. }
  assert (p' = {| sessions := sessions p';
                  clientWs := Ws.closing (Ws.record (Ws.Close code' text) (clientWs p));
                  googleWs := googleWs p'; clientState := clientState p';
                  sessionHandle := sessionHandle p'; pingInterval := false |}) as Hp.
  { subst p'. unfold step, arrive, onGoogleClose; simpl. rewrite Hopen; simpl.
    by rewrite Hcode, Htext, Haccepted. }
  rewrite Hp; simpl. unfold Closing.closedWith, Closing.newCalls; simpl.
  rewrite drop_app_length. simpl. rewrite Haccepted.
  split; [done |]. split; [done |]. split.
  - unfold Ws.is_open in Hopen. by destruct (Ws.state (clientWs p)).
  - split; [done |]. intros bytes -> Hne. subst code' text.
    destruct (Z.eqb_spec code 1001); done.
Qed.

(** When [ws] refuses the close call, as it does for the upstream codes
    1005 and 1006, the client socket is not closed: it stays open and
    the ping timer keeps running. *)
Lemma refused_close_leaves_client_open p now (code : Z) reason :
  Ws.is_open (clientWs p) = true ->
  closeThrows (clientCode code) (clientReason code reason) = true ->
  let p' := step p (GoogleClose now code reason) in
  Ws.is_open (clientWs p') = true
  /\ Closing.closedWith (clientWs p) (clientWs p') = None
  /\ pingInterval p' = pingInterval p.
Proof.
  intros Hopen Hrefused p'. subst p'.
  unfold step, arrive, onGoogleClose; simpl. rewrite Hopen; simpl.
  rewrite Hrefused; simpl. split; [exact Hopen |]. split; [| done].
  unfold Closing.closedWith, Closing.newCalls; simpl.
  rewrite drop_app_length. simpl. by rewrite Hrefused.
Qed.

(** *** Frames that arrive before the upstream socket is open *)

Lemma run_not_open msgs : forall p,
  Ws.is_open (googleWs p) = false ->
  googleWs (run p (ClientMessage <$> msgs)) = googleWs p
  /\ Ws.calls (clientWs (run p (ClientMessage <$> msgs)))
     = Ws.calls (clientWs p) ++ replicate (length msgs) unavailable.
Proof.
  induction msgs as [| m msgs IH]; intros p Hp.
  - simpl. by rewrite app_nil_r.
  - rewrite fmap_cons, proxy_run_cons.
    assert (step p (ClientMessage m) =
            {| sessions := sessions p;
               clientWs := Ws.closing (Ws.record unavailable (clientWs p));
               googleWs := googleWs p; clientState := clientState p;
               sessionHandle := sessionHandle p; pingInterval := pingInterval p |})
      as ->.
    { unfold step, arrive, onClientMessage. by rewrite Hp. }
    match goal with |- context [run ?q _] => destruct (IH q Hp) as [-> ->] end.
    simpl. split; [done |]. by rewrite <- app_assoc.
Qed.

Lemma closes_replicate_unavailable n :
  omap (fun c => match c with
                 | Ws.Close _ _ | Ws.CloseNoArgs => Some c
                 | _ => None
                 end) (replicate n unavailable) = replicate n unavailable.
Proof. induction n as [| n IH]; [done |]. simpl. f_equal. exact IH. Qed.

(** C2, as the code has it. In the minimal relay, the frames a client
    sends before the upstream socket opens (no disconnect notice among
    them) are held back, and when the socket opens each is sent upstream
    once, in arrival order, leaving the queue empty. The verbose relay
    keeps no queue: it forwards none of these frames, neither at once nor
    when the socket opens, and answers each with a close request 1012 on
    the client socket. *)
Theorem frames_before_open (msgs : list Js.value) store :
  Forall (fun m => parsesAsDisconnect (Js.toString m) = false) msgs ->
  let queued := Relay.run Relay.connection (Relay.ClientMessage <$> msgs) in
  let opened := Relay.step queued Relay.GoogleOpen in
  let verbose := run (connection store) ((ClientMessage <$> msgs) ++ [GoogleOpen]) in
  (Ws.sent (Relay.googleWs queued) = []
   /\ Ws.sent (Relay.googleWs opened) = msgs
   /\ Relay.messageQueue opened = [])
  /\ (Ws.sent (googleWs verbose) = []
      /\ Ws.closes (clientWs verbose) = replicate (length msgs) unavailable).
Proof.
  intros Hall queued opened verbose. split.
  - subst opened queued.
    rewrite (RelayFacts.run_queues msgs Relay.connection eq_refl eq_refl Hall).
    unfold Relay.step, Relay.arrive, Relay.onGoogleOpen; simpl.
    rewrite RelayFacts.sent_flush. done.
  - subst verbose. rewrite proxy_run_app.
    destruct (run_not_open msgs (connection store) eq_refl) as [Hg Hc].
    unfold run at 1; simpl. unfold step, arrive, onGoogleOpen; simpl.
    rewrite Hg. split; [done |].
    unfold Ws.closes. rewrite Hc. simpl. apply closes_replicate_unavailable.
Qed.

End WithPlatform.

(** C1 on a closure with code 1008 and an empty reason. *)
Lemma upstream_close_translated_witness :
  Ws.is_open (Proxy.clientWs (Proxy.connection ∅)) = true
  /\ @closeThrows Samples.platform 1008 EmptyString = false
  /\ @Closing.closedWith Samples.platform Ws.accepted
       (Proxy.clientWs
          (@Proxy.step Samples.platform (Proxy.connection ∅)
             (Proxy.GoogleClose 0 1008 (Js.Buf EmptyString))))
     = Some (Closing.Status 1008 EmptyString).
Proof.
  split; [reflexivity |]. split; [reflexivity |].
  destruct (@upstream_close_translated Samples.platform (Proxy.connection ∅) 0%Z 1008%Z
              (Js.Buf EmptyString) eq_refl eq_refl) as (_ & Hclosed & _).
  exact Hclosed.
Defined.

(** C1 as the spec words it fails: on the upstream code 1001 the client
    socket is not closed with 1013. *)
Lemma going_away_is_not_try_again_later :
  ~ exists reason,
      @Closing.closedWith Samples.platform Ws.accepted
        (Proxy.clientWs
           (@Proxy.step Samples.platform (Proxy.connection ∅)
              (Proxy.GoogleClose 0 1001 (Js.Buf "bye"))))
      = Some (Closing.Status 1013 reason).
Proof. intros [reason Hr]. vm_compute in Hr. discriminate Hr. Qed.

(** C2 on two frames. *)
Lemma frames_before_open_witness :
  let msgs := [Js.Str "setup"; Js.Buf "audio"] in
  Forall (fun m => @parsesAsDisconnect Samples.platform (Js.toString m) = false) msgs
  /\ Ws.sent (Relay.googleWs
       (@Relay.step Samples.platform
          (@Relay.run Samples.platform Relay.connection (Relay.ClientMessage <$> msgs))
          Relay.GoogleOpen)) = msgs.
Proof.
  intros msgs. split.
  - repeat constructor.
  - apply (@frames_before_open Samples.platform msgs ∅). repeat constructor.
Defined.

(** C2 as the spec words it fails on the verbose relay: a frame that
    arrives before the upstream socket opens is not forwarded when it
    opens. *)
Lemma verbose_relay_drops_early_frame :
  Ws.sent (Proxy.googleWs
    (@Proxy.run Samples.platform (Proxy.connection ∅)
       [Proxy.ClientMessage (Js.Str "setup"); Proxy.GoogleOpen]))
  <> [Js.Str "setup"].
Proof. vm_compute. discriminate. Qed.

(** *** The session store *)

Import Proxy.

Lemma sweep_keeps now (store : gmap string Z) handle ts :
  store !! handle = Some ts -> (now - ts <= expiredTime)%Z ->
  sweep now store !! handle = Some ts.
Proof.
  intros Hl Hnow. unfold sweep. apply map_lookup_filter_Some_2; [done |].
  simpl. lia.
Qed.

Lemma sweep_evicts now (store : gmap string Z) handle ts :
  store !! handle = Some ts -> (now - ts > expiredTime)%Z ->
  sweep now store !! handle = None.
Proof.
  intros Hl Hnow. unfold sweep. apply map_lookup_filter_None_2. right.
  intros x Hx. simpl. rewrite Hl in Hx. injection Hx as <-. tauto.
Qed.

Lemma sweep_absent now (store : gmap string Z) handle :
  store !! handle = None -> sweep now store !! handle = None.
Proof. intros Hl. unfold sweep. apply map_lookup_filter_None_2. by left. Qed.

Lemma sweeps_absent times : forall (store : gmap string Z) handle,
  store !! handle = None -> sweeps times store !! handle = None.
Proof.
  induction times as [| t times IH]; intros store handle Hl; [done |].
  apply IH. by apply sweep_absent.
Qed.

(** Sweeps that all run within the retention window keep the record. *)
Lemma sweeps_keep times : forall (store : gmap string Z) handle ts,
  store !! handle = Some ts ->
  Forall (fun now => (now - ts <= expiredTime)%Z) times ->
  sweeps times store !! handle = Some ts.
Proof.
  induction times as [| t times IH]; intros store handle ts Hl Hall; [done |].
  inversion Hall; subst. apply IH; [| done]. by apply sweep_keeps.
Qed.

(** One sweep later than the retention window is enough to evict it. *)
Lemma sweeps_evict times : forall (store : gmap string Z) handle ts,
  store !! handle = Some ts ->
  Exists (fun now => (now - ts > expiredTime)%Z) times ->
  sweeps times store !! handle = None.
Proof.
  induction times as [| t times IH]; intros store handle ts Hl Hex.
  - inversion Hex.
  - simpl. destruct (decide (t - ts > expiredTime)%Z) as [Hlate | Hearly].
    + apply sweeps_absent. by apply (sweep_evicts _ _ _ ts).
    + inversion Hex; subst; [done |].
      apply (IH _ _ ts); [| done]. apply sweep_keeps; [done | lia].
Qed.

Lemma elem_of_firings start from to t :
  t ∈ firings start from to <->
  (from < t)%Z /\ exists k, (1 <= k <= (to - start) / sweepPeriod)%Z
                            /\ t = (start + k * sweepPeriod)%Z.
Proof.
  unfold firings. rewrite list_elem_of_filter, list_elem_of_fmap.
  setoid_rewrite elem_of_seqZ.
  split; intros [Hf (k & H1 & H2)]; (split; [done |]); exists k; split; (done || lia).
Qed.

Lemma firings_le start from to t : t ∈ firings start from to -> (t <= to)%Z.
Proof.
  rewrite elem_of_firings. intros (_ & k & Hk & ->).
  change sweepPeriod with 3600000%Z in *.
  assert ((to - start) / 3600000 * 3600000 <= to - start)%Z
    by (pose proof (Z.mul_div_le (to - start) 3600000); lia).
  nia.
Qed.

(** The timer installed at [start] fires later than the retention window
    of a record set at [T] within one period of its end. *)
Lemma firing_after_expiry start T to :
  (start <= T)%Z -> (T + expiredTime + sweepPeriod <= to)%Z ->
  exists t, t ∈ firings start T to /\ (t - T > expiredTime)%Z.
Proof.
  intros Hstart Hto.
  change expiredTime with 86400000%Z in *. change sweepPeriod with 3600000%Z in *.
  set (d := (T + 86400000 - start)%Z).
  pose proof (Z.div_mod d 3600000 ltac:(lia)) as Hdm.
  pose proof (Z.mod_pos_bound d 3600000 ltac:(lia)) as Hmod.
  assert (0 <= d / 3600000)%Z as Hq by (apply Z.div_pos; subst d; lia).
  assert (d / 3600000 + 1 <= (to - start) / 3600000)%Z as Hk.
  { replace (d / 3600000 + 1)%Z with ((d + 1 * 3600000) / 3600000)%Z
      by (rewrite Z.div_add; lia).
    apply Z.div_le_mono; subst d; lia. }
  exists (start + (d / 3600000 + 1) * 3600000)%Z. split.
  - apply elem_of_firings. change sweepPeriod with 3600000%Z. split.
    + subst d. lia.
    + exists (d / 3600000 + 1)%Z. split; [lia | reflexivity].
  - subst d. lia.
Qed.

(** C5, as the code has it. A record set at [T] is found at every time up
    to [T] + 24 h, so at [T] + 23 h 59 min; the hourly sweep removes it at
    its first run later than [T] + 24 h, so it is gone at [T] + 25 h and
    from then on. *)
Theorem session_record_retention start T handle (store : gmap string Z) t :
  (start <= T)%Z ->
  ((t <= T + expiredTime)%Z -> storeAt start T handle store t !! handle = Some T)
  /\ ((T + expiredTime + sweepPeriod <= t)%Z ->
      storeAt start T handle store t !! handle = None).
Proof.
  intros Hstart. unfold storeAt. split; intros Ht.
  - apply sweeps_keep; [apply lookup_insert_eq |].
    apply Forall_forall. intros now Hnow. apply firings_le in Hnow. lia.
  - destruct (firing_after_expiry start T t Hstart Ht) as (now & Hin & Hlate).
    apply (sweeps_evict _ _ _ T); [apply lookup_insert_eq |].
    apply Exists_exists. by exists now.
Qed.

(** C5 with the timer installed at 0 and a record set half an hour later:
    found 23 h 59 min after, gone 25 h after. *)
Lemma session_record_retention_witness :
  (0 <= 1800000)%Z
  /\ storeAt 0 1800000 "h" ∅ (1800000 + 86340000) !! "h" = Some 1800000%Z
  /\ storeAt 0 1800000 "h" ∅ (1800000 + 90000000) !! "h" = None.
Proof.
  split; [lia |].
  pose proof (session_record_retention 0 1800000 "h" ∅ (1800000 + 86340000)
                ltac:(lia)) as [Hkeep _].
  pose proof (session_record_retention 0 1800000 "h" ∅ (1800000 + 90000000)
                ltac:(lia)) as [_ Hgone].
  split; [apply Hkeep | apply Hgone]; unfold expiredTime, sweepPeriod; lia.
Defined.

(** C5 as the spec words it fails: with the timer installed at 0, a record
    set at 00:30 is still in the store 24 h 01 min later, after every sweep
    due by then has run. *)
Lemma record_outlives_24h01m :
  has "h" (storeAt 0 1800000 "h" ∅ (1800000 + 86460000)) = true.
Proof. vm_compute. reflexivity. Qed.

End ProxyFacts.

(** ** The reconnection policy of the hook *)

Module HookFacts.

Import Hook.

(** The delay before attempt [n]: the doubled base capped at the maximum,
    plus less than a second of jitter. *)
Lemma getReconnectDelay_bounds (n : nat) (random : Q) :
  (0 <= random < 1)%Q ->
  let base := inject_Z (Z.min (1000 * 2 ^ Z.of_nat n) 30000) in
  (base <= getReconnectDelay n random < base + 1000)%Q.
Proof.
  intros [H0 H1] base. unfold getReconnectDelay.
  change RECONNECT_INITIAL_DELAY with 1000%Z. change RECONNECT_MAX_DELAY with 30000%Z.
  assert (Qmin (inject_Z (1000 * 2 ^ Z.of_nat n)) (inject_Z 30000) == base)%Q as ->.
  { subst base. destruct (Z.min_spec (1000 * 2 ^ Z.of_nat n) 30000) as [[Hlt ->] | [Hle ->]].
    - apply Q.min_l. rewrite <- Zle_Qle. lia.
    - apply Q.min_r. rewrite <- Zle_Qle. lia. }
  split; lra.
Qed.

(** Discharges the branches whose condition on the code or on the
    attempts does not hold. *)
Ltac other_code :=
  intros; exfalso;
  repeat match goal with H : _ \/ _ |- _ => destruct H end; lia.

(** C4, as the code has it. A close with code 1000 leaves the hook
    disconnected and schedules nothing. A close with code 1012 or 1013
    schedules a reconnection while fewer than 5 attempts were made, after
    min(1000 * 2^attempts, 30000) ms plus a jitter below 1000 ms, and
    otherwise ends in the error state with the reason that the maximum
    was reached. Every other code, 1006 included, ends in the error state
    with the close reason and schedules nothing. *)
Theorem close_policy (h : hook) (code : Z) (reason : string) (random : Q) :
  (0 <= random < 1)%Q ->
  let h' := onClose code reason random h in
  connected h' = false
  /\ (code = 1000%Z ->
      connectionState h' = "disconnected"
      /\ reconnectScheduled h' = false
      /\ reconnectTimeout h' = reconnectTimeout h)
  /\ (code = 1012%Z \/ code = 1013%Z -> reconnectAttempts h < 5 ->
      reconnectScheduled h' = true
      /\ exists delay, reconnectTimeout h' = Some (ReconnectIn delay)
         /\ let base := inject_Z (Z.min (1000 * 2 ^ Z.of_nat (reconnectAttempts h)) 30000) in
            (base <= delay < base + 1000)%Q)
  /\ (code = 1012%Z \/ code = 1013%Z -> 5 <= reconnectAttempts h ->
      connectionState h' = "error"
      /\ error h' = Some "Maximum reconnection attempts (5) reached"
      /\ reconnectTimeout h' = reconnectTimeout h)
  /\ (code <> 1000%Z -> code <> 1012%Z -> code <> 1013%Z ->
      connectionState h' = "error"
      /\ error h' = Some ("Connection closed: "
                          +:+ (if String.eqb reason EmptyString
                               then "Code " +:+ pretty code else reason))
      /\ reconnectScheduled h' = false
      /\ reconnectTimeout h' = reconnectTimeout h).
Proof.
  intros Hrandom h'. subst h'. unfold onClose.
  change RECONNECT_MAX_ATTEMPTS with 5.
  destruct (Z.eqb_spec code 1000) as [-> | H1000]; simpl.
  { split; [done |]. split; [done |]. repeat split; other_code. }
  destruct (Z.eqb_spec code 1012) as [-> | H1012]; simpl.
  { destruct (Nat.ltb_spec (reconnectAttempts h) 5); simpl;
      (split; [done |]); (split; [other_code |]).
    - split; [| split; other_code].
      intros _ _. split; [done |]. eexists; split; [reflexivity |].
      by apply getReconnectDelay_bounds.
    - split; [other_code |]. split; [done | other_code]. }
  destruct (Z.eqb_spec code 1013) as [-> | H1013]; simpl.
  { destruct (Nat.ltb_spec (reconnectAttempts h) 5); simpl;
      (split; [done |]); (split; [other_code |]).
    - split; [| split; other_code].
      intros _ _. split; [done |]. eexists; split; [reflexivity |].
      by apply getReconnectDelay_bounds.
    - split; [other_code |]. split; [done | other_code]. }
  split; [done |]. split; [other_code |]. split; [other_code |].
  split; [other_code |]. done.
Qed.

(** C4 on a connected hook that is closed with 1013 before any retry. *)
Lemma close_policy_witness :
  (0 <= 1 # 2 < 1)%Q
  /\ (1013 = 1012 \/ 1013 = 1013)%Z
  /\ reconnectAttempts (onOpen initial) < 5
  /\ reconnectScheduled (onClose 1013 "later" (1 # 2) (onOpen initial)) = true
  /\ exists delay,
       reconnectTimeout (onClose 1013 "later" (1 # 2) (onOpen initial))
       = Some (ReconnectIn delay)
       /\ (1000 <= delay < 2000)%Q.
Proof.
  assert (0 <= 1 # 2 < 1)%Q as Hr by (split; [discriminate | reflexivity]).
  split; [exact Hr |]. split; [right; reflexivity |]. split; [simpl; lia |].
  destruct (close_policy (onOpen initial) 1013 "later" (1 # 2) Hr)
    as (_ & _ & Hretry & _).
  destruct (Hretry (or_intror eq_refl) ltac:(simpl; lia)) as (Hs & delay & Ht & Hd).
  split; [exact Hs |]. exists delay. split; [exact Ht |]. exact Hd.
Defined.

(** Five closes with 1013, each followed by its timer, use up the
    attempts: the sixth close ends in the error state. *)
Lemma sixth_close_reaches_ceiling :
  let retry h := onReconnectTimer (onClose 1013 EmptyString 0 h) in
  let h5 := retry (retry (retry (retry (retry (onOpen initial))))) in
  reconnectAttempts h5 = 5
  /\ reconnectScheduled (onClose 1013 EmptyString 0 h5) = false
  /\ connectionState (onClose 1013 EmptyString 0 h5) = "error"
  /\ error (onClose 1013 EmptyString 0 h5)
     = Some "Maximum reconnection attempts (5) reached".
Proof. vm_compute. done. Qed.

(** C4 as the spec words it fails: an abnormal closure (1006) schedules no
    reconnection; the hook goes to the error state. *)
Lemma abnormal_closure_is_not_retried :
  reconnectScheduled (onClose 1006 EmptyString (1 # 2) (onOpen initial)) = false
  /\ reconnectTimeout (onClose 1006 EmptyString (1 # 2) (onOpen initial)) = None
  /\ connectionState (onClose 1006 EmptyString (1 # 2) (onOpen initial)) = "error".
Proof. vm_compute. done. Qed.

End HookFacts.

(** ** The recorder *)

Module CaptureFacts.

Import Capture.

Lemma Qmax_case (x y : Q) :
  ((x < y)%Q /\ Qmax x y = y) \/ ((y <= x)%Q /\ Qmax x y = x).
Proof.
  unfold Qmax, GenericMinMax.gmax.
  destruct (Qcompare_spec x y) as [Heq | Hlt | Hgt].
  - right. split; [rewrite Heq; apply Qle_refl | reflexivity].
  - left. done.
  - right. split; [by apply Qlt_le_weak | reflexivity].
Qed.

Lemma Qmin_case (x y : Q) :
  ((y < x)%Q /\ Qmin x y = y) \/ ((x <= y)%Q /\ Qmin x y = x).
Proof.
  unfold Qmin, GenericMinMax.gmin.
  destruct (Qcompare_spec x y) as [Heq | Hlt | Hgt].
  - right. split; [rewrite Heq; apply Qle_refl | reflexivity].
  - right. split; [by apply Qlt_le_weak | reflexivity].
  - left. done.
Qed.

Lemma truncate_int (v : Q) (k : Z) : (v == inject_Z k)%Q -> truncate v = k.
Proof.
  unfold Qeq, truncate; simpl. intros Hv.
  rewrite Z.mul_1_r in Hv. rewrite Hv. apply Z.quot_mul. lia.
Qed.

Lemma quot_pos_spec (n d : Z) :
  (0 < d)%Z ->
  exists r, (n = d * Z.quot n d + r)%Z
            /\ ((0 <= n /\ 0 <= r < d /\ 0 <= Z.quot n d)
                \/ (n <= 0 /\ - d < r <= 0 /\ Z.quot n d <= 0))%Z.
Proof.
  intros Hd. exists (Z.rem n d). split; [apply Z.quot_rem'|].
  destruct (Z.le_ge_cases 0 n) as [Hn | Hn].
  - left. split; [done |]. split; [by apply Z.rem_bound_pos |].
    apply Z.quot_pos; lia.
  - right. split; [done |].
    pose proof (Z.rem_opp_l n d ltac:(lia)) as Hr.
    pose proof (Z.rem_bound_pos (- n) d ltac:(lia) Hd) as Hb.
    pose proof (Z.quot_opp_l n d ltac:(lia)) as Hq.
    pose proof (Z.quot_pos (- n) d ltac:(lia) Hd). lia.
Qed.

Lemma truncate_spec (v : Q) :
  (Z.abs (truncate v) * Zpos (Qden v) <= Z.abs (Qnum v))%Z
  /\ (Z.abs (Qnum v - truncate v * Zpos (Qden v)) < Zpos (Qden v))%Z
  /\ (0 <= Qnum v -> 0 <= truncate v)%Z
  /\ (Qnum v <= 0 -> truncate v <= 0)%Z.
Proof.
  unfold truncate. destruct v as [n d]; simpl.
  destruct (quot_pos_spec n (Zpos d) ltac:(lia)) as (r & Hn & Hcases).
  set (q := Z.quot n (Z.pos d)) in *. nia.
Qed.

Lemma toInt16_small (v : Q) :
  (-32768 <= truncate v <= 32767)%Z -> toInt16 v = truncate v.
Proof.
  intros Hv. unfold toInt16.
  destruct (Z.le_gt_cases 0 (truncate v)).
  - rewrite Z.mod_small by lia. destruct (Z.leb_spec 32768 (truncate v)); lia.
  - replace (truncate v mod 65536)%Z with (truncate v + 65536)%Z.
    + destruct (Z.leb_spec 32768 (truncate v + 65536)); lia.
    + apply (Z.mod_unique _ _ (-1)); lia.
Qed.

(** Bounds on the truncation of a rational between two integers. *)
Lemma truncate_bounds (v : Q) (a b : Z) :
  (a <= 0 <= b)%Z -> (inject_Z a <= v)%Q -> (v <= inject_Z b)%Q ->
  (a <= truncate v <= b)%Z.
Proof.
  intros Hab Ha Hb. pose proof (truncate_spec v) as (H1 & H2 & H3 & H4).
  unfold Qle in Ha, Hb; simpl in Ha, Hb.
  set (q := truncate v) in *. nia.
Qed.

Lemma Qabs_inject_le (v : Q) (k : Z) :
  (Z.abs k * Zpos (Qden v) <= Z.abs (Qnum v))%Z -> (Qabs (inject_Z k) <= Qabs v)%Q.
Proof. destruct v as [n d]. unfold Qle, Qabs, inject_Z; simpl. lia. Qed.

Lemma Qabs_diff_lt_1 (v : Q) (k : Z) :
  (Z.abs (Qnum v - k * Zpos (Qden v)) < Zpos (Qden v))%Z ->
  (Qabs (v - inject_Z k) < 1)%Q.
Proof.
  destruct v as [n d]. unfold Qlt, Qabs, Qminus, Qplus, Qopp, inject_Z; simpl.
  intros Hk. replace (n * 1 + - k * Z.pos d)%Z with (n - k * Z.pos d)%Z by lia.
  lia.
Qed.

(** The clamp followed by the store, for any product not below -32768. *)
Lemma clamp_then_store (v : Q) :
  (-32768 <= v)%Q ->
  let s := toInt16 (Qmax (-32768) (Qmin 32767 v)) in
  (-32768 <= s <= 32767)%Z
  /\ ((v <= 32767)%Q -> s = truncate v)
  /\ ((32767 <= v)%Q -> s = 32767%Z)
  /\ (Qabs (inject_Z s) <= Qabs v)%Q
  /\ ((v <= 32767)%Q -> (Qabs (v - inject_Z s) < 1)%Q).
Proof.
  intros Hlow s.
  assert ((v <= 32767)%Q -> s = truncate v) as Hin.
  { intros Hhigh. subst s.
    destruct (Qmin_case 32767 v) as [[Hlt ->] | [Hle ->]].
    - destruct (Qmax_case (-32768) v) as [[_ ->] | [Hle' ->]].
      + apply toInt16_small. apply truncate_bounds; [lia | done | done].
      + rewrite (truncate_int v (-32768)); [reflexivity |].
        apply Qle_antisym; done.
    - rewrite (truncate_int v 32767); [reflexivity |]. apply Qle_antisym; done. }
  assert ((32767 <= v)%Q -> s = 32767%Z) as Hsat.
  { intros Hhigh. subst s.
    destruct (Qmin_case 32767 v) as [[Hlt _] | [_ ->]]; [| reflexivity].
    exfalso. apply (Qlt_not_le _ _ Hlt Hhigh). }
  pose proof (truncate_spec v) as (Habs & Hdiff & _ & _).
  destruct (Qlt_le_dec 32767 v) as [Hbig | Hsmall].
  - pose proof (Hsat (Qlt_le_weak _ _ Hbig)) as Hs.
    split; [lia |]. split; [done |]. split; [done |]. split.
    + rewrite Hs. change (Qabs (inject_Z 32767)) with (32767 # 1).
      apply (Qle_trans _ v); [lra | apply Qle_Qabs].
    + intros Hle. exfalso. apply (Qlt_not_le _ _ Hbig Hle).
  - pose proof (Hin Hsmall) as Hs.
    pose proof (truncate_bounds v (-32768) 32767 ltac:(lia) Hlow Hsmall).
    split; [lia |]. split; [done |]. split; [done |]. split.
    + rewrite Hs. by apply Qabs_inject_le.
    + intros _. rewrite Hs. by apply Qabs_diff_lt_1.
Qed.

(** C6, as the code has it. A sample between -1 and 1 is scaled by
    32768, clamped to [-32768, 32767] and stored with its fraction
    dropped: the stored integer is the scaled sample truncated toward
    zero (never larger in magnitude, less than 1 away), and 32767 once
    the scaled sample reaches 32767; it always lies in the 16-bit range. *)
Theorem stored_truncates (x : Q) :
  (-1 <= x <= 1)%Q ->
  (-32768 <= stored x <= 32767)%Z
  /\ ((x * 32768 <= 32767)%Q -> stored x = truncate (x * 32768))
  /\ ((32767 <= x * 32768)%Q -> stored x = 32767%Z)
  /\ (Qabs (inject_Z (stored x)) <= Qabs (x * 32768))%Q
  /\ ((x * 32768 <= 32767)%Q -> (Qabs (x * 32768 - inject_Z (stored x)) < 1)%Q).
Proof.
  intros [Hlo Hhi]. apply (clamp_then_store (x * 32768)). lra.
Qed.

(** C6 at a sample whose scaled value is 1.75, and at both ends. *)
Lemma stored_truncates_witness :
  (-1 <= 7 # 131072 <= 1)%Q /\ stored (7 # 131072) = 1%Z /\ stored 1 = 32767%Z /\ stored (-1) = (-32768)%Z.
Proof.
  split; [split; discriminate |].
  pose proof (stored_truncates (7 # 131072) ltac:(split; discriminate)) as (_ & H & _).
  split; [| split; reflexivity].
  rewrite H; [reflexivity | discriminate].
Defined.

(** C6 as the spec words it fails: the sample 7/131072 scales to 1.75,
    and the integer stored is 1, which is not the nearest integer. *)
Lemma stored_is_not_nearest :
  ~ nearest (int16Value (7 # 131072)) (stored (7 # 131072)).
Proof. unfold nearest. vm_compute. intros Hle. apply Hle. reflexivity. Qed.

Lemma processChunk_app l1 l2 r :
  processChunk (l1 ++ l2) r = processChunk l2 (processChunk l1 r).
Proof. apply fold_left_app. Qed.

(** Samples that do not fill the buffer are written after the cursor. *)
Lemma processChunk_fill (l : list Q) : forall r,
  bufferWriteIndex r + length l < length (buffer r) ->
  chunks (processChunk l r) = chunks r
  /\ bufferWriteIndex (processChunk l r) = bufferWriteIndex r + length l
  /\ length (buffer (processChunk l r)) = length (buffer r)
  /\ retained (processChunk l r) = retained r ++ (stored <$> l).
Proof.
  induction l as [| x l IH]; intros r Hlen.
  - simpl. rewrite app_nil_r, Nat.add_0_r. done.
  - simpl in Hlen. change (processChunk (x :: l) r) with (processChunk l (processSample r x)).
    assert (processSample r x =
            {| buffer := <[bufferWriteIndex r := stored x]> (buffer r);
               bufferWriteIndex := S (bufferWriteIndex r);
               chunks := chunks r |}) as Hstep.
    { unfold processSample. rewrite length_insert.
      destruct (Nat.leb_spec (length (buffer r)) (S (bufferWriteIndex r))); [lia | done]. }
    rewrite Hstep.
    match goal with |- context [processChunk l ?q] => destruct (IH q) as (Hc & Hi & Hl & Hr) end.
    { simpl. rewrite length_insert. lia. }
    simpl in Hc, Hi, Hl, Hr. rewrite length_insert in Hl.
    split; [done |]. split; [rewrite Hi; simpl; lia |]. split; [done |].
    rewrite Hr. unfold retained at 1; simpl.
    rewrite (take_S_r _ _ (stored x)) by (apply list_lookup_insert_eq; lia).
    rewrite take_insert_ge by lia. unfold retained. by rewrite <- app_assoc.
Qed.

(** The sample that fills the buffer sends it whole and resets the cursor. *)
Lemma processChunk_full (l : list Q) (x : Q) r :
  S (bufferWriteIndex r + length l) = length (buffer r) ->
  chunks (processChunk (l ++ [x]) r) = chunks r ++ [retained r ++ (stored <$> l ++ [x])]
  /\ bufferWriteIndex (processChunk (l ++ [x]) r) = 0
  /\ length (buffer (processChunk (l ++ [x]) r)) = length (buffer r).
Proof.
  intros Hlen. rewrite processChunk_app.
  destruct (processChunk_fill l r ltac:(lia)) as (Hc & Hi & Hl & Hr).
  set (r1 := processChunk l r) in *.
  change (processChunk [x] r1) with (processSample r1 x).
  unfold processSample. rewrite length_insert, Hl, Hi.
  destruct (Nat.leb_spec (length (buffer r)) (S (bufferWriteIndex r + length l))); [| lia].
  simpl. rewrite length_insert, Hc. split; [| done]. f_equal. f_equal.
  rewrite (take_S_r _ _ (stored x)) by (apply list_lookup_insert_eq; lia).
  rewrite take_insert_ge by lia. rewrite <- Hi. fold (retained r1).
  rewrite Hr, fmap_app. by rewrite <- app_assoc.
Qed.

Lemma processChunk_block (l : list Q) r :
  bufferWriteIndex r = 0 -> length l = length (buffer r) -> l <> [] ->
  chunks (processChunk l r) = chunks r ++ [stored <$> l]
  /\ bufferWriteIndex (processChunk l r) = 0
  /\ length (buffer (processChunk l r)) = length (buffer r).
Proof.
  intros Hi Hlen Hne.
  destruct (exists_last Hne) as (l0 & x & ->).
  rewrite length_app in Hlen; simpl in Hlen.
  destruct (processChunk_full l0 x r ltac:(lia)) as (Hc & Hi' & Hl).
  split; [| done]. rewrite Hc. unfold retained. rewrite Hi. by rewrite take_0.
Qed.

(** Both recording paths run the same loop. *)
Lemma onaudioprocess_processChunk inputData r :
  onaudioprocess inputData r = processChunk inputData r.
Proof. reflexivity. Qed.

(** C9. Any 5000 samples given to a new recorder make it post exactly two
    chunks, the first and the second 2048 converted samples, and leave the
    remaining 904 in the buffer with the cursor at 904. *)
Theorem five_thousand_samples (l : list Q) :
  length l = 5000 ->
  let r := processChunk l create in
  chunks r = [stored <$> take 2048 l; stored <$> take 2048 (drop 2048 l)]
  /\ Forall (fun c => length c = AUDIO_BUFFER_SIZE) (chunks r)
  /\ bufferWriteIndex r = 904
  /\ retained r = stored <$> drop 4096 l.
Proof.
  intros Hlen r.
  assert (l = take 2048 l ++ take 2048 (drop 2048 l) ++ drop 4096 l) as Hsplit.
  { rewrite <- (take_drop 2048 l) at 1. f_equal.
    rewrite <- (take_drop 2048 (drop 2048 l)) at 1. f_equal.
    by rewrite drop_drop. }
  set (l1 := take 2048 l) in *. set (l2 := take 2048 (drop 2048 l)) in *.
  set (l3 := drop 4096 l) in *.
  assert (length l1 = 2048) as H1 by (subst l1; rewrite length_take; lia).
  assert (length l2 = 2048) as H2
    by (subst l2; rewrite length_take, length_drop; lia).
  assert (length l3 = 904) as H3 by (subst l3; rewrite length_drop; lia).
  assert (length (buffer create) = 2048) as Hb
    by exact (length_replicate AUDIO_BUFFER_SIZE 0%Z).
  subst r. rewrite Hsplit, !processChunk_app.
  destruct (processChunk_block l1 create eq_refl ltac:(lia)) as (Hc1 & Hi1 & Hl1).
  { intros ->. simpl in H1. lia. }
  set (r1 := processChunk l1 create) in *.
  destruct (processChunk_block l2 r1 Hi1 ltac:(lia)) as (Hc2 & Hi2 & Hl2).
  { intros ->. simpl in H2. lia. }
  set (r2 := processChunk l2 r1) in *.
  destruct (processChunk_fill l3 r2 ltac:(lia)) as (Hc3 & Hi3 & Hl3 & Hr3).
  rewrite Hc3, Hc2, Hc1, Hi3, Hi2, Hr3, H3.
  split; [done |]. split.
  - repeat constructor; rewrite length_fmap; done.
  - split; [done |]. unfold retained. rewrite Hi2. by rewrite take_0.
Qed.

(** C9 on 5000 samples of silence. *)
Lemma five_thousand_samples_witness :
  length (replicate 5000 (0 : Q)) = 5000
  /\ chunks (processChunk (replicate 5000 0%Q) create)
     = [replicate 2048 0%Z; replicate 2048 0%Z]
  /\ bufferWriteIndex (processChunk (replicate 5000 0%Q) create) = 904
  /\ retained (processChunk (replicate 5000 0%Q) create) = replicate 904 0%Z.
Proof.
  split; [apply length_replicate |].
  destruct (five_thousand_samples (replicate 5000 0%Q) (length_replicate _ _))
    as (Hc & _ & Hi & Hr).
  rewrite Hc, Hi, Hr. repeat split; vm_compute; reflexivity.
Defined.

End CaptureFacts.

(** ** The playback scheduler *)

Module StreamerFacts.

Import Streamer.

Lemma duration_nonneg (n : nat) (sampleRate : Z) :
  (0 < sampleRate)%Z -> (0 <= duration n sampleRate)%Q.
Proof.
  intros Hr. unfold duration.
  apply Qle_shift_div_l.
  - change 0%Q with (inject_Z 0). rewrite <- Zlt_Qlt. done.
  - rewrite Qmult_0_l. change 0%Q with (inject_Z 0). rewrite <- Zle_Qle. lia.
Qed.

Lemma extends_refl s : extends s s [].
Proof.
  unfold extends. rewrite app_nil_r. repeat split; [constructor | constructor].
Qed.

Lemma chain_app c l1 c1 l2 c2 :
  chain c l1 c1 -> chain c1 l2 c2 -> chain c (l1 ++ l2) c2.
Proof.
  induction 1 as [c | c x l c' Hx Hl IH]; intros H2; [done |].
  simpl. constructor; [done |]. by apply IH.
Qed.

Lemma extends_trans s1 s2 s3 l1 l2 :
  extends s1 s2 l1 -> extends s2 s3 l2 -> extends s1 s3 (l1 ++ l2).
Proof.
  intros (Hs1 & Hc1 & Hr1 & Hsr1) (Hs2 & Hc2 & Hr2 & Hsr2).
  unfold extends. rewrite Hs2, Hs1, <- app_assoc. split; [done |].
  split; [by eapply chain_app |]. split; [| congruence].
  apply Forall_app. split; [done |]. by rewrite <- Hsr1.
Qed.

(** A change that touches neither the log nor the cursor nor the rate. *)
Lemma extends_same s s' :
  started s' = started s -> scheduledTime s' = scheduledTime s ->
  sampleRate s' = sampleRate s -> extends s s' [].
Proof.
  intros Hs Hc Hr. unfold extends. rewrite Hs, Hc, app_nil_r.
  repeat split; [constructor | constructor | done].
Qed.

Lemma scheduleOne_extends now audioData rest s :
  exists x, extends s (scheduleOne now audioData rest s) [x]
            /\ calledAt x = now /\ samples x = audioData.
Proof.
  exists {| id := nextSource s; calledAt := now;
            startTime := Qmax (scheduledTime s) now; samples := audioData;
            rate := sampleRate s |}.
  split; [| split; reflexivity].
  unfold extends, scheduleOne; simpl. split; [reflexivity |].
  split; [| split; [repeat constructor | reflexivity]].
  constructor; [reflexivity |]. unfold endTime; simpl. constructor.
Qed.

Lemma scheduleLoop_extends now queue : forall s,
  exists news, extends s (scheduleLoop now queue s) news
               /\ Forall (fun x => calledAt x = now) news.
Proof.
  induction queue as [| audioData rest IH]; intros s; simpl.
  - exists []. split; [apply extends_refl | constructor].
  - destruct (Qlt_le_dec _ _).
    + destruct (scheduleOne_extends now audioData rest s) as (x & Hx & Hnow & _).
      destruct (IH (scheduleOne now audioData rest s)) as (news & Hnews & Hall).
      exists ([x] ++ news). split; [by eapply extends_trans |].
      constructor; done.
    + exists []. split; [apply extends_refl | constructor].
Qed.

Lemma scheduleLoop_isPlaying now queue : forall s,
  isPlaying (scheduleLoop now queue s) = isPlaying s.
Proof.
  induction queue as [| audioData rest IH]; intros s; simpl; [done |].
  destruct (Qlt_le_dec _ _); [| done]. by rewrite IH.
Qed.

Lemma rearm_extends now s : extends s (rearm now s) [].
Proof.
  unfold rearm. destruct (isPlaying s && _ && _); [by apply extends_same |].
  destruct (isPlaying s && _); [by apply extends_same | apply extends_refl].
Qed.

Lemma scheduleNextBuffer_extends now s :
  exists news, extends s (scheduleNextBuffer now s) news.
Proof.
  unfold scheduleNextBuffer. destruct (negb (running s) || negb (isPlaying s)).
  - exists []. apply extends_refl.
  - destruct (scheduleLoop_extends now (audioQueue s) s) as (news & Hnews & _).
    exists (news ++ []). eapply extends_trans; [done | apply rearm_extends].
Qed.

(** While playback is active, every event extends the log from the
    cursor: no event moves the cursor otherwise. *)
Lemma step_extends s e :
  isPlaying s = true -> exists news, extends s (step s e) news.
Proof.
  intros Hplay. destruct e as [now chunk | now | now | i | now]; simpl.
  - unfold addPCM16Data. destruct (negb (running s)); [exists []; apply extends_refl |].
    destruct (slice _ _ _ _) as [queue buf]. rewrite Hplay; simpl.
    match goal with |- context [scheduleNextBuffer now ?s1] =>
      destruct (scheduleNextBuffer_extends now s1) as (news & Hnews);
      exists ([] ++ news); eapply extends_trans; [| exact Hnews]
    end.
    by apply extends_same.
  - apply scheduleNextBuffer_extends.
  - unfold intervalTick. destruct (negb (checkInterval s)); [exists []; apply extends_refl |].
    destruct (_ || _); [apply scheduleNextBuffer_extends |].
    exists []. destruct (negb (isPlaying s)); [by apply extends_same | apply extends_refl].
  - exists []. unfold sourceEnded.
    destruct (_ && _); [by apply extends_same | apply extends_refl].
  - exists []. by apply extends_same.
Qed.

Lemma streamer_run_cons s e es : run s (e :: es) = run (step s e) es.
Proof. reflexivity. Qed.

Lemma run_extends es : forall s,
  active s es -> exists news, extends s (run s es) news.
Proof.
  induction es as [| e es IH]; intros s Hact.
  - exists []. apply extends_refl.
  - destruct Hact as [Hplay Hact]. rewrite streamer_run_cons.
    destruct (step_extends s e Hplay) as (l1 & H1).
    destruct (IH _ Hact) as (l2 & H2).
    exists (l1 ++ l2). by eapply extends_trans.
Qed.

Lemma extends_newly s s' news : extends s s' news -> newly s s' = news.
Proof. intros (Hs & _). unfold newly. rewrite Hs. by rewrite drop_app_length. Qed.

(** Along a chain of sources of positive rate the cursor never moves
    back, and no source starts before the clock reading of its call. *)
Lemma chain_monotone c l c' :
  chain c l c' ->
  Forall (fun x => (0 < rate x)%Z) l ->
  (c <= c')%Q /\ Forall (fun x => (calledAt x <= startTime x)%Q) l.
Proof.
  induction 1 as [c | c x l c' Hx Hl IH]; intros Hrate.
  - split; [apply Qle_refl | constructor].
  - inversion Hrate as [| ? ? Hrx Hrl]; subst.
    destruct (IH Hrl) as [Hle Hall].
    pose proof (duration_nonneg (length (samples x)) (rate x) Hrx) as Hd.
    pose proof (Q.le_max_l c (calledAt x)) as Hl1.
    pose proof (Q.le_max_r c (calledAt x)) as Hl2.
    unfold endTime in Hle. rewrite Hx in Hle. split.
    + lra.
    + constructor; [by rewrite Hx | done].
Qed.

(** In a chain, a source starts at the end of the one before it, or at
    the clock reading of its call when that is later. *)
Lemma chain_adjacent c l c' :
  chain c l c' ->
  forall i x y, l !! i = Some x -> l !! S i = Some y ->
    startTime y = Qmax (endTime x) (calledAt y).
Proof.
  induction 1 as [c | c x0 l c' Hx Hl IH]; intros i x y Hi Hj; [done |].
  destruct i as [| i]; simpl in Hi, Hj.
  - injection Hi as <-. destruct Hl as [| c1 y0 l c2 Hy _]; [done |].
    simpl in Hj. injection Hj as <-. done.
  - by eapply IH.
Qed.

(** C7. While playback is active, the sources started form a chain from
    the cursor: each starts at the later of the cursor and the clock
    reading of its call and moves the cursor to its own end. So a block
    starts exactly at the end of the one before it unless the clock has
    passed that point, in which case it starts at the clock reading; no
    block starts before the clock reading of its call; and the cursor
    never moves back. *)
Theorem cursor_chain s es :
  (0 < sampleRate s)%Z -> active s es ->
  let l := newly s (run s es) in
  chain (scheduledTime s) l (scheduledTime (run s es))
  /\ (forall i x y, l !! i = Some x -> l !! S i = Some y ->
        startTime y = Qmax (endTime x) (calledAt y)
        /\ (endTime x <= startTime y)%Q
        /\ ((calledAt y <= endTime x)%Q -> (startTime y == endTime x)%Q))
  /\ Forall (fun x => (calledAt x <= startTime x)%Q) l
  /\ (scheduledTime s <= scheduledTime (run s es))%Q.
Proof.
  intros Hrate Hact l.
  destruct (run_extends es s Hact) as (news & Hext).
  subst l. rewrite (extends_newly _ _ _ Hext).
  destruct Hext as (_ & Hchain & Hrates & _).
  assert (Forall (fun x => (0 < rate x)%Z) news) as Hpos.
  { eapply Forall_impl; [exact Hrates |]. simpl. intros x ->. done. }
  destruct (chain_monotone _ _ _ Hchain Hpos) as [Hle Hnow].
  split; [done |]. split; [| done].
  intros i x y Hi Hj. pose proof (chain_adjacent _ _ _ Hchain i x y Hi Hj) as Hy.
  split; [done |]. rewrite Hy. split; [apply Q.le_max_l |].
  intros Hlate. by apply Q.max_l.
Qed.

(** C7 on a playing streamer with two blocks queued whose timer fires
    after the cursor fell behind the clock. *)
Lemma cursor_chain_witness :
  (0 < sampleRate Samples.playing)%Z
  /\ active Samples.playing [TimeoutFired 2]
  /\ playback (newly Samples.playing (run Samples.playing [TimeoutFired 2]))
     = [(Qmax 1 2, [1 # 2; 1 # 4]%Q);
        (Qmax (Qmax 1 2 + duration 2 24000) 2, [0; 0]%Q)]
  /\ (scheduledTime Samples.playing
      <= scheduledTime (run Samples.playing [TimeoutFired 2]))%Q.
Proof.
  assert (active Samples.playing [TimeoutFired 2]) as Hact by (split; done).
  destruct (cursor_chain Samples.playing [TimeoutFired 2] ltac:(done) Hact)
    as (_ & _ & _ & Hle).
  split; [done |]. split; [exact Hact |]. split; [reflexivity | exact Hle].
Defined.

(** *** The slicing loop *)

(** With a positive block size, as many rounds as there are samples let
    the loop run to its exit: less than a block is left. *)
Lemma slice_exits size rounds : forall queue (buf : list Q),
  0 < size -> length buf <= rounds ->
  length (slice rounds size queue buf).2 < size.
Proof.
  induction rounds as [| rounds IH]; intros queue buf Hsize Hlen; simpl.
  - lia.
  - destruct (Nat.leb_spec size (length buf)); simpl; [| done].
    apply IH; [done |]. rewrite length_drop. lia.
Qed.

(** The blocks cut are whole, in order, and no sample is lost. *)
Lemma slice_concat size rounds : forall queue (buf : list Q),
  concat (slice rounds size queue buf).1 ++ (slice rounds size queue buf).2
  = concat queue ++ buf.
Proof.
  induction rounds as [| rounds IH]; intros queue buf; simpl; [done |].
  destruct (Nat.leb_spec size (length buf)); simpl; [| done].
  rewrite IH, concat_app; simpl. rewrite app_nil_r, <- app_assoc.
  by rewrite take_drop.
Qed.

(** Destructs an equation between two scheduler views into its parts. *)
Ltac view_eq H :=
  unfold schedulerView in H; simplify_eq H;
  intros ? ? ? ? ? ? ? ? ?.

Lemma scheduleOne_view now audioData rest a b :
  schedulerView a = schedulerView b ->
  schedulerView (scheduleOne now audioData rest a)
  = schedulerView (scheduleOne now audioData rest b).
Proof.
  intros Hv. view_eq Hv. unfold schedulerView, scheduleOne; simpl. congruence.
Qed.

(** Two streamers with the same view schedule the same blocks at the same
    times, and end with the same view. *)
Lemma scheduleLoop_view now queue : forall a b,
  schedulerView a = schedulerView b ->
  schedulerView (scheduleLoop now queue a) = schedulerView (scheduleLoop now queue b)
  /\ exists la lb,
       started (scheduleLoop now queue a) = started a ++ la
       /\ started (scheduleLoop now queue b) = started b ++ lb
       /\ playback la = playback lb.
Proof.
  induction queue as [| audioData rest IH]; intros a b Hv; simpl.
  - split; [done |]. exists [], []. by rewrite !app_nil_r.
  - assert (scheduledTime a = scheduledTime b) as Hc by (view_eq Hv; congruence).
    rewrite Hc. destruct (Qlt_le_dec _ _).
    + destruct (IH _ _ (scheduleOne_view now audioData rest a b Hv))
        as (Hv' & la & lb & Ha & Hb & Hp).
      split; [done |]. rewrite Ha, Hb. eexists (_ :: la), (_ :: lb).
      split; [unfold scheduleOne; simpl; rewrite <- app_assoc; reflexivity |].
      split; [unfold scheduleOne; simpl; rewrite <- app_assoc; reflexivity |].
      simpl. rewrite Hp, Hc. reflexivity.
    + split; [done |]. exists [], []. by rewrite !app_nil_r.
Qed.

Lemma rearm_view now a b :
  schedulerView a = schedulerView b ->
  schedulerView (rearm now a) = schedulerView (rearm now b)
  /\ started (rearm now a) = started a /\ started (rearm now b) = started b.
Proof.
  intros Hv. view_eq Hv. unfold rearm.
  repeat match goal with H : _ = _ |- _ => rewrite H end.
  destruct (isPlaying b && _ && _); [by unfold schedulerView; simpl; repeat split; congruence |].
  destruct (isPlaying b && _); unfold schedulerView; simpl; repeat split; congruence.
Qed.

Lemma scheduleNextBuffer_view now a b :
  schedulerView a = schedulerView b ->
  schedulerView (scheduleNextBuffer now a) = schedulerView (scheduleNextBuffer now b)
  /\ playback (newly a (scheduleNextBuffer now a))
     = playback (newly b (scheduleNextBuffer now b)).
Proof.
  intros Hv. unfold scheduleNextBuffer.
  assert (running a = running b /\ isPlaying a = isPlaying b
          /\ audioQueue a = audioQueue b) as (-> & -> & ->)
    by (view_eq Hv; repeat split; congruence).
  destruct (negb (running b) || negb (isPlaying b)).
  - split; [done |]. unfold newly. by rewrite !drop_all.
  - destruct (scheduleLoop_view now (audioQueue b) a b Hv)
      as (Hv' & la & lb & Ha & Hb & Hp).
    destruct (rearm_view now _ _ Hv') as (Hv'' & Hra & Hrb).
    split; [done |]. unfold newly. rewrite Hra, Hrb, Ha, Hb.
    by rewrite !drop_app_length.
Qed.

(** The view of a stopped streamer is that of a new one, but for the
    stale cursor. *)
Lemma stop_view now s :
  schedulingState (stop now s) = schedulingState (fresh s)
  /\ sampleRate (stop now s) = sampleRate (fresh s)
  /\ running (stop now s) = running (fresh s)
  /\ bufferSize (stop now s) = bufferSize (fresh s)
  /\ initialBufferTime (stop now s) = initialBufferTime (fresh s).
Proof. done. Qed.

(** What [stop] does at once, and how audio that arrives afterwards is
    scheduled: as on a new streamer, with the same scheduling state, the
    same blocks at the same start times, and the same cursor once
    playing. *)
Lemma stop_resets (s : streamer) (now : Q) :
  let s' := stop now s in
  audioQueue s' = [] /\ processingBuffer s' = []
  /\ isPlaying s' = false /\ checkInterval s' = false
  /\ started s' = started s
  /\ gain s' = (if gainNode s && running s
                then gain s ++ [SetCurrentValueAtTime now;
                                LinearRampToValueAtTime 0 (now + (1 # 10))]
                else gain s)
  /\ forall now' chunk,
       let a := addPCM16Data now' chunk s' in
       let b := addPCM16Data now' chunk (fresh s) in
       schedulingState a = schedulingState b
       /\ playback (newly s' a) = playback (newly (fresh s) b)
       /\ (isPlaying a = true -> scheduledTime a = scheduledTime b).
Proof.
  intros s'. repeat (split; [reflexivity |]).
  intros now' chunk a b. subst a b s'. unfold addPCM16Data.
  change (running (stop now s)) with (running s).
  change (running (fresh s)) with (running s).
  destruct (negb (running s)).
  { split; [done |]. split; [| done]. unfold newly. by rewrite !drop_all. }
  simpl. destruct (slice _ _ _ _) as [queue buf]. simpl.
  destruct queue as [| block queue]; simpl.
  - split; [done |]. split; [| done]. unfold newly; simpl. by rewrite !drop_all.
  - match goal with |- context [schedulingState (scheduleNextBuffer now' ?x) =
                                 schedulingState (scheduleNextBuffer now' ?y)] =>
      destruct (scheduleNextBuffer_view now' x y eq_refl) as (Hv & Hp)
    end.
    split; [| split; [exact Hp |]].
    + view_eq Hv. unfold schedulingState. congruence.
    + intros _. view_eq Hv. congruence.
Qed.

(** *** The gain automation *)

Lemma gain_scheduleLoop now queue : forall s,
  gain (scheduleLoop now queue s) = gain s.
Proof.
  induction queue as [| audioData rest IH]; intros s; simpl; [done |].
  destruct (Qlt_le_dec _ _); [| done]. by rewrite IH.
Qed.

Lemma gain_rearm now s : gain (rearm now s) = gain s.
Proof.
  unfold rearm. destruct (isPlaying s && _ && _); [done |].
  by destruct (isPlaying s && _).
Qed.

Lemma gain_scheduleNextBuffer now s : gain (scheduleNextBuffer now s) = gain s.
Proof.
  unfold scheduleNextBuffer. destruct (_ || _); [done |].
  by rewrite gain_rearm, gain_scheduleLoop.
Qed.

(** Only [stop] asks anything of the gain: the ramp to 0 it leaves is not
    followed by any other automation when audio arrives again. *)
Lemma gain_only_moved_by_stop s e :
  (forall now, e <> Stop now) -> gain (step s e) = gain s.
Proof.
  intros Hstop. destruct e as [now chunk | now | now | i | now]; simpl.
  - unfold addPCM16Data. destruct (negb (running s)); [done |].
    destruct (slice _ _ _ _) as [queue buf].
    destruct (_ || _); [by rewrite gain_scheduleNextBuffer | done].
  - apply gain_scheduleNextBuffer.
  - unfold intervalTick. destruct (negb (checkInterval s)); [done |].
    destruct (_ || _); [apply gain_scheduleNextBuffer |].
    by destruct (negb (isPlaying s)).
  - unfold sourceEnded. by destruct (_ && _).
  - by destruct (Hstop now).
Qed.

Lemma rampedToZero_step s e : rampedToZero s -> rampedToZero (step s e).
Proof.
  intros Hs. destruct e as [now chunk | now | now | i | now];
    try (unfold rampedToZero; rewrite gain_only_moved_by_stop; [done | discriminate]).
  unfold rampedToZero. unfold step, stop; simpl.
  destruct (gainNode s); [| done]. destruct (running s); [| done]. simpl.
  exists (now + (1 # 10))%Q.
  change [SetCurrentValueAtTime now; LinearRampToValueAtTime 0 (now + (1 # 10))]
    with ([SetCurrentValueAtTime now] ++ [LinearRampToValueAtTime 0 (now + (1 # 10))]).
  rewrite app_assoc. apply last_snoc.
Qed.

Lemma rampedToZero_run es : forall s, rampedToZero s -> rampedToZero (run s es).
Proof.
  induction es as [| e es IH]; intros s Hs; [done |].
  rewrite streamer_run_cons. apply IH. by apply rampedToZero_step.
Qed.

(** C8, as the code has it. With a gain node on a running context,
    [stop] empties the queue and the reassembly buffer at once, ends
    playback, holds the gain at its current value and ramps it to 0 over
    the next 0.1 s. Audio that arrives afterwards is scheduled as on a
    new streamer, with the same blocks at the same start times; but
    whatever happens after the stop, the last thing asked of the gain is
    still a ramp to 0: the blocks of the later stream go through a gain
    of 0. *)
Theorem stop_leaves_gain_at_zero (s : streamer) (now : Q) :
  gainNode s = true -> running s = true ->
  let s' := stop now s in
  audioQueue s' = [] /\ processingBuffer s' = [] /\ isPlaying s' = false
  /\ gain s' = gain s ++ [SetCurrentValueAtTime now;
                          LinearRampToValueAtTime 0 (now + (1 # 10))]
  /\ (forall now' chunk,
        playback (newly s' (addPCM16Data now' chunk s'))
        = playback (newly (fresh s) (addPCM16Data now' chunk (fresh s))))
  /\ (forall es, rampedToZero (run s' es)).
Proof.
  intros Hnode Hrun s'.
  destruct (stop_resets s now) as (Hq & Hb & Hp & _ & _ & _ & Hnext).
  fold s' in Hq, Hb, Hp, Hnext.
  assert (gain s' = gain s ++ [SetCurrentValueAtTime now;
                               LinearRampToValueAtTime 0 (now + (1 # 10))]) as Hg
    by (subst s'; unfold stop; simpl; by rewrite Hnode, Hrun).
  split; [exact Hq |]. split; [exact Hb |]. split; [exact Hp |].
  split; [exact Hg |]. split.
  - intros now' chunk. by destruct (Hnext now' chunk) as (_ & Hplay & _).
  - intros es. apply rampedToZero_run. unfold rampedToZero. rewrite Hg.
    exists (now + (1 # 10))%Q.
    change [SetCurrentValueAtTime now; LinearRampToValueAtTime 0 (now + (1 # 10))]
      with ([SetCurrentValueAtTime now] ++ [LinearRampToValueAtTime 0 (now + (1 # 10))]).
    rewrite app_assoc. apply last_snoc.
Qed.

(** C8 on a streamer stopped mid-playback at time 2 that receives three
    samples at time 3: a block is started, and the gain was last asked to
    go to 0 at 2.1. *)
Lemma stop_leaves_gain_at_zero_witness :
  let s' := stop 2 Samples.playing in
  let chunk := [Byte.x00; Byte.x40; Byte.x00; Byte.xc0; Byte.xff; Byte.x7f]%list in
  gainNode Samples.playing = true /\ running Samples.playing = true
  /\ length (newly s' (addPCM16Data 3 chunk s')) = 1
  /\ gain (addPCM16Data 3 chunk s')
     = [SetCurrentValueAtTime 2; LinearRampToValueAtTime 0 (2 + (1 # 10))]
  /\ rampedToZero (run s' [AddPCM16Data 3 chunk]).
Proof.
  intros s' chunk.
  destruct (stop_leaves_gain_at_zero Samples.playing 2%Q eq_refl eq_refl)
    as (_ & _ & _ & _ & _ & Hzero).
  split; [reflexivity |]. split; [reflexivity |]. split; [reflexivity |].
  split; [reflexivity |]. exact (Hzero [AddPCM16Data 3 chunk]).
Defined.

End StreamerFacts.

(** * Further properties *)

(** ** The minimal relay *)

Module RelayMore.
Section WithPlatform.
Context `{Platform}.

Import Relay.

Lemma validCode_range code :
  (1000 <= validCode code <= 4999)%Z /\ validCode code ∉ invalidCodes.
Proof.
  unfold invalidCodes.
  assert ((1000 <= 1000 <= 4999)%Z /\ 1000%Z ∉ [1005; 1006; 1015]%Z) as Hdefault.
  { split; [lia |]. rewrite !not_elem_of_cons. repeat split; try lia. apply not_elem_of_nil. }
  destruct code as [| c | s | b]; try exact Hdefault.
  unfold validCode, invalidCodes; simpl.
  destruct (Z.leb_spec 1000 c); [| exact Hdefault].
  destruct (Z.leb_spec c 4999); [| exact Hdefault].
  destruct (Z.eqb_spec c 1005); [exact Hdefault |].
  destruct (Z.eqb_spec c 1006); [exact Hdefault |].
  destruct (Z.eqb_spec c 1015); [exact Hdefault |].
  simpl. split; [lia |]. rewrite !not_elem_of_cons. repeat split; try done.
  apply not_elem_of_nil.
Qed.

(** X1. Whatever code and reason it is given, [safeClose] asks the socket
    to close with a code from 1000 to 4999 that is none of 1005, 1006,
    1015; it makes at most one further call, the bare [close()], and it
    never sends a frame. *)
Theorem safeClose_requests_valid_code ws code reason :
  exists c r fallback,
    Ws.calls (safeClose ws code reason) = Ws.calls ws ++ (Ws.Close c r :: fallback)
    /\ (1000 <= c <= 4999)%Z /\ (c ∉ invalidCodes)
    /\ (fallback = [] \/ fallback = [Ws.CloseNoArgs])
    /\ Ws.sent (safeClose ws code reason) = Ws.sent ws.
Proof.
  exists (validCode code), (validReason reason). eexists.
  split; [apply RelayFacts.calls_safeClose |].
  destruct (validCode_range code) as [Hr Hn].
  split; [done |]. split; [done |].
  split; [destruct (closeThrows _ _); auto | apply RelayFacts.sent_safeClose].
Qed.

(** Before the upstream socket has opened nothing is sent upstream,
    whatever the client sends. *)
Lemma nothing_sent_before_open msgs : forall r,
  googleWsReady r = false ->
  googleWsReady (run r (ClientMessage <$> msgs)) = false
  /\ Ws.sent (googleWs (run r (ClientMessage <$> msgs))) = Ws.sent (googleWs r)
  /\ clientWs (run r (ClientMessage <$> msgs)) = clientWs r.
Proof.
  induction msgs as [| m msgs IH]; intros r Hr; [done |].
  rewrite fmap_cons, RelayFacts.run_cons.
  assert (googleWsReady (step r (ClientMessage m)) = false
          /\ Ws.sent (googleWs (step r (ClientMessage m))) = Ws.sent (googleWs r)
          /\ clientWs (step r (ClientMessage m)) = clientWs r) as (H1 & H2 & H3).
  { unfold step, arrive, onClientMessage. rewrite Hr.
    destruct (parsesAsDisconnect _); simpl.
    - by rewrite RelayFacts.sent_safeClose.
    - destruct (negb (isIntentionalDisconnect r)); done. }
  destruct (IH _ H1) as (? & ? & ?). repeat split; congruence.
Qed.

Lemma is_open_flush queue : forall ws,
  Ws.is_open (flush queue ws) = Ws.is_open ws.
Proof. induction queue as [| m queue IH]; intros ws; simpl; [done |]. by rewrite IH. Qed.

(** Once the upstream socket is open, a frame that is no notice is sent
    at once. *)
Lemma run_forwards msgs : forall r,
  googleWsReady r = true -> Ws.is_open (googleWs r) = true ->
  isIntentionalDisconnect r = false ->
  Forall (fun m => parsesAsDisconnect (Js.toString m) = false) msgs ->
  Ws.sent (googleWs (run r (ClientMessage <$> msgs))) = Ws.sent (googleWs r) ++ msgs
  /\ messageQueue (run r (ClientMessage <$> msgs)) = messageQueue r.
Proof.
  induction msgs as [| m msgs IH]; intros r Hr Ho Hi Hall.
  - simpl. by rewrite app_nil_r.
  - inversion Hall as [| ? ? Hm Hrest]; subst.
    rewrite fmap_cons, RelayFacts.run_cons.
    assert (step r (ClientMessage m) =
            {| clientWs := clientWs r; googleWs := Ws.send m (googleWs r);
               messageQueue := messageQueue r; googleWsReady := googleWsReady r;
               isIntentionalDisconnect := isIntentionalDisconnect r |}) as ->.
    { unfold step, arrive, onClientMessage. by rewrite Hm, Hr, Ho, Hi. }
    match goal with |- context [run ?q _] =>
      destruct (IH q) as [-> ->]; simpl; try done end.
    rewrite WsFacts.sent_send. by rewrite <- app_assoc.
Qed.

(** X2. The minimal relay keeps arrival order across the opening of the
    upstream socket: the frames queued before it and the frames forwarded
    after it reach upstream as one sequence, each once. *)
Theorem frames_in_arrival_order (early late : list Js.value) :
  Forall (fun m => parsesAsDisconnect (Js.toString m) = false) (early ++ late) ->
  Ws.sent (googleWs (run connection
    ((ClientMessage <$> early) ++ [GoogleOpen] ++ (ClientMessage <$> late))))
  = early ++ late.
Proof.
  intros Hall. apply Forall_app in Hall as [He Hl].
  rewrite !RelayFacts.run_app.
  rewrite (RelayFacts.run_queues early connection eq_refl eq_refl He).
  change (run ?r [GoogleOpen]) with (step r GoogleOpen).
  unfold step at 1, arrive, onGoogleOpen; simpl.
  match goal with |- context [run ?q _] =>
    destruct (run_forwards late q eq_refl (is_open_flush _ _) eq_refl Hl) as [-> _] end.
  simpl. by rewrite RelayFacts.sent_flush.
Qed.

(** X3. When the client socket closes before the upstream socket has
    opened, what was queued is discarded: nothing is sent when the
    upstream socket opens afterwards. *)
Theorem client_close_discards_queue (msgs : list Js.value) code reason :
  let r := run connection
             ((ClientMessage <$> msgs) ++ [ClientClose code reason; GoogleOpen]) in
  Ws.sent (googleWs r) = [] /\ messageQueue r = [].
Proof.
  intros r. subst r. rewrite RelayFacts.run_app.
  destruct (nothing_sent_before_open msgs connection eq_refl) as (Hr & Hs & _).
  set (r1 := run connection (ClientMessage <$> msgs)) in *.
  rewrite RelayFacts.run_cons.
  change (run ?r [GoogleOpen]) with (step r GoogleOpen).
  unfold step, arrive, onGoogleOpen, onClientClose; simpl.
  split; [| done]. rewrite WsFacts.sent_with_state.
  destruct (Ws.is_open _); rewrite ?RelayFacts.sent_safeClose, Hs; done.
Qed.

(** X4. Without a disconnect notice, the frames upstream sends reach an
    open client socket in order, each once; when the client socket is not
    open they are dropped and the relay is left as it was. *)
Theorem upstream_frames_reach_client (frames : list Js.value) r :
  isIntentionalDisconnect r = false ->
  (Ws.is_open (clientWs r) = true ->
   Ws.sent (clientWs (run r (GoogleMessage <$> frames))) = Ws.sent (clientWs r) ++ frames)
  /\ (Ws.is_open (clientWs r) = false -> run r (GoogleMessage <$> frames) = r).
Proof.
  intros Hi. split; intros Ho.
  - revert r Hi Ho. induction frames as [| d frames IH]; intros r Hi Ho.
    + simpl. by rewrite app_nil_r.
    + rewrite fmap_cons, RelayFacts.run_cons.
      assert (step r (GoogleMessage d) =
              {| clientWs := Ws.send d (clientWs r); googleWs := googleWs r;
                 messageQueue := messageQueue r; googleWsReady := googleWsReady r;
                 isIntentionalDisconnect := isIntentionalDisconnect r |}) as ->.
      { unfold step, arrive, onGoogleMessage. by rewrite Ho, Hi. }
      match goal with |- context [run ?q _] => rewrite (IH q) by done end.
      simpl. rewrite WsFacts.sent_send. by rewrite <- app_assoc.
  - induction frames as [| d frames IH]; [done |].
    rewrite fmap_cons, RelayFacts.run_cons.
    assert (step r (GoogleMessage d) = r) as ->; [| done].
    unfold step, arrive, onGoogleMessage. by rewrite Ho.
Qed.

Lemma not_open_closing ws : Ws.is_open (Ws.closing ws) = false.
Proof. unfold Ws.is_open, Ws.closing; simpl. by destruct (Ws.state ws). Qed.

Lemma not_open_safeClose ws code reason : Ws.is_open (safeClose ws code reason) = false.
Proof. unfold safeClose. destruct (closeThrows _ _); apply not_open_closing. Qed.

(** X5. After a disconnect notice the client socket may close with any
    code: upstream sees one close request, 1000 with the reason of the
    notice, and the close of the client adds none. *)
Theorem notice_then_close r msg (code : Z) reason :
  parsesAsDisconnect (Js.toString msg) = true ->
  let r' := run r [ClientMessage msg; ClientClose code reason] in
  exists fallback,
    Ws.calls (googleWs r')
    = Ws.calls (googleWs r)
      ++ (Ws.Close 1000 "Client requested disconnect" :: fallback)
    /\ (fallback = [] \/ fallback = [Ws.CloseNoArgs])
    /\ isIntentionalDisconnect r' = true.
Proof.
  intros Hm r'. subst r'. rewrite !RelayFacts.run_cons.
  change (run ?q []) with q.
  assert (step r (ClientMessage msg) =
          {| clientWs := clientWs r;
             googleWs := safeClose (googleWs r) (Js.Num 1000)
                           (Js.Str "Client requested disconnect");
             messageQueue := []; googleWsReady := googleWsReady r;
             isIntentionalDisconnect := true |}) as ->.
  { unfold step, arrive, onClientMessage. by rewrite Hm. }
  unfold step, arrive, onClientClose; simpl. rewrite not_open_safeClose.
  rewrite RelayFacts.calls_safeClose. simpl validCode. simpl validReason.
  eexists. split; [reflexivity |]. split; [| apply orb_true_r].
  destruct (closeThrows _ _); auto.
Qed.

End WithPlatform.

(** X2 with one frame on each side of the opening. *)
Lemma frames_in_arrival_order_witness :
  Forall (fun m => @parsesAsDisconnect Samples.platform (Js.toString m) = false)
         ([Js.Str "early"] ++ [Js.Buf "late"])
  /\ Ws.sent (Relay.googleWs (@Relay.run Samples.platform Relay.connection
       ((Relay.ClientMessage <$> [Js.Str "early"]) ++ [Relay.GoogleOpen]
        ++ (Relay.ClientMessage <$> [Js.Buf "late"]))))
     = [Js.Str "early"; Js.Buf "late"].
Proof.
  split; [repeat constructor |].
  apply (@frames_in_arrival_order Samples.platform [Js.Str "early"] [Js.Buf "late"]).
  repeat constructor.
Defined.

(** X4 on a relay that was just created. *)
Lemma upstream_frames_reach_client_witness :
  Relay.isIntentionalDisconnect Relay.connection = false
  /\ Ws.is_open (Relay.clientWs Relay.connection) = true
  /\ Ws.sent (Relay.clientWs (@Relay.run Samples.platform Relay.connection
       (Relay.GoogleMessage <$> [Js.Str "one"; Js.Str "two"])))
     = [Js.Str "one"; Js.Str "two"].
Proof.
  split; [reflexivity |]. split; [reflexivity |].
  apply (@upstream_frames_reach_client Samples.platform
           [Js.Str "one"; Js.Str "two"] Relay.connection eq_refl).
  reflexivity.
Defined.

(** X5 with a client socket that then closes abnormally. *)
Lemma notice_then_close_witness :
  @parsesAsDisconnect Samples.platform (Js.toString (Js.Str Samples.notice)) = true
  /\ exists fallback,
       Ws.calls (Relay.googleWs (@Relay.run Samples.platform Relay.connection
         [Relay.ClientMessage (Js.Str Samples.notice);
          Relay.ClientClose 1006 (Js.Str EmptyString)]))
       = Ws.calls (Relay.googleWs Relay.connection)
         ++ (Ws.Close 1000 "Client requested disconnect" :: fallback)
       /\ (fallback = [] \/ fallback = [Ws.CloseNoArgs])
       /\ Relay.isIntentionalDisconnect (@Relay.run Samples.platform Relay.connection
            [Relay.ClientMessage (Js.Str Samples.notice);
             Relay.ClientClose 1006 (Js.Str EmptyString)]) = true.
Proof.
  split; [reflexivity |].
  apply (@notice_then_close Samples.platform Relay.connection (Js.Str Samples.notice)
           1006%Z (Js.Str EmptyString)).
  reflexivity.
Defined.

End RelayMore.

(** ** The verbose relay *)

Module ProxyMore.
Section WithPlatform.
Context `{Platform}.

Import Proxy.

Lemma step_client_open m p :
  Ws.is_open (googleWs p) = true ->
  googleWs (step p (ClientMessage m)) = Ws.send m (googleWs p)
  /\ clientWs (step p (ClientMessage m)) = clientWs p
  /\ sessions (step p (ClientMessage m)) = sessions p.
Proof.
  intros Ho. unfold step, arrive, onClientMessage. rewrite Ho.
  unfold checkForSessionResumption.
  destruct m as [| n | text | b]; simpl; try done.
  by destruct (resumptionHandle text).
Qed.

(** X6. While the upstream socket is open the verbose relay hands every
    client frame to it unchanged and in order, asks nothing of the client
    socket, and leaves the session store alone. *)
Theorem verbose_forwards_upstream (msgs : list Js.value) : forall p,
  Ws.is_open (googleWs p) = true ->
  let p' := run p (ClientMessage <$> msgs) in
  Ws.sent (googleWs p') = Ws.sent (googleWs p) ++ msgs
  /\ Ws.calls (clientWs p') = Ws.calls (clientWs p)
  /\ sessions p' = sessions p.
Proof.
  induction msgs as [| m msgs IH]; intros p Ho p'; subst p'.
  - simpl. by rewrite app_nil_r.
  - rewrite fmap_cons, ProxyFacts.proxy_run_cons.
    destruct (step_client_open m p Ho) as (Hg & Hc & Hs).
    destruct (IH (step p (ClientMessage m))) as (Hg' & Hc' & Hs').
    { rewrite Hg. exact Ho. }
    rewrite Hg', Hc', Hs', Hg, Hc, Hs, WsFacts.sent_send.
    by rewrite <- app_assoc.
Qed.

Lemma step_google_open m now p :
  Ws.is_open (clientWs p) = true ->
  clientWs (step p (GoogleMessage now m)) = Ws.send m (clientWs p)
  /\ googleWs (step p (GoogleMessage now m)) = googleWs p.
Proof.
  intros Ho. unfold step, arrive, onGoogleMessage. rewrite Ho.
  unfold checkSessionUpdate. by destruct (resumableNewHandle _).
Qed.

(** X7. While the client socket is open the verbose relay hands every
    upstream frame to it unchanged and in order, session updates
    included, and asks nothing of the upstream socket. *)
Theorem verbose_forwards_downstream (frames : list (Z * Js.value)) : forall p,
  Ws.is_open (clientWs p) = true ->
  let p' := run p ((fun f => GoogleMessage f.1 f.2) <$> frames) in
  Ws.sent (clientWs p') = Ws.sent (clientWs p) ++ frames.*2
  /\ Ws.calls (googleWs p') = Ws.calls (googleWs p).
Proof.
  induction frames as [| [now m] frames IH]; intros p Ho p'; subst p'.
  - simpl. by rewrite app_nil_r.
  - rewrite !fmap_cons, ProxyFacts.proxy_run_cons.
    cbn [fst snd].
    destruct (step_google_open m now p Ho) as (Hc & Hg).
    destruct (IH (step p (GoogleMessage now m))) as (Hc' & Hg').
    { rewrite Hc. exact Ho. }
    rewrite Hc', Hg', Hc, Hg, WsFacts.sent_send.
    by rewrite <- app_assoc.
Qed.

(** X8. An upstream frame that announces a resumable handle puts that
    handle in the store with the time of arrival, leaves every other
    record as it was, makes it the handle of the connection, and is still
    forwarded to the client. *)
Theorem resumable_handle_recorded p now m handle :
  Ws.is_open (clientWs p) = true ->
  resumableNewHandle (Js.toString m) = Some handle ->
  let p' := step p (GoogleMessage now m) in
  sessions p' !! handle = Some now
  /\ (forall other, other <> handle -> sessions p' !! other = sessions p !! other)
  /\ sessionHandle p' = Some handle
  /\ Ws.sent (clientWs p') = Ws.sent (clientWs p) ++ [m].
Proof.
  intros Ho Hh p'. subst p'. unfold step, arrive, onGoogleMessage. rewrite Ho.
  unfold checkSessionUpdate. rewrite Hh. simpl.
  split; [apply lookup_insert_eq |]. split.
  - intros other Hne. by apply lookup_insert_ne.
  - split; [done | apply WsFacts.sent_send].
Qed.

(** X9. When the upstream socket closes, the record of the handle the
    connection tracks (a truthy one, so not the empty string) is written
    again with the time of the close, so the sweeps of the next 24 hours
    keep it. *)
Theorem upstream_close_renews_record p now (code : Z) reason handle times :
  sessionHandle p = Some handle -> handle <> EmptyString ->
  Forall (fun t => (t - now <= expiredTime)%Z) times ->
  let p' := step p (GoogleClose now code reason) in
  sessions p' !! handle = Some now
  /\ sweeps times (sessions p') !! handle = Some now.
Proof.
  intros Hh Hne Htimes p'.
  assert (sessions p' !! handle = Some now) as Hl.
  { subst p'. unfold step, arrive, onGoogleClose; simpl. rewrite Hh.
    destruct (String.eqb_spec handle EmptyString); [done |].
    destruct (Ws.is_open _); [destruct (closeThrows _ _) |];
      simpl; apply lookup_insert_eq. }
  split; [done |]. by apply ProxyFacts.sweeps_keep.
Qed.

End WithPlatform.

Import Proxy.

Lemma sweep_lookup now (store : gmap string Z) handle ts :
  sweep now store !! handle = Some ts
  <-> store !! handle = Some ts /\ (now - ts <= expiredTime)%Z.
Proof.
  unfold sweep. rewrite map_lookup_filter_Some. simpl. split; intros [? ?]; split; (done || lia).
Qed.

(** X10. A sweep keeps exactly the records that are at most 24 hours old
    and changes none; sweeping later makes an earlier sweep redundant. *)
Theorem later_sweep_subsumes (earlier later : Z) (store : gmap string Z) :
  (earlier <= later)%Z ->
  sweep later (sweep earlier store) = sweep later store
  /\ (forall handle ts,
        sweep later store !! handle = Some ts
        <-> store !! handle = Some ts /\ (later - ts <= expiredTime)%Z).
Proof.
  intros Hle. split; [| intros; apply sweep_lookup].
  apply map_eq. intros handle. apply option_eq. intros ts.
  rewrite !sweep_lookup. split.
  - intros [[? ?] ?]. done.
  - intros [? ?]. repeat split; (done || lia).
Qed.

(** X6 on a relay whose upstream socket has opened. *)
Lemma verbose_forwards_upstream_witness :
  let p := @Proxy.step Samples.platform (Proxy.connection ∅) Proxy.GoogleOpen in
  Ws.is_open (Proxy.googleWs p) = true
  /\ Ws.sent (Proxy.googleWs (@Proxy.run Samples.platform p
       (Proxy.ClientMessage <$> [Js.Str "setup"; Js.Buf "audio"])))
     = [Js.Str "setup"; Js.Buf "audio"].
Proof.
  intros p. split; [reflexivity |].
  apply (@verbose_forwards_upstream Samples.platform [Js.Str "setup"; Js.Buf "audio"] p).
  reflexivity.
Defined.

(** X7 on a relay that was just created. *)
Lemma verbose_forwards_downstream_witness :
  Ws.is_open (Proxy.clientWs (Proxy.connection ∅)) = true
  /\ Ws.sent (Proxy.clientWs (@Proxy.run Samples.platform (Proxy.connection ∅)
       [Proxy.GoogleMessage 5 (Js.Str "one"); Proxy.GoogleMessage 9 (Js.Buf "two")]))
     = [Js.Str "one"; Js.Buf "two"].
Proof.
  split; [reflexivity |].
  apply (@verbose_forwards_downstream Samples.platform
           [(5%Z, Js.Str "one"); (9%Z, Js.Buf "two")] (Proxy.connection ∅)).
  reflexivity.
Defined.

(** X8 on the platform that knows the update frame. *)
Lemma resumable_handle_recorded_witness :
  Ws.is_open (Proxy.clientWs (Proxy.connection ∅)) = true
  /\ @resumableNewHandle MoreSamples.tracking (Js.toString (Js.Str "update")) = Some "h1"
  /\ Proxy.sessions (@Proxy.step MoreSamples.tracking (Proxy.connection ∅)
       (Proxy.GoogleMessage 42 (Js.Str "update"))) !! "h1" = Some 42%Z.
Proof.
  split; [reflexivity |]. split; [reflexivity |].
  apply (@resumable_handle_recorded MoreSamples.tracking (Proxy.connection ∅) 42%Z
           (Js.Str "update") "h1"); reflexivity.
Defined.

(** X9 on a relay that tracks [h1], closed at time 5000 and swept an hour
    and a day later. *)
Lemma upstream_close_renews_record_witness :
  Proxy.sessionHandle MoreSamples.tracked = Some "h1"
  /\ "h1" <> EmptyString
  /\ Forall (fun t => (t - 5000 <= Proxy.expiredTime)%Z) [3605000; 86405000]%Z
  /\ Proxy.sweeps [3605000; 86405000]%Z
       (Proxy.sessions (@Proxy.step Samples.platform MoreSamples.tracked
          (Proxy.GoogleClose 5000 1000 (Js.Str "done")))) !! "h1" = Some 5000%Z.
Proof.
  assert (Forall (fun t => (t - 5000 <= Proxy.expiredTime)%Z) [3605000; 86405000]%Z)
    as Htimes by (repeat constructor; unfold Proxy.expiredTime; lia).
  assert ("h1" <> EmptyString) as Hne by discriminate.
  split; [reflexivity |]. split; [exact Hne |]. split; [exact Htimes |].
  apply (@upstream_close_renews_record Samples.platform MoreSamples.tracked 5000%Z
           1000%Z (Js.Str "done") "h1" _ eq_refl Hne Htimes).
Defined.

(** X10 on two sweeps an hour apart. *)
Lemma later_sweep_subsumes_witness :
  (3600000 <= 7200000)%Z
  /\ Proxy.sweep 7200000 (Proxy.sweep 3600000 {[ "h1" := 1000%Z ]})
     = Proxy.sweep 7200000 ({[ "h1" := 1000%Z ]} : gmap string Z).
Proof.
  split; [lia |].
  apply (later_sweep_subsumes 3600000 7200000 {[ "h1" := 1000%Z ]}). lia.
Defined.

End ProxyMore.

(** ** The hook *)

Module HookMore.

Import Hook HookEvents.

(** X11. Every reconnection the hook schedules waits at least
    1000 * 2^attempts ms and, the jitter being added exactly, less than
    a second more; as fewer than 5 attempts were made, that is always
    below 17 s: the 30 s cap never takes effect. *)
Theorem scheduled_delay_below_cap (h : hook) (code : Z) reason (random : Q) :
  (0 <= random < 1)%Q ->
  code = 1012%Z \/ code = 1013%Z ->
  reconnectAttempts h < RECONNECT_MAX_ATTEMPTS ->
  exists delay,
    reconnectTimeout (onClose code reason random h) = Some (ReconnectIn delay)
    /\ (inject_Z (1000 * 2 ^ Z.of_nat (reconnectAttempts h)) <= delay)%Q
    /\ (delay < inject_Z (1000 * 2 ^ Z.of_nat (reconnectAttempts h)) + 1000)%Q
    /\ (delay < 17000)%Q.
Proof.
  intros Hrandom Hcode Hattempts. change RECONNECT_MAX_ATTEMPTS with 5 in Hattempts.
  exists (getReconnectDelay (reconnectAttempts h) random).
  split.
  - unfold onClose. change RECONNECT_MAX_ATTEMPTS with 5.
    destruct (Nat.ltb_spec (reconnectAttempts h) 5); [| lia].
    destruct Hcode as [-> | ->]; reflexivity.
  - pose proof (HookFacts.getReconnectDelay_bounds (reconnectAttempts h) random Hrandom)
      as Hb. simpl in Hb.
    assert (1000 * 2 ^ Z.of_nat (reconnectAttempts h) <= 16000)%Z as Hpow.
    { assert (2 ^ Z.of_nat (reconnectAttempts h) <= 2 ^ 4)%Z
        by (apply Z.pow_le_mono_r; lia).
      lia. }
    rewrite Z.min_l in Hb by lia.
    destruct Hb as [Hlo Hhi]. split; [exact Hlo |]. split; [exact Hhi |].
    assert (inject_Z (1000 * 2 ^ Z.of_nat (reconnectAttempts h)) <= inject_Z 16000)%Q
      by (rewrite <- Zle_Qle; exact Hpow).
    change (inject_Z 16000) with (16000 # 1) in *. lra.
Qed.

(** X12. A GoAway, with [timeLeft] a whole number of milliseconds, always
    shows ["reconnecting"]. With a session handle it sets the resume
    timer to [timeLeft - 1000] ms, and to 0 when less than a second is
    left, never to a negative delay; without a handle (or with an empty
    one) it sets no timer. *)
Theorem go_away_schedules_resume (h : hook) (timeLeft : Z) :
  let h' := onGoAway timeLeft h in
  connectionState h' = "reconnecting"
  /\ (forall handle, sessionHandle h = Some handle -> handle <> EmptyString ->
        exists delay, reconnectTimeout h' = Some (ResumeIn delay)
          /\ (0 <= delay)%Q
          /\ ((1000 <= timeLeft)%Z -> delay = inject_Z (timeLeft - 1000))
          /\ ((timeLeft <= 1000)%Z -> delay = inject_Z 0))
  /\ (sessionHandle h = None \/ sessionHandle h = Some EmptyString ->
        reconnectTimeout h' = reconnectTimeout h).
Proof.
  intros h'. subst h'. unfold onGoAway; simpl. split; [done |]. split.
  - intros handle -> Hne. destruct (String.eqb_spec handle EmptyString); [done |].
    eexists. split; [reflexivity |]. split.
    + change 0%Q with (inject_Z 0). rewrite <- Zle_Qle. lia.
    + split; intros Ht; f_equal; lia.
  - intros [-> | ->]; reflexivity.
Qed.

Lemma hook_run_cons h e es : run h (e :: es) = run (step h e) es.
Proof. reflexivity. Qed.

Lemma attempts_step h e :
  isOpen e = false ->
  reconnectAttempts (step h e)
  = reconnectAttempts h + (if isReconnectTimer e then 1 else 0).
Proof.
  intros Hopen. destruct e as [| code reason random | | timeLeft | handle | |];
    simpl; try lia; try discriminate.
  unfold onClose. destruct (code =? 1000)%Z; simpl; [lia |].
  destruct (_ || _); simpl; [| lia].
  destruct (_ <? _); simpl; lia.
Qed.

(** X13. As long as the socket does not open again, the attempt counter
    is its old value plus the number of times the reconnect timer fired;
    no other event moves it. Once that reaches the maximum, a close with
    1012 or 1013 ends in the error state and sets no timer. *)
Theorem attempts_count_timer_firings (es : list event) : forall h,
  Forall (fun e => isOpen e = false) es ->
  reconnectAttempts (run h es) = reconnectAttempts h + timerEvents es
  /\ (RECONNECT_MAX_ATTEMPTS <= reconnectAttempts h + timerEvents es ->
      forall code reason random, code = 1012%Z \/ code = 1013%Z ->
        connectionState (onClose code reason random (run h es)) = "error"
        /\ reconnectTimeout (onClose code reason random (run h es))
           = reconnectTimeout (run h es)).
Proof.
  assert (forall es h, Forall (fun e => isOpen e = false) es ->
            reconnectAttempts (run h es) = reconnectAttempts h + timerEvents es) as Hcount.
  { clear es. induction es as [| e es IH]; intros h Hall.
    - unfold timerEvents; simpl. lia.
    - inversion Hall as [| ? ? He Hes]; subst.
      rewrite hook_run_cons, (IH _ Hes), (attempts_step h e He).
      unfold timerEvents; simpl. destruct (isReconnectTimer e); simpl; lia. }
  intros h Hall. split; [by apply Hcount |].
  intros Hmax code reason random Hcode. rewrite <- (Hcount es h Hall) in Hmax.
  unfold onClose.
  destruct (Nat.ltb_spec (reconnectAttempts (run h es)) RECONNECT_MAX_ATTEMPTS); [lia |].
  destruct Hcode as [-> | ->]; done.
Qed.

(** X11 on a hook that made three attempts. *)
Lemma scheduled_delay_below_cap_witness :
  let h := run (onOpen initial) [ReconnectTimer; ReconnectTimer; ReconnectTimer] in
  (0 <= 1 # 4 < 1)%Q
  /\ (1013 = 1012 \/ 1013 = 1013)%Z
  /\ reconnectAttempts h < RECONNECT_MAX_ATTEMPTS
  /\ exists delay,
       reconnectTimeout (onClose 1013 EmptyString (1 # 4) h) = Some (ReconnectIn delay)
       /\ (8000 <= delay)%Q /\ (delay < 9000)%Q /\ (delay < 17000)%Q.
Proof.
  intros h.
  assert (0 <= 1 # 4 < 1)%Q as Hr by (split; [discriminate | reflexivity]).
  assert (reconnectAttempts h < RECONNECT_MAX_ATTEMPTS) as Ha
    by (unfold RECONNECT_MAX_ATTEMPTS; simpl; lia).
  split; [exact Hr |]. split; [right; reflexivity |]. split; [exact Ha |].
  exact (scheduled_delay_below_cap h 1013 EmptyString (1 # 4) Hr
           (or_intror eq_refl) Ha).
Defined.

(** X12 with a handle and half a second left. *)
Lemma go_away_schedules_resume_witness :
  let h := onSessionUpdate "h1" (onOpen initial) in
  sessionHandle h = Some "h1"
  /\ exists delay, reconnectTimeout (onGoAway 500 h) = Some (ResumeIn delay)
       /\ (0 <= delay)%Q.
Proof.
  intros h. split; [reflexivity |].
  destruct (go_away_schedules_resume h 500) as (_ & Hwith & _).
  destruct (Hwith "h1" eq_refl ltac:(discriminate)) as (delay & Ht & Hd & _).
  exists delay. split; [exact Ht | exact Hd].
Defined.

(** X13 on five closes, each followed by a firing of the timer. *)
Lemma attempts_count_timer_firings_witness :
  let es := [Close 1013 EmptyString 0; ReconnectTimer; Error;
             Close 1012 EmptyString 0; ReconnectTimer;
             Close 1012 EmptyString 0; ReconnectTimer; GoAway 3000;
             Close 1013 EmptyString 0; ReconnectTimer;
             Close 1013 EmptyString 0; ReconnectTimer] in
  Forall (fun e => isOpen e = false) es
  /\ reconnectAttempts (run (onOpen initial) es) = 5
  /\ connectionState (onClose 1012 EmptyString 0 (run (onOpen initial) es)) = "error".
Proof.
  intros es.
  assert (Forall (fun e => isOpen e = false) es) as Hall by (repeat constructor).
  destruct (attempts_count_timer_firings es (onOpen initial) Hall) as [Hcount Hmax].
  split; [exact Hall |]. split; [exact Hcount |].
  assert (RECONNECT_MAX_ATTEMPTS <= reconnectAttempts (onOpen initial) + timerEvents es)
    as Hfive by (vm_compute; lia).
  destruct (Hmax Hfive 1012%Z EmptyString 0%Q (or_introl eq_refl)) as [Hstate _].
  exact Hstate.
Defined.

End HookMore.

(** ** The recorder *)

Module CaptureMore.

Import Capture CaptureFacts.

(** The truncation of a rational does not decrease when the rational
    grows. *)
Lemma truncate_mono (v w : Q) : (v <= w)%Q -> (truncate v <= truncate w)%Z.
Proof.
  intros Hvw. unfold Qle in Hvw.
  destruct v as [n d], w as [m e]; unfold truncate; simpl in *.
  destruct (quot_pos_spec n (Zpos d) ltac:(lia)) as (r & Hn & Hr).
  destruct (quot_pos_spec m (Zpos e) ltac:(lia)) as (r' & Hm & Hr').
  set (q := Z.quot n (Z.pos d)) in *. set (q' := Z.quot m (Z.pos e)) in *.
  destruct (Z.le_gt_cases q q') as [| Hgt]; [done | exfalso].
  assert (q' + 1 <= q)%Z as Hstep by lia.
  assert (0 < Z.pos d)%Z by lia. assert (0 < Z.pos e)%Z by lia.
  destruct Hr as [(Hn0 & Hr0 & Hq0) | (Hn0 & Hr0 & Hq0)];
    destruct Hr' as [(Hm0 & Hr0' & Hq0') | (Hm0 & Hr0' & Hq0')]; nia.
Qed.

Lemma int16Value_bounds (x : Q) :
  (-32768 <= int16Value x <= 32767)%Q.
Proof.
  unfold int16Value. split.
  - apply Q.le_max_l.
  - apply Q.max_lub; [discriminate |]. apply Q.le_min_l.
Qed.

Lemma int16Value_mono (x y : Q) :
  (x <= y)%Q -> (int16Value x <= int16Value y)%Q.
Proof.
  intros Hxy. unfold int16Value.
  apply Q.max_le_compat_l. apply Q.min_le_compat_l. lra.
Qed.

(** What is stored is the clamped product with its fraction dropped; the
    16-bit wrap never comes into play. *)
Lemma stored_is_truncation (x : Q) :
  stored x = truncate (int16Value x) /\ (-32768 <= stored x <= 32767)%Z.
Proof.
  destruct (int16Value_bounds x) as [Hlo Hhi].
  pose proof (truncate_bounds (int16Value x) (-32768) 32767 ltac:(lia) Hlo Hhi) as Hb.
  unfold stored. rewrite (toInt16_small _ Hb). done.
Qed.

(** X14. Whatever number the sample is, what is stored fits 16 bits: a
    sample of 1 or more is stored as 32767 and a sample of -1 or less as
    -32768. *)
Theorem stored_saturates (x : Q) :
  (-32768 <= stored x <= 32767)%Z
  /\ ((1 <= x)%Q -> stored x = 32767%Z)
  /\ ((x <= -1)%Q -> stored x = (-32768)%Z).
Proof.
  split; [apply stored_is_truncation |]. split; intros Hx.
  - destruct (clamp_then_store (x * 32768) ltac:(lra)) as (_ & _ & Hsat & _).
    apply Hsat. lra.
  - unfold stored, int16Value.
    destruct (Qmin_case 32767 (x * 32768)) as [[_ ->] | [Hle _]]; [| lra].
    destruct (Qmax_case (-32768) (x * 32768)) as [[Hlt _] | [_ ->]]; [lra |].
    reflexivity.
Qed.

(** X15. The conversion keeps the order of samples: a sample that is not
    smaller is not stored as a smaller integer. *)
Theorem stored_monotone (x y : Q) :
  (x <= y)%Q -> (stored x <= stored y)%Z.
Proof.
  intros Hxy. destruct (stored_is_truncation x) as [-> _].
  destruct (stored_is_truncation y) as [-> _].
  apply truncate_mono. by apply int16Value_mono.
Qed.

Import Recorder.

Lemma processSample_spec (r : recorder) (x : Q) :
  wf r ->
  let r' := processSample r x in
  wf r' /\ length (buffer r') = length (buffer r)
  /\ exists news, chunks r' = chunks r ++ news
       /\ Forall (fun c => length c = length (buffer r)) news
       /\ concat news ++ retained r' = retained r ++ [stored x].
Proof.
  intros Hwf r'. subst r'. unfold wf in *. unfold processSample.
  rewrite length_insert.
  assert (take (S (bufferWriteIndex r)) (<[bufferWriteIndex r := stored x]> (buffer r))
          = retained r ++ [stored x]) as Htake.
  { rewrite (take_S_r _ _ (stored x)) by (apply list_lookup_insert_eq; lia).
    by rewrite take_insert_ge by lia. }
  destruct (Nat.leb_spec (length (buffer r)) (S (bufferWriteIndex r))); simpl;
    rewrite ?length_insert.
  - split; [lia |]. split; [done |]. eexists [_]. split; [done |]. split.
    + constructor; [| constructor]. rewrite length_take, length_insert. lia.
    + simpl. unfold retained at 1; simpl. rewrite take_0, !app_nil_r. exact Htake.
  - split; [lia |]. split; [done |]. exists []. rewrite app_nil_r.
    split; [done |]. split; [constructor |]. exact Htake.
Qed.

Lemma processChunk_spec (l : list Q) : forall r,
  wf r ->
  let r' := processChunk l r in
  wf r' /\ length (buffer r') = length (buffer r)
  /\ exists news, chunks r' = chunks r ++ news
       /\ Forall (fun c => length c = length (buffer r)) news
       /\ concat news ++ retained r' = retained r ++ (stored <$> l).
Proof.
  induction l as [| x l IH]; intros r Hwf r'; subst r'.
  - simpl. split; [done |]. split; [done |]. exists [].
    rewrite !app_nil_r. repeat split. constructor.
  - change (processChunk (x :: l) r) with (processChunk l (processSample r x)).
    destruct (processSample_spec r x Hwf) as (Hwf1 & Hl1 & n1 & Hc1 & Hf1 & Hs1).
    destruct (IH _ Hwf1) as (Hwf2 & Hl2 & n2 & Hc2 & Hf2 & Hs2).
    split; [done |]. split; [congruence |]. exists (n1 ++ n2).
    split; [rewrite Hc2, Hc1; by rewrite <- app_assoc |]. split.
    + apply Forall_app. split; [done |]. by rewrite <- Hl1.
    + rewrite concat_app, <- app_assoc, Hs2, app_assoc, Hs1, fmap_cons.
      by rewrite <- app_assoc.
Qed.

(** X16. Chunking loses, repeats and reorders nothing: the chunks posted
    followed by what is left in the buffer are the samples that were
    waiting followed by the new ones, converted. Every chunk posted is a
    full buffer, their number is the quotient of the samples at hand by
    the buffer size, and the cursor is the remainder. *)
Theorem chunking_keeps_every_sample (l : list Q) (r : recorder) :
  wf r ->
  let r' := processChunk l r in
  let size := length (buffer r) in
  wf r'
  /\ chunks r' = chunks r ++ posted r r'
  /\ Forall (fun c => length c = size) (posted r r')
  /\ concat (posted r r') ++ retained r' = retained r ++ (stored <$> l)
  /\ length (posted r r') = (bufferWriteIndex r + length l) / size
  /\ bufferWriteIndex r' = (bufferWriteIndex r + length l) mod size.
Proof.
  intros Hwf r' size.
  destruct (processChunk_spec l r Hwf) as (Hwf' & Hlen & news & Hc & Hf & Hs).
  fold r' in Hwf', Hlen, Hc, Hs.
  assert (posted r r' = news) as Hp
    by (unfold posted; rewrite Hc; apply drop_app_length).
  rewrite Hp. split; [done |]. split; [done |]. split; [done |]. split; [done |].
  assert (length (concat news) = length news * size) as Hcat.
  { clear -Hf. induction Hf as [| c cs Hc _ IH]; [done |].
    simpl. rewrite length_app, IH, Hc. lia. }
  pose proof (f_equal length Hs) as Hcount.
  rewrite !length_app, length_fmap, Hcat in Hcount.
  unfold retained in Hcount. unfold wf in Hwf, Hwf'. rewrite Hlen in Hwf'.
  rewrite !length_take in Hcount. fold size in Hwf, Hwf', Hcount.
  rewrite Hlen in Hcount. fold size in Hcount.
  rewrite !Nat.min_l in Hcount by lia.
  assert (bufferWriteIndex r + length l = size * length news + bufferWriteIndex r') as Heq
    by lia.
  split.
  - apply (Nat.div_unique _ _ _ (bufferWriteIndex r')); [lia | exact Heq].
  - apply (Nat.mod_unique _ _ (length news)); [lia | exact Heq].
Qed.

(** X17. Stopping the recorder drops the samples of the chunk in
    progress: nothing is retained, and the next chunk posted holds the
    next samples only. *)
Theorem stop_discards_partial_chunk (r : recorder) (l : list Q) :
  length l = length (buffer r) -> l <> [] ->
  retained (stop r) = []
  /\ chunks (processChunk l (stop r)) = chunks r ++ [stored <$> l]
  /\ bufferWriteIndex (processChunk l (stop r)) = 0.
Proof.
  intros Hlen Hne. split; [unfold retained, stop; simpl; apply take_0 |].
  destruct (processChunk_block l (stop r) eq_refl Hlen Hne) as (Hc & Hi & _).
  done.
Qed.

(** X14 at samples beyond both ends of the range. *)
Lemma stored_saturates_witness :
  ((1 <= 3 # 2)%Q /\ stored (3 # 2) = 32767%Z)
  /\ ((-2 <= -1)%Q /\ stored (-2) = (-32768)%Z).
Proof.
  split.
  - split; [discriminate |].
    destruct (stored_saturates (3 # 2)) as (_ & Hhigh & _). apply Hhigh. discriminate.
  - split; [discriminate |].
    destruct (stored_saturates (-2)) as (_ & _ & Hlow). apply Hlow. discriminate.
Defined.

(** X15 at a quarter and a half. *)
Lemma stored_monotone_witness :
  (1 # 4 <= 1 # 2)%Q /\ (stored (1 # 4) <= stored (1 # 2))%Z.
Proof.
  split; [discriminate |]. apply (stored_monotone (1 # 4) (1 # 2)). discriminate.
Defined.

(** X16 on a new recorder given three samples. *)
Lemma chunking_keeps_every_sample_witness :
  wf create
  /\ posted create (processChunk [1 # 2; -1 # 2; 0]%Q create) = []
  /\ retained (processChunk [1 # 2; -1 # 2; 0]%Q create) = [16384; -16384; 0]%Z.
Proof.
  assert (wf create) as Hwf by (unfold wf; vm_compute; lia).
  split; [exact Hwf |].
  destruct (chunking_keeps_every_sample [1 # 2; -1 # 2; 0]%Q create Hwf)
    as (_ & _ & _ & Hkeep & Hcount & _).
  assert (posted create (processChunk [1 # 2; -1 # 2; 0]%Q create) = []) as Hnone.
  { apply length_zero_iff_nil. rewrite Hcount. reflexivity. }
  split; [exact Hnone |]. rewrite Hnone in Hkeep. exact Hkeep.
Defined.

(** X17 on a recorder stopped with one sample in its buffer. *)
Lemma stop_discards_partial_chunk_witness :
  let r := processChunk [1 # 2]%Q create in
  let l := replicate 2048 (1 # 4)%Q in
  length l = length (buffer r) /\ l <> []
  /\ retained r = [16384%Z]
  /\ chunks (processChunk l (stop r)) = [replicate 2048 8192%Z].
Proof.
  intros r l.
  assert (length l = length (buffer r)) as Hlen by (vm_compute; reflexivity).
  assert (l <> []) as Hne by discriminate.
  split; [exact Hlen |]. split; [exact Hne |]. split; [reflexivity |].
  destruct (stop_discards_partial_chunk r l Hlen Hne) as (_ & Hc & _).
  rewrite Hc. vm_compute. reflexivity.
Defined.

End CaptureMore.

(** ** The playback scheduler *)

Module StreamerMore.

Import Streamer StreamerFacts.

Lemma getInt16_range lo hi : (-32768 <= getInt16 lo hi <= 32767)%Z.
Proof.
  unfold getInt16.
  pose proof (Strings.Byte.to_N_bounded lo). pose proof (Strings.Byte.to_N_bounded hi).
  destruct (Z.ltb_spec (Z.of_N (Byte.to_N lo) + 256 * Z.of_N (Byte.to_N hi)) 32768); lia.
Qed.

(** X18. Decoding reads two bytes per sample and ignores an odd last
    byte; every decoded sample lies in [-1, 1). *)
Theorem toFloat32_range (chunk : list Byte.byte) :
  length (toFloat32 chunk) = length chunk / 2
  /\ Forall (fun x => (-1 <= x < 1)%Q) (toFloat32 chunk).
Proof.
  assert (forall n (c : list Byte.byte), length c <= n ->
            length (toFloat32 c) = length c / 2
            /\ Forall (fun x => (-1 <= x < 1)%Q) (toFloat32 c)) as Hind.
  { induction n as [| n IH]; intros c Hlen.
    - destruct c; [split; [done | constructor] | simpl in Hlen; lia].
    - destruct c as [| lo [| hi rest]]; [split; [done | constructor] .. |].
      simpl in Hlen. destruct (IH rest ltac:(lia)) as [Hl Hr].
      split.
      + change (length (toFloat32 (lo :: hi :: rest))) with (S (length (toFloat32 rest))).
        rewrite Hl. change (length (lo :: hi :: rest)) with (2 + length rest).
        replace (2 + length rest) with (length rest + 1 * 2) by lia.
        rewrite Nat.div_add by lia. lia.
      + simpl. constructor; [| done].
        pose proof (getInt16_range lo hi) as [Hlo Hhi].
        unfold Qle, Qlt; simpl. lia. }
  by apply (Hind (length chunk)).
Qed.

(** *** Slicing and scheduling keep every sample *)

Lemma slice_blocks size rounds : forall queue (buf : list Q),
  Forall (fun b => length b = size) queue ->
  Forall (fun b => length b = size) (slice rounds size queue buf).1.
Proof.
  induction rounds as [| rounds IH]; intros queue buf Hq; simpl; [done |].
  destruct (Nat.leb_spec size (length buf)); simpl; [| done].
  apply IH. apply Forall_app. split; [done |].
  constructor; [| constructor]. rewrite length_take. lia.
Qed.

Lemma started_scheduleOne now audioData rest s :
  exists x, started (scheduleOne now audioData rest s) = started s ++ [x]
            /\ samples x = audioData
            /\ startTime x = Qmax (scheduledTime s) now.
Proof. eexists. split; [reflexivity |]. split; reflexivity. Qed.

Lemma scheduleLoop_keeps now queue : forall s,
  audioQueue s = queue ->
  exists news,
    started (scheduleLoop now queue s) = started s ++ news
    /\ (samples <$> news) ++ audioQueue (scheduleLoop now queue s) = queue
    /\ processingBuffer (scheduleLoop now queue s) = processingBuffer s
    /\ Forall (fun x => (now <= startTime x < now + SCHEDULE_AHEAD_TIME)%Q) news
    /\ (audioQueue (scheduleLoop now queue s) = []
        \/ (now + SCHEDULE_AHEAD_TIME <= scheduledTime (scheduleLoop now queue s))%Q).
Proof.
  induction queue as [| audioData rest IH]; intros s Hq; simpl.
  - exists []. rewrite app_nil_r. repeat split; [done | constructor | by left].
  - destruct (Qlt_le_dec _ _) as [Hlt | Hge].
    + destruct (IH (scheduleOne now audioData rest s) eq_refl)
        as (news & Hs & Hsam & Hb & Hwin & Hexit).
      destruct (started_scheduleOne now audioData rest s) as (x & Hx & Hxs & Hxt).
      exists (x :: news). split; [rewrite Hs, Hx; by rewrite <- app_assoc |].
      split; [rewrite fmap_cons, Hxs, <- app_comm_cons; by rewrite Hsam |].
      split; [exact Hb |].
      split; [| exact Hexit]. constructor; [| exact Hwin]. rewrite Hxt.
      pose proof (Q.le_max_r (scheduledTime s) now).
      assert (Qmax (scheduledTime s) now < now + SCHEDULE_AHEAD_TIME)%Q; [| done].
      apply Q.max_lub_lt; [exact Hlt |]. unfold SCHEDULE_AHEAD_TIME. lra.
    + exists []. rewrite app_nil_r. split; [done |]. split; [done |].
      split; [done |]. split; [constructor | by right].
Qed.

Lemma rearm_keeps now s :
  started (rearm now s) = started s /\ audioQueue (rearm now s) = audioQueue s
  /\ processingBuffer (rearm now s) = processingBuffer s
  /\ scheduledTime (rearm now s) = scheduledTime s.
Proof.
  unfold rearm. destruct (isPlaying s && _ && _); [done |].
  by destruct (isPlaying s && _).
Qed.

(** X19. A call of [scheduleNextBuffer] while playing starts blocks from
    the head of the queue only, each at a time from [now] to less than
    200 ms after it, and stops only when the queue is empty or the cursor
    is 200 ms ahead or more. *)
Theorem scheduling_stays_in_window now s :
  running s = true -> isPlaying s = true ->
  let s' := scheduleNextBuffer now s in
  Forall (fun x => calledAt x = now
                   /\ (now <= startTime x < now + SCHEDULE_AHEAD_TIME)%Q) (newly s s')
  /\ (audioQueue s' = [] \/ (now + SCHEDULE_AHEAD_TIME <= scheduledTime s')%Q)
  /\ (samples <$> newly s s') ++ audioQueue s' = audioQueue s.
Proof.
  intros Hrun Hplay s'. subst s'. unfold scheduleNextBuffer. rewrite Hrun, Hplay. simpl.
  destruct (scheduleLoop_keeps now (audioQueue s) s eq_refl)
    as (news & Hs & Hsam & _ & Hwin & Hexit).
  destruct (scheduleLoop_extends now (audioQueue s) s) as (news' & Hext & Hnow).
  destruct (rearm_keeps now (scheduleLoop now (audioQueue s) s)) as (Hrs & Hrq & _ & Hrc).
  assert (news' = news) as ->.
  { destruct Hext as (Hs' & _). rewrite Hs in Hs'. by apply app_inv_head in Hs'. }
  unfold newly. rewrite Hrs, Hrq, Hrc, Hs, drop_app_length.
  split; [| done]. apply Forall_and. done.
Qed.

Lemma scheduleNextBuffer_keeps now s :
  exists news,
    started (scheduleNextBuffer now s) = started s ++ news
    /\ (samples <$> news) ++ audioQueue (scheduleNextBuffer now s) = audioQueue s
    /\ processingBuffer (scheduleNextBuffer now s) = processingBuffer s.
Proof.
  unfold scheduleNextBuffer. destruct (_ || _).
  - exists []. by rewrite app_nil_r.
  - destruct (scheduleLoop_keeps now (audioQueue s) s eq_refl)
      as (news & Hs & Hsam & Hb & _).
    destruct (rearm_keeps now (scheduleLoop now (audioQueue s) s)) as (-> & -> & -> & _).
    by exists news.
Qed.

(** X20. [addPCM16Data] loses, repeats and reorders nothing: the blocks
    it starts, then the queue, then the reassembly buffer hold what the
    queue and the buffer held before followed by the decoded samples.
    Less than a block is left in the buffer, and all blocks are whole. *)
Theorem addPCM16Data_keeps_every_sample now chunk s :
  running s = true -> 0 < bufferSize s ->
  let s' := addPCM16Data now chunk s in
  concat (samples <$> newly s s') ++ concat (audioQueue s') ++ processingBuffer s'
  = concat (audioQueue s) ++ processingBuffer s ++ toFloat32 chunk
  /\ length (processingBuffer s') < bufferSize s
  /\ (Forall (fun b => length b = bufferSize s) (audioQueue s) ->
      Forall (fun b => length b = bufferSize s)
             ((samples <$> newly s s') ++ audioQueue s')).
Proof.
  intros Hrun Hsize s'. subst s'. unfold addPCM16Data. rewrite Hrun. simpl.
  set (newBuffer := processingBuffer s ++ toFloat32 chunk).
  pose proof (slice_exits (bufferSize s) (length newBuffer) (audioQueue s) newBuffer
                Hsize (le_n _)) as Hexit.
  pose proof (slice_concat (bufferSize s) (length newBuffer) (audioQueue s) newBuffer)
    as Hcat.
  pose proof (slice_blocks (bufferSize s) (length newBuffer) (audioQueue s) newBuffer)
    as Hblocks.
  destruct (slice _ _ _ _) as [queue buf]. simpl in Hexit, Hcat, Hblocks.
  match goal with |- context [if ?c then scheduleNextBuffer now ?t else _] =>
    set (cond := c); set (s1 := t) end.
  assert (exists news,
            started (if cond then scheduleNextBuffer now s1 else s1) = started s ++ news
            /\ (samples <$> news) ++ audioQueue (if cond then scheduleNextBuffer now s1 else s1)
               = queue
            /\ processingBuffer (if cond then scheduleNextBuffer now s1 else s1) = buf)
    as (news & Hs & Hq & Hb).
  { destruct cond.
    - destruct (scheduleNextBuffer_keeps now s1) as (news & ? & ? & ?). by exists news.
    - exists []. by rewrite app_nil_r. }
  unfold newly. rewrite Hs, drop_app_length, Hb.
  split; [| split; [done |]].
  - rewrite app_assoc, <- concat_app, Hq, Hcat. subst newBuffer. done.
  - intros Hall. rewrite Hq. by apply Hblocks.
Qed.

(** *** The end of playback *)

Lemma sourceEnded_spent i s :
  endOfQueueAudioSource s = None -> sourceEnded i s = s.
Proof.
  intros Hnone. unfold sourceEnded. rewrite Hnone.
  rewrite (bool_decide_eq_false_2 (None = Some i)) by done.
  by rewrite andb_false_r.
Qed.

Lemma run_sourceEnded_spent ids : forall s,
  endOfQueueAudioSource s = None -> run s (SourceEnded <$> ids) = s.
Proof.
  induction ids as [| i ids IH]; intros s Hnone; [done |].
  rewrite fmap_cons, streamer_run_cons. simpl step.
  rewrite (sourceEnded_spent i s Hnone). by apply IH.
Qed.

Lemma sourceEnded_cases i s :
  sourceEnded i s = s
  \/ (endedEvents (sourceEnded i s) = S (endedEvents s)
      /\ isPlaying (sourceEnded i s) = false
      /\ audioQueue (sourceEnded i s) = []
      /\ length (processingBuffer (sourceEnded i s)) < bufferSize (sourceEnded i s)
      /\ endOfQueueAudioSource (sourceEnded i s) = None).
Proof.
  unfold sourceEnded.
  destruct (bool_decide (onended s = Some i)
            && match audioQueue s with [] => true | _ => false end
            && (length (processingBuffer s) <? bufferSize s)
            && bool_decide (endOfQueueAudioSource s = Some i)) eqn:Hfire; [| by left].
  right. simpl.
  apply andb_prop in Hfire as [Hfire _].
  apply andb_prop in Hfire as [Hfire Hshort].
  apply andb_prop in Hfire as [_ Hempty].
  split; [done |]. split; [done |]. split; [by destruct (audioQueue s) |].
  split; [by apply Nat.ltb_lt | done].
Qed.

(** X21. However many [onended] handlers run in a row, ["ended"] is
    emitted at most once, and when it is, playback has stopped with an
    empty queue and less than a block in the buffer. *)
Theorem ended_at_most_once (ids : list nat) : forall s,
  let s' := run s (SourceEnded <$> ids) in
  (endedEvents s' = endedEvents s /\ isPlaying s' = isPlaying s)
  \/ (endedEvents s' = S (endedEvents s) /\ isPlaying s' = false
      /\ audioQueue s' = []
      /\ length (processingBuffer s') < bufferSize s').
Proof.
  induction ids as [| i ids IH]; intros s s'; subst s'; [by left |].
  rewrite fmap_cons, streamer_run_cons. simpl step.
  destruct (sourceEnded_cases i s) as [-> | (He & Hp & Hq & Hb & Hnone)].
  - apply IH.
  - right. by rewrite run_sourceEnded_spent.
Qed.

(** *** The first block of a playback *)

Lemma slice_first size rounds (buf : list Q) :
  0 < size -> size <= length buf -> length buf <= rounds ->
  exists rest, (slice rounds size [] buf).1 = take size buf :: rest.
Proof.
  intros Hsize Hlen Hrounds. destruct rounds as [| rounds]; [lia |]. simpl.
  destruct (Nat.leb_spec size (length buf)); [| lia].
  assert (forall n q (b : list Q), exists rest, (slice n size q b).1 = q ++ rest) as Hgrow.
  { induction n as [| n IH]; intros q b; simpl; [exists []; by rewrite app_nil_r |].
    destruct (Nat.leb_spec size (length b)); simpl; [| exists []; by rewrite app_nil_r].
    destruct (IH (q ++ [take size b]) (drop size b)) as (rest & ->).
    eexists. by rewrite <- app_assoc. }
  destruct (Hgrow rounds [take size buf] (drop size buf)) as (rest & ->).
  by exists rest.
Qed.

(** X22. On an idle streamer, the chunk that completes the first block
    starts playback: the block is started in the same call, at [now] plus
    the initial buffering delay, and holds the first [bufferSize]
    samples. *)
Theorem first_block_after_initial_delay now chunk s :
  running s = true -> isPlaying s = false -> audioQueue s = [] ->
  0 < bufferSize s ->
  bufferSize s <= length (processingBuffer s ++ toFloat32 chunk) ->
  (0 <= initialBufferTime s < SCHEDULE_AHEAD_TIME)%Q ->
  let s' := addPCM16Data now chunk s in
  isPlaying s' = true
  /\ exists x rest,
       newly s s' = x :: rest
       /\ calledAt x = now
       /\ (startTime x == now + initialBufferTime s)%Q
       /\ samples x = take (bufferSize s) (processingBuffer s ++ toFloat32 chunk).
Proof.
  intros Hrun Hidle Hq Hsize Hlen [Hd0 Hd1] s'. subst s'.
  unfold addPCM16Data. rewrite Hrun, Hidle, Hq. simpl.
  destruct (slice_first (bufferSize s) (length (processingBuffer s ++ toFloat32 chunk))
              (processingBuffer s ++ toFloat32 chunk) Hsize Hlen (le_n _))
    as (rest & Hfirst).
  destruct (slice _ _ _ _) as [queue buf]. simpl in Hfirst. subst queue. simpl.
  unfold scheduleNextBuffer; simpl.
  destruct (Qlt_le_dec _ _) as [Hlt | Hge].
  - set (s1 := scheduleOne _ _ _ _).
    destruct (scheduleLoop_extends now rest s1) as (news & (Hs & _) & _).
    destruct (rearm_keeps now (scheduleLoop now rest s1)) as (Hrs & _).
    assert (isPlaying (rearm now (scheduleLoop now rest s1)) = true) as Hplay.
    { assert (isPlaying (scheduleLoop now rest s1) = true) as Hp
        by (rewrite scheduleLoop_isPlaying; reflexivity).
      unfold rearm. rewrite Hp. simpl.
      destruct (_ && _); [done |]. by destruct (negb _). }
    split; [exact Hplay |].
    eexists _, news. unfold newly. rewrite Hrs, Hs. subst s1. simpl.
    rewrite <- app_assoc, drop_app_length. simpl.
    split; [reflexivity |]. split; [reflexivity |]. split; [| reflexivity].
    simpl. apply Q.max_l. lra.
  - exfalso. simpl in Hge. unfold SCHEDULE_AHEAD_TIME in *. lra.
Qed.

(** X19 on the sample streamer when its timer fires at time 2. *)
Lemma scheduling_stays_in_window_witness :
  running Samples.playing = true /\ isPlaying Samples.playing = true
  /\ Forall (fun x => calledAt x = 2%Q
                      /\ (2 <= startTime x < 2 + SCHEDULE_AHEAD_TIME)%Q)
            (newly Samples.playing (scheduleNextBuffer 2 Samples.playing))
  /\ length (newly Samples.playing (scheduleNextBuffer 2 Samples.playing)) = 2.
Proof.
  split; [reflexivity |]. split; [reflexivity |]. split; [| reflexivity].
  apply (scheduling_stays_in_window 2%Q Samples.playing eq_refl eq_refl).
Defined.

(** X20 on the sample streamer given three more samples. *)
Lemma addPCM16Data_keeps_every_sample_witness :
  let chunk := [Byte.x00; Byte.x40; Byte.x00; Byte.xc0; Byte.xff; Byte.x7f]%list in
  let s' := addPCM16Data 2 chunk Samples.playing in
  running Samples.playing = true /\ 0 < bufferSize Samples.playing
  /\ concat (samples <$> newly Samples.playing s') ++ concat (audioQueue s')
       ++ processingBuffer s'
     = concat (audioQueue Samples.playing) ++ processingBuffer Samples.playing
       ++ toFloat32 chunk
  /\ length (processingBuffer s') < bufferSize Samples.playing.
Proof.
  intros chunk s'.
  assert (0 < bufferSize Samples.playing) as Hsize by (simpl; lia).
  split; [reflexivity |]. split; [exact Hsize |].
  destruct (addPCM16Data_keeps_every_sample 2%Q chunk Samples.playing eq_refl Hsize)
    as (Hkeep & Hshort & _).
  split; [exact Hkeep | exact Hshort].
Defined.

(** X22 on a new streamer with blocks of two samples. *)
Lemma first_block_after_initial_delay_witness :
  let s := fresh Samples.playing in
  let chunk := [Byte.x00; Byte.x40; Byte.x00; Byte.xc0]%list in
  running s = true /\ isPlaying s = false /\ audioQueue s = []
  /\ 0 < bufferSize s
  /\ bufferSize s <= length (processingBuffer s ++ toFloat32 chunk)
  /\ (0 <= initialBufferTime s < SCHEDULE_AHEAD_TIME)%Q
  /\ isPlaying (addPCM16Data 3 chunk s) = true
  /\ exists x rest,
       newly s (addPCM16Data 3 chunk s) = x :: rest
       /\ calledAt x = 3%Q
       /\ (startTime x == 3 + initialBufferTime s)%Q
       /\ samples x = take (bufferSize s) (processingBuffer s ++ toFloat32 chunk).
Proof.
  intros s chunk.
  assert (0 < bufferSize s) as Hsize by (simpl; lia).
  assert (bufferSize s <= length (processingBuffer s ++ toFloat32 chunk)) as Hlen
    by (simpl; lia).
  assert (0 <= initialBufferTime s < SCHEDULE_AHEAD_TIME)%Q as Hdelay
    by (split; [discriminate | reflexivity]).
  split; [reflexivity |]. split; [reflexivity |]. split; [reflexivity |].
  split; [exact Hsize |]. split; [exact Hlen |]. split; [exact Hdelay |].
  exact (first_block_after_initial_delay 3%Q chunk s eq_refl eq_refl eq_refl
           Hsize Hlen Hdelay).
Defined.

End StreamerMore.

(** ** The event emitter *)

Module EmitterFacts.

Import Emitter.

Lemma get_not_inherited name (e : gmap string (list nat)) :
  name ∉ inherited ->
  get name e = match e !! name with Some ls => Listeners ls | None => Absent end.
Proof.
  intros Hn. unfold get. destruct (e !! name); [done |].
  by rewrite bool_decide_eq_false_2.
Qed.

Lemma on_registered name l (e : gmap string (list nat)) :
  name ∉ inherited ->
  on name l e = Some (<[name := registered name e ++ [l]]> e).
Proof.
  intros Hn. unfold on, registered. rewrite (get_not_inherited _ _ Hn).
  by destruct (e !! name).
Qed.

Lemma registered_on name n x (e e' : gmap string (list nat)) :
  on n x e = Some e' ->
  registered name e' = if decide (n = name) then registered name e ++ [x]
                       else registered name e.
Proof.
  unfold on, get, registered. intros Hon.
  destruct (e !! n) as [ls |] eqn:Hl.
  - injection Hon as <-. destruct (decide (n = name)) as [-> | Hne].
    + by rewrite lookup_insert_eq, Hl.
    + by rewrite lookup_insert_ne.
  - destruct (bool_decide (n ∈ inherited)); [done |]. injection Hon as <-.
    destruct (decide (n = name)) as [-> | Hne].
    + by rewrite lookup_insert_eq, Hl.
    + by rewrite lookup_insert_ne.
Qed.

Lemma registered_off name n x (e e' : gmap string (list nat)) :
  off n x e = Some e' ->
  registered name e' = if decide (n = name)
                       then filter (fun y => y <> x) (registered name e)
                       else registered name e.
Proof.
  unfold off, get, registered. intros Hoff.
  destruct (e !! n) as [ls |] eqn:Hl.
  - injection Hoff as <-. destruct (decide (n = name)) as [-> | Hne].
    + by rewrite lookup_insert_eq, Hl.
    + by rewrite lookup_insert_ne.
  - destruct (bool_decide (n ∈ inherited)); [done |]. injection Hoff as <-.
    destruct (decide (n = name)) as [-> | Hne]; [by rewrite Hl | done].
Qed.

Lemma applyAll_app os1 : forall os2 (e : gmap string (list nat)),
  applyAll e (os1 ++ os2)
  = match applyAll e os1 with Some e1 => applyAll e1 os2 | None => None end.
Proof.
  induction os1 as [| o os1 IH]; intros os2 e; simpl; [done |].
  destruct (apply e o); [apply IH | done].
Qed.

(** A listener is registered under a name only if it was there before or
    was registered under that very name. *)
Lemma registered_applyAll os : forall (e e' : gmap string (list nat)) name x,
  applyAll e os = Some e' ->
  x ∈ registered name e' -> x ∈ registered name e \/ On name x ∈ os.
Proof.
  induction os as [| o os IH]; intros e e' name x Hall Hin; simpl in Hall.
  - injection Hall as <-. by left.
  - destruct (apply e o) as [e1 |] eqn:Ho; [| done].
    destruct (IH _ _ _ _ Hall Hin) as [Hin1 | Hin1]; [| right; by right].
    destruct o as [n y | n y]; simpl in Ho.
    + rewrite (registered_on name _ _ _ _ Ho) in Hin1.
      destruct (decide (n = name)) as [-> | Hne]; [| by left].
      apply elem_of_app in Hin1 as [Hin1 | Hin1]; [by left |].
      apply list_elem_of_singleton in Hin1 as ->. right. by left.
    + rewrite (registered_off name _ _ _ _ Ho) in Hin1.
      destruct (decide (n = name)) as [-> | Hne]; [| by left].
      apply list_elem_of_filter in Hin1 as [_ Hin1]. by left.
Qed.

(** A listener that was removed and not registered again is not
    registered. *)
Lemma removed_applyAll os : forall (e e' : gmap string (list nat)) name l,
  applyAll e os = Some e' ->
  Off name l ∈ os -> On name l ∉ os -> l ∉ registered name e'.
Proof.
  induction os as [| o os IH]; intros e e' name l Hall Hoff Hon; simpl in Hall.
  - by apply elem_of_nil in Hoff.
  - destruct (apply e o) as [e1 |] eqn:Ho; [| done].
    apply not_elem_of_cons in Hon as [Hne Hon].
    apply elem_of_cons in Hoff as [<- | Hoff]; [| by eapply IH].
    simpl in Ho. intros Hl.
    destruct (registered_applyAll _ _ _ _ _ Hall Hl) as [Hl1 | Hl1]; [| done].
    rewrite (registered_off name _ _ _ _ Ho) in Hl1.
    rewrite decide_True in Hl1 by done.
    apply list_elem_of_filter in Hl1 as [Hl1 _]. done.
Qed.

Lemma elem_of_concat (o : op) (oss : list (list op)) :
  o ∈ concat oss <-> exists os, o ∈ os /\ os ∈ oss.
Proof.
  induction oss as [| os oss IH]; simpl.
  - split; [by intros ?%elem_of_nil | by intros (? & _ & ?%elem_of_nil)].
  - rewrite elem_of_app, IH. split.
    + intros [Hin | (os' & Hin & Hos)]; [exists os; split; [done | by left] |].
      exists os'. split; [done | by right].
    + intros (os' & Hin & Hos). apply elem_of_cons in Hos as [-> | Hos]; [by left |].
      right. by exists os'.
Qed.

Section WithListeners.
Variable body : nat -> list op.

Lemma forEach_applyAll ls : forall (e : gmap string (list nat)),
  forEach body ls e = applyAll e (concat (body <$> ls)).
Proof.
  induction ls as [| l ls IH]; intros e; simpl; [done |].
  rewrite applyAll_app. destruct (applyAll e (body l)); [apply IH | done].
Qed.

(** What an [emit] that returns has called. *)
Lemma emit_called name (e : gmap string (list nat)) r :
  emit body name e = Some r ->
  called r = registered name e
  /\ applyAll e (concat (body <$> called r)) = Some (after r).
Proof.
  unfold emit, get, registered. intros Hr.
  destruct (e !! name) as [ls |].
  - destruct (forEach body ls e) as [e' |] eqn:Hf; [| done].
    injection Hr as <-. simpl. by rewrite <- forEach_applyAll.
  - destruct (bool_decide _); [done |]. by injection Hr as <-.
Qed.

(** X23. Under a name that [Object.prototype] does not define, listeners
    are registered without fail and called in the order of registration,
    after those already there, as often as they were registered, by an
    [emit] that starts afterwards; such an [emit] returns when no
    listener touches the emitter; the other names are not affected.
    Under a name that [Object.prototype] defines and nothing was stored
    under, [on], [off] and [emit] throw. *)
Theorem listeners_called_in_registration_order name ls
    (e : gmap string (list nat)) :
  (name ∉ inherited ->
   exists e1,
     applyAll e (On name <$> ls) = Some e1
     /\ registered name e1 = registered name e ++ ls
     /\ (forall other, other <> name -> e1 !! other = e !! other)
     /\ (forall r, emit body name e1 = Some r ->
           called r = registered name e ++ ls
           /\ (ls <> [] -> returned r = true))
     /\ ((forall l, body l = []) -> is_Some (emit body name e1)))
  /\ (name ∈ inherited -> e !! name = None ->
      forall l, on name l e = None /\ off name l e = None
                /\ emit body name e = None).
Proof.
  split.
  - intros Hn.
    assert (forall ls (e : gmap string (list nat)), exists e1,
              applyAll e (On name <$> ls) = Some e1
              /\ registered name e1 = registered name e ++ ls
              /\ (forall other, other <> name -> e1 !! other = e !! other)
              /\ (ls <> [] -> is_Some (e1 !! name))) as Hreg.
    { clear ls e. induction ls as [| l ls IH]; intros e.
      - exists e. rewrite app_nil_r. done.
      - destruct (IH (<[name := registered name e ++ [l]]> e))
          as (e1 & Hall & Hr & Hother & Hsome).
        exists e1. rewrite fmap_cons. simpl. rewrite (on_registered _ _ _ Hn).
        split; [exact Hall |]. split.
        + rewrite Hr. unfold registered at 1. rewrite lookup_insert_eq. simpl.
          by rewrite <- app_assoc.
        + split.
          * intros other Hne. rewrite Hother by done. by apply lookup_insert_ne.
          * intros _. destruct ls as [| l' ls']; [| apply Hsome; discriminate].
            simpl in Hall. injection Hall as <-. rewrite lookup_insert_eq. eauto. }
    destruct (Hreg ls e) as (e1 & Hall & Hr & Hother & Hsome).
    exists e1. split; [done |]. split; [done |]. split; [done |]. split.
    + intros r Hemit. destruct (emit_called _ _ _ Hemit) as [Hc _].
      split; [by rewrite Hc |]. intros Hne. destruct (Hsome Hne) as [ls1 Hl1].
      unfold emit, get in Hemit. rewrite Hl1 in Hemit.
      destruct (forEach body ls1 e1); [| done]. by injection Hemit as <-.
    + intros Hinert. unfold emit. rewrite (get_not_inherited _ _ Hn).
      destruct (e1 !! name) as [ls1 |]; [| eauto].
      rewrite forEach_applyAll.
      assert (concat (body <$> ls1) = []) as ->; [| simpl; eauto].
      clear -Hinert. induction ls1 as [| x ls1 IH]; [done |].
      rewrite fmap_cons. simpl. by rewrite Hinert, IH.
  - intros Hin Hnone l. unfold on, off, emit, get. rewrite Hnone.
    by rewrite bool_decide_eq_true_2.
Qed.

(** X24. Under a name that [Object.prototype] does not define, [off]
    takes effect for the calls of [emit] that start after it: such a call
    does not call the listener until it is registered under the name
    again.  A call of [emit] in progress is not affected: it calls the
    listeners registered when it started, also one that an earlier
    listener of the same call removes, and that one is gone for the next
    call when no listener registered it again. *)
Theorem removed_listener_stays_silent name l (e : gmap string (list nat)) :
  name ∉ inherited ->
  (exists e0, off name l e = Some e0
     /\ forall os e1 r,
          On name l ∉ os -> applyAll e0 os = Some e1 ->
          emit body name e1 = Some r -> l ∉ called r)
  /\ (forall r, emit body name e = Some r ->
        called r = registered name e
        /\ ((exists x, x ∈ called r /\ Off name l ∈ body x) ->
            (forall x, x ∈ called r -> On name l ∉ body x) ->
            forall r', emit body name (after r) = Some r' -> l ∉ called r')).
Proof.
  intros Hn. split.
  - assert (exists e0, off name l e = Some e0) as [e0 Hoff].
    { unfold off. rewrite (get_not_inherited _ _ Hn). destruct (e !! name); eauto. }
    exists e0. split; [done |]. intros os e1 r Hos Hall Hemit.
    destruct (emit_called _ _ _ Hemit) as [-> _]. intros Hin.
    destruct (registered_applyAll _ _ _ _ _ Hall Hin) as [Hin0 | Hin0]; [| done].
    rewrite (registered_off name _ _ _ _ Hoff), decide_True in Hin0 by done.
    apply list_elem_of_filter in Hin0 as [Hne _]. done.
  - intros r Hemit. destruct (emit_called _ _ _ Hemit) as [Hc Hafter].
    split; [done |]. intros (x & Hx & Hoff) Hon r' Hemit'.
    destruct (emit_called _ _ _ Hemit') as [-> _].
    apply (removed_applyAll _ _ _ _ _ Hafter).
    + apply elem_of_concat. exists (body x). split; [done |].
      apply list_elem_of_fmap. by exists x.
    + intros Hin. apply elem_of_concat in Hin as (os & Hin & Hos).
      apply list_elem_of_fmap in Hos as (y & -> & Hy). by apply (Hon y).
Qed.

End WithListeners.

(** X23 on a listener registered twice, with listeners that leave the
    emitter alone. *)
Lemma listeners_called_in_registration_order_witness :
  ("audio" ∉ inherited) /\ [7; 8; 7] <> []
  /\ (forall l, MoreSamples.inert l = [])
  /\ exists e1 r,
       applyAll create (On "audio" <$> [7; 8; 7]) = Some e1
       /\ emit MoreSamples.inert "audio" e1 = Some r
       /\ called r = [7; 8; 7] /\ returned r = true.
Proof.
  assert ("audio" ∉ inherited) as Hn.
  { intros Hin. repeat (apply elem_of_cons in Hin as [Hin | Hin]; [discriminate Hin |]).
    by apply elem_of_nil in Hin. }
  assert ([7; 8; 7] <> []) as Hne by discriminate.
  assert (forall l, MoreSamples.inert l = []) as Hinert by reflexivity.
  destruct (listeners_called_in_registration_order MoreSamples.inert "audio"
              [7; 8; 7] create) as [Hown _].
  destruct (Hown Hn) as (e1 & Hall & _ & _ & Hcalled & Hreturns).
  destruct (Hreturns Hinert) as [r Hr].
  destruct (Hcalled r Hr) as [Hc Hret].
  split; [exact Hn |]. split; [exact Hne |]. split; [exact Hinert |].
  exists e1, r. split; [exact Hall |]. split; [exact Hr |].
  split; [exact Hc | exact (Hret Hne)].
Defined.

(** X24 on two listeners of [audio], the first of which removes the
    second when it is called: the call in progress reaches both, the
    next one only the first. *)
Lemma removed_listener_stays_silent_witness :
  let e : gmap string (list nat) := {[ "audio" := [7; 8] ]} in
  let r := {| returned := true; called := [7; 8]; after := <["audio" := [7]]> e |} in
  let r' := {| returned := true; called := [7];
               after := <["audio" := [7]]> (<["audio" := [7]]> e) |} in
  ("audio" ∉ inherited)
  /\ emit MoreSamples.remover "audio" e = Some r
  /\ (exists x, x ∈ called r /\ Off "audio" 8 ∈ MoreSamples.remover x)
  /\ (forall x, x ∈ called r -> On "audio" 8 ∉ MoreSamples.remover x)
  /\ emit MoreSamples.remover "audio" (after r) = Some r'
  /\ (8 ∈ called r) /\ (8 ∉ called r').
Proof.
  intros e r r'.
  assert ("audio" ∉ inherited) as Hn.
  { intros Hin. repeat (apply elem_of_cons in Hin as [Hin | Hin]; [discriminate Hin |]).
    by apply elem_of_nil in Hin. }
  assert (emit MoreSamples.remover "audio" e = Some r) as Hr by reflexivity.
  assert (emit MoreSamples.remover "audio" (after r) = Some r') as Hr' by reflexivity.
  assert (exists x, x ∈ called r /\ Off "audio" 8 ∈ MoreSamples.remover x) as Hoff.
  { exists 7. split; [by left | by left]. }
  assert (forall x, x ∈ called r -> On "audio" 8 ∉ MoreSamples.remover x) as Hon.
  { intros x Hx Hin. unfold MoreSamples.remover in Hin.
    destruct (x =? 7); [| by apply elem_of_nil in Hin].
    apply list_elem_of_singleton in Hin. discriminate Hin. }
  destruct (removed_listener_stays_silent MoreSamples.remover "audio" 8 e Hn)
    as [_ Hprogress].
  destruct (Hprogress r Hr) as [_ Hnext].
  split; [exact Hn |]. split; [exact Hr |]. split; [exact Hoff |].
  split; [exact Hon |]. split; [exact Hr' |].
  split; [right; by left | exact (Hnext Hoff Hon r' Hr')].
Defined.

End EmitterFacts.

(** ** The client *)

Module LiveClientFacts.

Import LiveClient.

Lemma sendAll_connecting batches : forall c,
  wsOpen c = false -> isConnecting c = true ->
  sendAll batches c =
  {| ws := ws c; currentConfig := currentConfig c;
     connectionAttempt := connectionAttempt c;
     maxConnectionAttempts := maxConnectionAttempts c;
     isConnecting := true;
     pendingAudioChunks := pendingAudioChunks c ++ concat batches;
     sent := sent c; emitted := emitted c; closed := closed c;
     reconnects := reconnects c |}.
Proof.
  induction batches as [| b batches IH]; intros c Ho Hc.
  - simpl. rewrite app_nil_r. destruct c; simpl in *; congruence.
  - change (sendAll (b :: batches) c) with (sendAll batches (sendRealtimeInput b c)).
    assert (sendRealtimeInput b c =
            {| ws := ws c; currentConfig := currentConfig c;
               connectionAttempt := connectionAttempt c;
               maxConnectionAttempts := maxConnectionAttempts c;
               isConnecting := isConnecting c;
               pendingAudioChunks := pendingAudioChunks c ++ b;
               sent := sent c; emitted := emitted c; closed := closed c;
               reconnects := reconnects c |}) as ->.
    { unfold sendRealtimeInput. by rewrite Ho, Hc. }
    rewrite IH by done. simpl. by rewrite <- app_assoc.
Qed.

(** X25. While the client is connecting, media chunks are kept and
    nothing is sent. When the socket opens, the setup frame is sent first,
    then all the kept chunks in one frame, in the order they were given;
    the attempts are reset and nothing is kept any longer. *)
Theorem setup_first_then_pending (batches : list (list chunk)) (c : client) cf :
  wsOpen c = false -> isConnecting c = true -> currentConfig c = Some cf ->
  let queued := sendAll batches c in
  let opened := onOpen queued in
  sent queued = sent c
  /\ sent opened
     = sent c ++ Setup cf
         :: match pendingAudioChunks c ++ concat batches with
            | [] => []
            | chunks => [RealtimeInput chunks]
            end
  /\ pendingAudioChunks opened = []
  /\ connectionAttempt opened = 0
  /\ isConnecting opened = false.
Proof.
  intros Ho Hc Hcf queued opened. subst opened queued.
  rewrite (sendAll_connecting batches c Ho Hc). split; [done |].
  unfold onOpen; simpl. rewrite Hcf. unfold sendDirect at 1 2 3 4 5 6; simpl.
  destruct (pendingAudioChunks c ++ concat batches) as [| ch chs] eqn:Hp; simpl.
  - done.
  - unfold sendRealtimeInput, sendDirect; simpl. rewrite <- app_assoc. done.
Qed.

Lemma reconnects_onOpen c : reconnects (onOpen c) = reconnects c.
Proof.
  unfold onOpen; simpl. destruct (currentConfig c); simpl;
    unfold sendDirect; simpl; destruct (pendingAudioChunks c); simpl; try done;
    unfold sendRealtimeInput, sendDirect; simpl; done.
Qed.

(** X26. A close after a successful open always emits [close] and drops
    the socket, and sets up a reconnection after one second exactly when
    the code is 1006 or 1001: the counter was reset by the open, so the
    limit on attempts never stops it. *)
Theorem client_retries_only_abnormal_closure (c : client) (code : Z) :
  0 < maxConnectionAttempts c ->
  let c' := handleClose code (onOpen c) in
  ws c' = None
  /\ emitted c' = emitted (onOpen c) ++ [EvClose code]
  /\ reconnects c'
     = reconnects c ++ (if bool_decide (code = 1006%Z \/ code = 1001%Z)
                        then [1000%Z] else []).
Proof.
  intros Hmax c'. subst c'. unfold handleClose; simpl.
  split; [done |]. split; [done |].
  assert (connectionAttempt (onOpen c) = 0
          /\ maxConnectionAttempts (onOpen c) = maxConnectionAttempts c) as [-> ->].
  { unfold onOpen; simpl. destruct (currentConfig c); simpl;
      unfold sendDirect; simpl; destruct (pendingAudioChunks c); simpl; try done;
      unfold sendRealtimeInput, sendDirect; simpl; done. }
  rewrite reconnects_onOpen.
  destruct (Nat.ltb_spec 0 (maxConnectionAttempts c)); [| lia].
  rewrite andb_true_r.
  case_bool_decide as Hd;
    destruct (Z.eqb_spec code 1006); destruct (Z.eqb_spec code 1001); simpl;
    try done; try (by rewrite app_nil_r); exfalso; try tauto; lia.
Qed.

(** *** Model turns *)

Lemma audioData_isAudio p : isAudio p = true -> is_Some (audioData p).
Proof.
  unfold audioData. intros Ha. rewrite Ha. unfold isAudio in Ha.
  destruct (inlineData p) as [[? ?] |]; [eauto | done].
Qed.

Lemma audioData_not_audio p : isAudio p = false -> audioData p = None.
Proof. unfold audioData. by intros ->. Qed.

Lemma length_omap_audioData parts :
  length (omap audioData parts) + length (List.filter (fun p => negb (isAudio p)) parts)
  = length parts.
Proof.
  induction parts as [| p parts IH]; [done |]. simpl.
  destruct (isAudio p) eqn:Ha; simpl.
  - destruct (audioData_isAudio p Ha) as [d Hd]. rewrite Hd. simpl.
    f_equal. exact IH.
  - rewrite (audioData_not_audio p Ha). simpl.
    rewrite Nat.add_succ_r. f_equal. exact IH.
Qed.

Lemma audioOf_fmap ds : audioOf (EvAudio <$> ds) = ds.
Proof.
  induction ds as [| d ds IH]; [done |]. unfold audioOf in *. simpl.
  f_equal. exact IH.
Qed.

Lemma contentParts_fmap_audio ds : contentParts (EvAudio <$> ds) = [].
Proof. induction ds as [| d ds IH]; [done |]. unfold contentParts in *. simpl. exact IH. Qed.

(** X27. Of a model turn, every part is delivered once and in order: the
    audio parts as [audio] events, the others in the [content] event,
    which never carries an audio part. *)
Theorem model_turn_parts_delivered_once (parts : list part) :
  let es := onModelTurn parts in
  contentParts es = List.filter (fun p => negb (isAudio p)) parts
  /\ Forall (fun p => isAudio p = false) (contentParts es)
  /\ audioOf es = omap audioData parts
  /\ length (audioOf es) + length (contentParts es) = length parts.
Proof.
  intros es. subst es. unfold onModelTurn.
  set (nonAudio := List.filter (fun p => negb (isAudio p)) parts).
  assert (contentParts
            ((EvAudio <$> omap audioData parts)
             ++ (if (0 <? length nonAudio) || negb (existsb isAudio parts)
                 then [EvContent nonAudio] else [])) = nonAudio) as Hc.
  { unfold contentParts. rewrite omap_app, concat_app.
    fold (contentParts (EvAudio <$> omap audioData parts)).
    rewrite contentParts_fmap_audio. simpl.
    destruct (Nat.ltb_spec 0 (length nonAudio)); simpl; [apply app_nil_r |].
    destruct nonAudio; [| simpl in *; lia].
    by destruct (negb _). }
  assert (audioOf
            ((EvAudio <$> omap audioData parts)
             ++ (if (0 <? length nonAudio) || negb (existsb isAudio parts)
                 then [EvContent nonAudio] else [])) = omap audioData parts) as Ha.
  { unfold audioOf. rewrite omap_app. fold (audioOf (EvAudio <$> omap audioData parts)).
    rewrite audioOf_fmap. destruct (_ || _); simpl; apply app_nil_r. }
  rewrite Hc, Ha. split; [done |]. split.
  - subst nonAudio. apply Forall_forall. intros p Hp.
    apply list_elem_of_In, filter_In in Hp as [_ Hp]. by apply negb_true_iff.
  - split; [done |]. apply length_omap_audioData.
Qed.

(** X25 on a client that is given three chunks in two calls while
    connecting. *)
Lemma setup_first_then_pending_witness :
  let c := MoreSamples.connectingClient in
  let batches := [[MoreSamples.pcm "a"; MoreSamples.pcm "b"]; [MoreSamples.pcm "c"]] in
  wsOpen c = false /\ isConnecting c = true
  /\ currentConfig c = Some MoreSamples.liveConfig
  /\ sent (onOpen (sendAll batches c))
     = [Setup MoreSamples.liveConfig;
        RealtimeInput [MoreSamples.pcm "a"; MoreSamples.pcm "b"; MoreSamples.pcm "c"]].
Proof.
  intros c batches. split; [reflexivity |]. split; [reflexivity |].
  split; [reflexivity |].
  destruct (setup_first_then_pending batches c MoreSamples.liveConfig
              eq_refl eq_refl eq_refl) as (_ & Hsent & _).
  exact Hsent.
Defined.

(** X26 on closes with 1006 and with 1013. *)
Lemma client_retries_only_abnormal_closure_witness :
  let c := MoreSamples.connectingClient in
  0 < maxConnectionAttempts c
  /\ reconnects (handleClose 1006 (onOpen c)) = [1000%Z]
  /\ reconnects (handleClose 1013 (onOpen c)) = [].
Proof.
  intros c. assert (0 < maxConnectionAttempts c) as Hmax by (simpl; lia).
  split; [exact Hmax |].
  destruct (client_retries_only_abnormal_closure c 1006 Hmax) as (_ & _ & H6).
  destruct (client_retries_only_abnormal_closure c 1013 Hmax) as (_ & _ & H13).
  split; [exact H6 | exact H13].
Defined.

End LiveClientFacts.
